(** * ConsensusCluster: a shallow embedding of [cluster.py]

    The development follows the layout of the Python module: a small
    prelude for the Python and numpy operations the code relies on
    (ranges, loops that may raise, two-dimensional arrays), then one
    module per class.

    Conventions.
    - A Python call that may raise returns [option] (or a sum carrying the
      exception); loops are folds in that monad.
    - numpy [float] arrays are lists of rows.  Entries are exact rationals
      ([Qc]); the co-occurrence counters, which only ever hold whole
      numbers, are integers ([Z]).
    - A sample is known to the clustering code only through its mutable
      [cluster_id]; the list [datapoints] holds one nullable label per
      sample object, and a subsample [dataset] is a list of indices into
      it, so that writes through [dataset] are seen through [datapoints]. *)

From Stdlib Require Import ZArith QArith Qcanon Lia.
From stdpp Require Import base option list numbers sorting strings gmap.

Local Open Scope nat_scope.

(** ** Python prelude *)

Module Py.

(** [xrange(a, b)] *)
Definition xrange (a b : nat) : list nat := seq a (b - a).

(** A [for] loop whose body may raise: the first exception ends it. *)
Fixpoint foldM {S A : Type} (f : S → A → option S) (s : S) (l : list A)
  : option S :=
  match l with
  | [] => Some s
  | x :: l' => s' ← f s x; foldM f s' l'
  end.

(** [M[i][j]] on a two-dimensional array; [None] is numpy's IndexError. *)
Definition mget {A : Type} (M : list (list A)) (i j : nat) : option A :=
  row ← M !! i; row !! j.

(** [M[i][j] = v], in place; [None] is numpy's IndexError. *)
Definition mset {A : Type} (M : list (list A)) (i j : nat) (v : A)
  : option (list (list A)) :=
  row ← M !! i; _ ← row !! j; Some (<[i := <[j := v]> row]> M).

(** [numpy.zeros((n, m))] *)
Definition zeros {A : Type} (z : A) (n m : nat) : list (list A) :=
  replicate n (replicate m z).

(** An [n]-by-[m] array: numpy arrays are rectangular by construction. *)
Definition shape {A : Type} (n m : nat) (M : list (list A)) : Prop :=
  length M = n ∧ Forall (λ row, length row = m) M.

(** The index pairs visited by the idiom
    [for i in xrange(n): for j in xrange(1, n - i): k, m = i, i+j]. *)
Definition upper_pairs (n : nat) : list (nat * nat) :=
  i ← xrange 0 n; (λ j, (i, i + j)) <$> xrange 1 (n - i).

(** [A + B] and the like on two arrays of one shape, entry by entry. *)
Definition map2 {A B C : Type} (f : A → B → C)
  (M : list (list A)) (N : list (list B)) : list (list C) :=
  zip_with (zip_with f) M N.

(** [M[:, j]] *)
Definition column {A : Type} (M : list (list A)) (j : nat) : list A :=
  omap (λ row, row !! j) M.

(** [M.transpose()] *)
Definition transpose {A : Type} (M : list (list A)) : list (list A) :=
  column M <$> xrange 0 (from_option length 0 (head M)).

(** [M.take(indices, 1)]: the columns of [M] at [indices], in that order;
    [None] is numpy's IndexError. *)
Definition take_columns {A : Type} (indices : list nat) (M : list (list A))
  : option (list (list A)) :=
  mapM (λ row, mapM (λ j, row !! j) indices) M.

(** [del l[i]]; [None] is IndexError. *)
Definition py_del {A : Type} (l : list A) (i : nat) : option (list A) :=
  if decide (i < length l) then Some (delete i l) else None.

(** [l[i] = x]; [None] is IndexError. *)
Definition py_set {A : Type} (l : list A) (i : nat) (x : A) : option (list A) :=
  if decide (i < length l) then Some (<[i := x]> l) else None.

End Py.

Import Py.

(** *** Facts about the prelude *)

Section prelude_facts.
Context {A : Type}.
Implicit Types (M : list (list A)) (v : A).

Lemma foldM_cons {S B} (f : S → B → option S) (s : S) (x : B) (l : list B) :
  foldM f s (x :: l) = s' ← f s x; foldM f s' l.
Proof. done. Qed.

Lemma foldM_app {S B} (f : S → B → option S) (s : S) (l1 l2 : list B) :
  foldM f s (l1 ++ l2) = s' ← foldM f s l1; foldM f s' l2.
Proof.
  revert s. induction l1 as [|x l1 IH]; intros s; simpl; [done|].
  destruct (f s x) as [s'|]; simpl; [apply IH | done].
Qed.

Lemma foldM_invariant {S B} (P : S → Prop) (f : S → B → option S) l :
  (∀ s x s', x ∈ l → P s → f s x = Some s' → P s') →
  ∀ s s', P s → foldM f s l = Some s' → P s'.
Proof.
  induction l as [|x l IH]; intros Hstep s s' Hs; simpl.
  - by intros [= <-].
  - destruct (f s x) as [s1|] eqn:Hf; simpl; [|done].
    apply IH.
    + intros ? y ? Hy. apply Hstep. by right.
    + eapply Hstep; [left | exact Hs | exact Hf].
Qed.

Lemma foldM_total {S B} (P : S → Prop) (f : S → B → option S) l :
  (∀ s x, x ∈ l → P s → ∃ s', f s x = Some s' ∧ P s') →
  ∀ s, P s → ∃ s', foldM f s l = Some s' ∧ P s'.
Proof.
  induction l as [|x l IH]; intros Hstep s Hs; simpl; [by eauto|].
  destruct (Hstep s x) as (s1 & -> & Hs1); [left | done |]. simpl.
  apply IH; [|done]. intros ? y Hy. apply Hstep. by right.
Qed.

Lemma shape_zeros (z : A) n m : shape n m (zeros z n m).
Proof.
  split; [apply length_replicate|].
  apply Forall_replicate, length_replicate.
Qed.

Lemma mget_zeros (z : A) n m i j :
  i < n → j < m → mget (zeros z n m) i j = Some z.
Proof.
  intros Hi Hj. unfold mget, zeros.
  rewrite lookup_replicate_2 by done. simpl. by apply lookup_replicate_2.
Qed.

Lemma shape_row n m M i row : shape n m M → M !! i = Some row → length row = m.
Proof.
  intros [_ HM] Hi. rewrite Forall_lookup in HM. by apply (HM i).
Qed.

Lemma mget_is_Some n m M i j : shape n m M → i < n → j < m → is_Some (mget M i j).
Proof.
  intros HM Hi Hj. unfold mget.
  destruct (lookup_lt_is_Some_2 M i) as [row Hrow]; [by rewrite (proj1 HM)|].
  rewrite Hrow. simpl. apply lookup_lt_is_Some_2.
  by rewrite (shape_row _ _ _ _ _ HM Hrow).
Qed.

Lemma mget_Some_lt n m M i j v : shape n m M → mget M i j = Some v → i < n ∧ j < m.
Proof.
  intros HM. unfold mget. destruct (M !! i) as [row|] eqn:Hrow; simpl; [|done].
  intros Hj. split.
  - rewrite <- (proj1 HM). by eapply lookup_lt_Some.
  - rewrite <- (shape_row _ _ _ _ _ HM Hrow). by eapply lookup_lt_Some.
Qed.

Lemma mset_is_Some n m M i j v : shape n m M → i < n → j < m → is_Some (mset M i j v).
Proof.
  intros HM Hi Hj. unfold mset.
  destruct (lookup_lt_is_Some_2 M i) as [row Hrow]; [by rewrite (proj1 HM)|].
  rewrite Hrow. simpl.
  destruct (lookup_lt_is_Some_2 row j) as [x Hx].
  { by rewrite (shape_row _ _ _ _ _ HM Hrow). }
  rewrite Hx. simpl. by eexists.
Qed.

Lemma mset_shape n m M i j v M' : shape n m M → mset M i j v = Some M' → shape n m M'.
Proof.
  intros HM. unfold mset.
  destruct (M !! i) as [row|] eqn:Hrow; simpl; [|done].
  destruct (row !! j) as [x|] eqn:Hx; simpl; [|done].
  intros [= <-]. split.
  - rewrite length_insert. apply HM.
  - apply Forall_insert; [apply HM|].
    rewrite length_insert. by eapply shape_row.
Qed.

Lemma mget_mset M i j v M' a b :
  mset M i j v = Some M' →
  mget M' a b = if decide (a = i ∧ b = j) then Some v else mget M a b.
Proof.
  unfold mset, mget.
  destruct (M !! i) as [row|] eqn:Hrow; simpl; [|done].
  destruct (row !! j) as [x|] eqn:Hx; simpl; [|done].
  intros [= <-].
  pose proof (lookup_lt_Some _ _ _ Hrow) as Hi.
  pose proof (lookup_lt_Some _ _ _ Hx) as Hj.
  destruct (decide (a = i)) as [->|Hne].
  - rewrite list_lookup_insert_eq by done. simpl.
    destruct (decide (b = j)) as [->|Hne'].
    + rewrite list_lookup_insert_eq by done.
      by rewrite decide_True.
    + rewrite list_lookup_insert_ne by done.
      rewrite decide_False by (intros [_ ?]; done).
      by rewrite Hrow.
  - rewrite list_lookup_insert_ne by done.
    by rewrite decide_False by (intros [? _]; done).
Qed.

Lemma elem_of_upper_pairs n k m : (k, m) ∈ upper_pairs n ↔ k < m ∧ m < n.
Proof.
  unfold upper_pairs, xrange. rewrite list_elem_of_bind. split.
  - intros (i & Hkm & Hi). apply list_elem_of_fmap in Hkm as (j & [= -> ->] & Hj).
    apply elem_of_seq in Hi. apply elem_of_seq in Hj. lia.
  - intros [Hkm Hm]. exists k. split.
    + apply list_elem_of_fmap. exists (m - k). split; [f_equal; lia|].
      apply elem_of_seq. lia.
    + apply elem_of_seq. lia.
Qed.

Lemma mget_map2 {B C} (f : A → B → C) M (N : list (list B)) i j :
  mget (map2 f M N) i j = a ← mget M i j; b ← mget N i j; Some (f a b).
Proof.
  unfold mget, map2. rewrite lookup_zip_with.
  destruct (M !! i) as [r|]; simpl; [|done].
  destruct (N !! i) as [r'|]; simpl.
  - rewrite lookup_zip_with. by destruct (r !! j).
  - by destruct (r !! j).
Qed.

Lemma shape_map2 {B C} (f : A → B → C) n m M (N : list (list B)) :
  shape n m M → shape n m N → shape n m (map2 f M N).
Proof.
  intros [HM1 HM2] [HN1 HN2]. split.
  - unfold map2. rewrite length_zip_with. lia.
  - apply Forall_lookup. intros i r. unfold map2. rewrite lookup_zip_with.
    destruct (M !! i) as [r1|] eqn:H1; simpl; [|done].
    destruct (N !! i) as [r2|] eqn:H2; simpl; [|done].
    intros [= <-]. rewrite length_zip_with.
    rewrite Forall_lookup in HM2. rewrite Forall_lookup in HN2.
    rewrite (HM2 _ _ H1), (HN2 _ _ H2). lia.
Qed.

Lemma column_lookup n m M i j : shape n m M → j < m → column M j !! i = mget M i j.
Proof.
  intros [_ HM] Hj. clear n. revert i.
  induction HM as [|r M Hr HM IH]; intros i; [by destruct i|].
  change (column (r :: M) j)
    with (match r !! j with Some y => y :: column M j | None => column M j end).
  destruct (lookup_lt_is_Some_2 r j) as [x Hx]; [lia|]. rewrite Hx.
  destruct i as [|i]; [by unfold mget; simpl; rewrite Hx|]. apply IH.
Qed.

Lemma length_column n m M j : shape n m M → j < m → length (column M j) = n.
Proof.
  intros [<- HM] Hj. induction HM as [|r M Hr HM IH]; [done|].
  change (column (r :: M) j)
    with (match r !! j with Some y => y :: column M j | None => column M j end).
  destruct (lookup_lt_is_Some_2 r j) as [x ->]; [lia|]. simpl. by rewrite IH.
Qed.

Lemma mget_transpose n M i j : shape n n M → mget (transpose M) j i = mget M i j.
Proof.
  intros HM. unfold transpose, xrange.
  assert (from_option length 0 (head M) - 0 = if decide (n = 0) then 0 else n) as ->.
  { destruct HM as [HM1 HM2]. destruct M as [|r M]; simpl in *.
    - by subst n.
    - rewrite decide_False by lia. apply Forall_cons in HM2 as [-> _]. lia. }
  unfold mget at 1. rewrite list_lookup_fmap.
  destruct (decide (j < n)) as [Hj|Hj].
  - rewrite decide_False by lia. rewrite lookup_seq_lt by done. simpl.
    by apply (column_lookup n n).
  - rewrite lookup_ge_None_2; simpl.
    + symmetry. destruct (mget M i j) as [v|] eqn:Hv; [|done].
      apply (mget_Some_lt n n) in Hv; [lia | done].
    + rewrite length_seq. case_decide; lia.
Qed.

Lemma shape_transpose n M : shape n n M → shape n n (transpose M).
Proof.
  intros HM. unfold transpose, xrange.
  assert (from_option length 0 (head M) - 0 = n) as ->.
  { destruct HM as [HM1 HM2]. destruct M as [|r M]; simpl in *; [done|].
    apply Forall_cons in HM2 as [-> _]. lia. }
  split; [by rewrite length_fmap, length_seq|].
  apply Forall_fmap, Forall_forall. intros j Hj. simpl.
  apply elem_of_seq in Hj. apply (length_column n n); [done | lia].
Qed.

Lemma mapM_lookup {B C} (f : B → option C) (l : list B) (k : list C) i :
  mapM f l = Some k → k !! i = l !! i ≫= f.
Proof.
  intros Hk. apply mapM_Some_1 in Hk. revert i.
  induction Hk as [|x y l k Hxy Hk IH]; intros i; [done|].
  destruct i as [|i]; simpl; [done | apply IH].
Qed.

Lemma mapM_Permutation {B C} (f : B → option C) (p q : list B) :
  p ≡ₚ q → ∀ k2, mapM f q = Some k2 → ∃ k1, mapM f p = Some k1 ∧ k1 ≡ₚ k2.
Proof.
  induction 1 as [|x p q Hpq IH|x y p|p q r Hpq IH1 Hqr IH2]; intros k2; simpl.
  - intros [= <-]. by exists [].
  - destruct (f x) as [z|]; simpl; [|done].
    destruct (mapM f q) as [k|] eqn:Hk; simpl; [|done]. intros [= <-].
    destruct (IH k eq_refl) as (k1 & -> & Hk1). exists (z :: k1). simpl.
    split; [done|]. by constructor.
  - destruct (f x) as [z|]; simpl; [|by destruct (f y)].
    destruct (f y) as [w|]; simpl; [|done].
    destruct (mapM f p) as [k|]; simpl; [|done]. intros [= <-].
    exists (w :: z :: k). split; [done|]. apply perm_swap.
  - intros Hr. destruct (IH2 k2 Hr) as (kq & Hq & Hkq).
    destruct (IH1 kq Hq) as (kp & Hp & Hkp). exists kp. split; [done|].
    by etrans.
Qed.

Lemma mapM_lookup_seq (l : list A) : mapM (λ i, l !! i) (seq 0 (length l)) = Some l.
Proof.
  apply mapM_Some_2, Forall2_same_length_lookup_2; [by rewrite length_seq|].
  intros i x y Hx Hy. apply lookup_seq in Hx as [-> _]. done.
Qed.

(** Reading a list at the positions of a permutation of its indices
    gives a permutation of the list. *)
Lemma mapM_lookup_Permutation (l : list A) (p : list nat) :
  p ≡ₚ seq 0 (length l) → ∃ k, mapM (λ i, l !! i) p = Some k ∧ k ≡ₚ l.
Proof. intros Hp. exact (mapM_Permutation _ _ _ Hp l (mapM_lookup_seq l)). Qed.

Lemma concat_Forall2_Permutation (l k : list (list A)) :
  Forall2 (≡ₚ) l k → concat l ≡ₚ concat k.
Proof.
  induction 1 as [|x y l k Hxy _ IH]; simpl; [done|]. by rewrite Hxy, IH.
Qed.

Lemma concat_Permutation (l k : list (list A)) : l ≡ₚ k → concat l ≡ₚ concat k.
Proof.
  induction 1 as [|x l k _ IH|x y l|l k r _ IH1 _ IH2]; simpl; [done| | |].
  - by rewrite IH.
  - rewrite !app_assoc. by rewrite (Permutation_app_comm y x).
  - by etrans.
Qed.

Lemma take_columns_Some n m M (p : list nat) :
  shape n m M → Forall (λ j, j < m) p →
  ∃ T, take_columns p M = Some T ∧ shape n (length p) T ∧
       ∀ i b, mget T i b = pb ← p !! b; mget M i pb.
Proof.
  intros HM Hp.
  assert (∀ row, row ∈ M → is_Some (mapM (λ j, row !! j) p)) as Hrows.
  { intros row Hrow. apply mapM_is_Some. eapply Forall_impl; [exact Hp|].
    intros j Hj. simpl. apply lookup_lt_is_Some_2.
    destruct HM as [_ HM]. rewrite Forall_forall in HM. by rewrite (HM _ Hrow). }
  destruct (mapM_is_Some_2 (λ row, mapM (λ j, row !! j) p) M) as [T HT].
  { apply Forall_forall. intros row Hrow. by apply Hrows. }
  exists T. split; [done|].
  assert (∀ i, T !! i = M !! i ≫= λ row, mapM (λ j, row !! j) p) as Hi.
  { intros i. by apply mapM_lookup. }
  split; [split|].
  - apply length_mapM in HT. destruct HM as [HM _]. congruence.
  - apply Forall_lookup. intros i r Hr. rewrite Hi in Hr.
    destruct (M !! i) as [row|]; simpl in Hr; [|done].
    by apply length_mapM in Hr.
  - intros i b. unfold mget. rewrite Hi.
    destruct (M !! i) as [row|] eqn:Hrow; simpl; [|by destruct (p !! b)].
    destruct (Hrows row) as [r Hr]; [by eapply list_elem_of_lookup_2|].
    rewrite Hr. simpl. by rewrite (mapM_lookup _ _ _ b Hr).
Qed.

End prelude_facts.

(** A nested loop over [upper_pairs] is one loop over the list of pairs. *)
Lemma foldM_bind {S B C} (f : S → C → option S) (g : B → list C) (l : list B) (s : S) :
  foldM f s (l ≫= g) = foldM (λ s x, foldM f s (g x)) s l.
Proof.
  revert s. induction l as [|x l IH]; intros s; [done|].
  change ((x :: l) ≫= g) with (g x ++ (l ≫= g)).
  rewrite foldM_app. simpl. destruct (foldM f s (g x)); simpl; [apply IH | done].
Qed.

Lemma foldM_fmap {S B C} (f : S → C → option S) (h : B → C) (l : list B) (s : S) :
  foldM f s (h <$> l) = foldM (λ s x, f s (h x)) s l.
Proof.
  revert s. induction l as [|x l IH]; intros s; simpl; [done|].
  destruct (f s (h x)); simpl; [apply IH | done].
Qed.

Lemma foldM_ext {S B} (f g : S → B → option S) (l : list B) (s : S) :
  (∀ s x, f s x = g s x) → foldM f s l = foldM g s l.
Proof.
  intros Hfg. revert s. induction l as [|x l IH]; intros s; simpl; [done|].
  rewrite Hfg. destruct (g s x); simpl; [apply IH | done].
Qed.

Lemma foldM_upper_pairs {S} (f : S → nat * nat → option S) (n : nat) (s : S) :
  foldM (λ s i, foldM (λ s j, f s (i, i + j)) s (xrange 1 (n - i))) s (xrange 0 n)
  = foldM f s (upper_pairs n).
Proof.
  unfold upper_pairs. rewrite foldM_bind. apply foldM_ext.
  intros s' i. by rewrite foldM_fmap.
Qed.

(** ** BaseCluster *)

Module Base.

(** [__init__]: of the fields it sets, [num_samples] and [vec_len] are
    computed; [len(data_matrix[0])] raises IndexError on an empty data
    matrix. *)
Definition BaseCluster {label : Type} (datapoints : list label)
    (data_matrix : list (list Qc)) : option (nat * nat) :=
  row ← data_matrix !! 0;
  Some (length datapoints, length row).

Section distance_matrix.
Context (distance : list Qc → list Qc → Qc).

(** The body of the inner loop of [_gen_distance_matrix] at [(k, m)]. *)
Definition distance_pair (data_matrix : list (list Qc))
    (distance_matrix : list (list Qc)) (km : nat * nat)
  : option (list (list Qc)) :=
  let '(k, m) := km in
  a ← data_matrix !! k;
  b ← data_matrix !! m;
  mset distance_matrix k m (distance a b).

(** [_gen_distance_matrix] *)
Definition _gen_distance_matrix (data_matrix : list (list Qc))
    (num_samples : nat) : option (list (list Qc)) :=
  distance_matrix ←
    foldM (λ D i,
      foldM (λ D j, distance_pair data_matrix D (i, i + j))
            D (xrange 1 (num_samples - i)))
      (zeros 0%Qc num_samples num_samples) (xrange 0 num_samples);
  Some (map2 Qcplus distance_matrix (transpose distance_matrix)).

(** [distance(data_matrix[i], data_matrix[j])] *)
Definition sample_distance (data_matrix : list (list Qc)) (i j : nat)
  : option Qc :=
  a ← data_matrix !! i; b ← data_matrix !! j; Some (distance a b).

Lemma distance_pairs_filled data_matrix n (l : list (nat * nat))
    (D : list (list Qc)) :
  n ≤ length data_matrix → shape n n D →
  Forall (λ km, km.1 < n ∧ km.2 < n) l →
  ∃ D', foldM (distance_pair data_matrix) D l = Some D' ∧ shape n n D' ∧
    ∀ i j, mget D' i j = if decide ((i, j) ∈ l)
                         then sample_distance data_matrix i j
                         else mget D i j.
Proof.
  intros Hdata HD Hl. revert D HD.
  induction Hl as [|[k m] l [Hk Hm] Hl IH]; intros D HD.
  - exists D. split; [done|]. split; [done|]. intros i j.
    by rewrite decide_False by apply not_elem_of_nil.
  - simpl in Hk, Hm.
    destruct (lookup_lt_is_Some_2 data_matrix k) as [a Ha]; [lia|].
    destruct (lookup_lt_is_Some_2 data_matrix m) as [b Hb]; [lia|].
    destruct (mset_is_Some n n D k m (distance a b)) as [D1 HD1]; [done..|].
    assert (distance_pair data_matrix D (k, m) = Some D1) as Hstep.
    { unfold distance_pair. rewrite Ha, Hb. done. }
    rewrite foldM_cons, Hstep. simpl.
    destruct (IH D1) as (D' & HD' & Hshape & Hget); [by eapply mset_shape|].
    exists D'. split; [done|]. split; [done|]. intros i j. rewrite Hget.
    destruct (decide ((i, j) ∈ l)) as [Hin|Hnotin].
    + rewrite decide_True by by right. done.
    + rewrite (mget_mset _ _ _ _ _ i j HD1).
      destruct (decide (i = k ∧ j = m)) as [[-> ->]|Hne].
      * rewrite decide_True by by left.
        unfold sample_distance. by rewrite Ha, Hb.
      * rewrite decide_False; [done|].
        intros [[= -> ->]|?]%elem_of_cons; [by apply Hne|done].
Qed.

(** Whatever the metric, [_gen_distance_matrix] returns a symmetric
    [n]-by-[n] matrix with a zero diagonal: the metric is only ever called
    on a pair of samples with the lower index first, and both entries of
    the pair hold that one value. *)
Theorem distance_matrix_symmetric_zero_diagonal
    (data_matrix : list (list Qc)) (n : nat) :
  n ≤ length data_matrix →
  ∃ D, _gen_distance_matrix data_matrix n = Some D ∧ shape n n D ∧
    (∀ i, i < n → mget D i i = Some 0%Qc) ∧
    (∀ i j, i < j → j < n →
       mget D i j = sample_distance data_matrix i j ∧
       mget D j i = sample_distance data_matrix i j) ∧
    (∀ i j, mget D i j = mget D j i).
Proof.
  intros Hdata.
  destruct (distance_pairs_filled data_matrix n (upper_pairs n)
              (zeros 0%Qc n n) Hdata (shape_zeros _ _ _))
    as (U & HU & Hshape & Hget).
  { apply Forall_forall. intros [k m] [Hk Hm]%elem_of_upper_pairs. simpl. lia. }
  assert (∀ i j, mget (map2 Qcplus U (transpose U)) i j
                 = a ← mget U i j; b ← mget U j i; Some (a + b)%Qc) as HR.
  { intros i j. rewrite mget_map2. by rewrite (mget_transpose n U j i). }
  assert (∀ i j, i < n → j < n → j ≤ i → mget U i j = Some 0%Qc) as Hlow.
  { intros i j Hi Hj Hji. rewrite Hget.
    rewrite decide_False by (rewrite elem_of_upper_pairs; lia).
    by apply mget_zeros. }
  assert (∀ i j, i < j → j < n → mget U i j = sample_distance data_matrix i j)
    as Hup.
  { intros i j Hij Hj. rewrite Hget.
    by rewrite decide_True by (rewrite elem_of_upper_pairs; lia). }
  exists (map2 Qcplus U (transpose U)). split.
  { unfold _gen_distance_matrix. by rewrite foldM_upper_pairs, HU. }
  split; [by apply shape_map2, shape_transpose|]. split; [|split].
  - intros i Hi. rewrite HR, (Hlow i i) by lia. done.
  - intros i j Hij Hj. rewrite !HR, (Hlow j i), (Hup i j) by lia.
    destruct (sample_distance data_matrix i j) as [d|]; simpl; [|done].
    by rewrite Qcplus_0_r, Qcplus_0_l.
  - intros i j. rewrite !HR.
    destruct (mget U i j) as [a|], (mget U j i) as [b|]; simpl; try done.
    by rewrite Qcplus_comm.
Qed.

End distance_matrix.

(** A metric that is not symmetric, on three one-dimensional samples. *)
Definition example_metric (a b : list Qc) : Qc :=
  foldl Qcplus 0%Qc (zip_with (λ x y, (2 * x - y)%Qc) a b).

Lemma distance_matrix_symmetric_zero_diagonal_witness :
  let data_matrix := [[0%Qc]; [1%Qc]; [Q2Qc 3]] in
  ∃ D, _gen_distance_matrix example_metric data_matrix 3 = Some D ∧
    shape 3 3 D ∧
    (∀ i, i < 3 → mget D i i = Some 0%Qc) ∧
    (∀ i j, i < j → j < 3 →
       mget D i j = sample_distance example_metric data_matrix i j ∧
       mget D j i = sample_distance example_metric data_matrix i j) ∧
    (∀ i j, mget D i j = mget D j i).
Proof.
  intros data_matrix.
  apply (distance_matrix_symmetric_zero_diagonal example_metric data_matrix 3).
  simpl. lia.
Defined.

End Base.

(** ** [min] on tuples, and loops that label every sample *)

Module Builtins.

(** Python's order on tuples [(number, index)]: by the number, then by
    the index. *)
Definition pair_lt (a b : Qc * nat) : Prop :=
  (a.1 < b.1)%Qc ∨ (a.1 = b.1 ∧ a.2 < b.2).

#[global] Instance pair_lt_dec a b : Decision (pair_lt a b).
Proof. unfold pair_lt. apply _. Defined.

(** [min(l)] on a list of such tuples: the first of the least elements;
    [None] is the ValueError on [[]]. *)
Definition py_min_pair (l : list (Qc * nat)) : option (Qc * nat) :=
  match l with
  | [] => None
  | x :: rest => Some (foldl (λ m y, if decide (pair_lt y m) then y else m) x rest)
  end.

Lemma pair_lt_irrefl a : ¬ pair_lt a a.
Proof.
  intros [Hlt|[_ Hlt]]; [|lia].
  by apply (Qcle_not_lt _ _ (Qcle_refl a.1)).
Qed.

Lemma pair_lt_trans a b c : pair_lt a b → pair_lt b c → pair_lt a c.
Proof.
  intros [Hab|[Hab Hab']] [Hbc|[Hbc Hbc']].
  - left. by eapply Qclt_trans.
  - left. by rewrite <- Hbc.
  - left. by rewrite Hab.
  - right. split; [congruence|lia].
Qed.

Lemma not_pair_lt a b : ¬ pair_lt a b → a = b ∨ pair_lt b a.
Proof.
  intros Hnlt. destruct a as [x i], b as [y j]. unfold pair_lt in *. simpl in *.
  destruct (Qclt_le_dec x y) as [Hlt|Hle]; [destruct Hnlt; by left|].
  apply Qcle_lt_or_eq in Hle as [Hlt|Heq]; [right; by left|]. subst.
  destruct (decide (i = j)) as [->|Hne]; [by left|].
  destruct (decide (i < j)); [destruct Hnlt; by right|].
  right. right. split; [done|lia].
Qed.

Lemma fold_min_pair_spec (rest : list (Qc * nat)) (x : Qc * nat) :
  let m := foldl (λ m y, if decide (pair_lt y m) then y else m) x rest in
  m ∈ x :: rest ∧ ∀ y, y ∈ x :: rest → ¬ pair_lt y m.
Proof.
  revert x. induction rest as [|z rest IH]; intros x; simpl.
  - split; [by left|]. intros y ->%list_elem_of_singleton. apply pair_lt_irrefl.
  - destruct (decide (pair_lt z x)) as [Hlt|Hge].
    + destruct (IH z) as [Hin Hmin]. split; [by right|].
      intros y [->|Hy]%elem_of_cons; [|by apply Hmin].
      intros Hx. apply (Hmin z); [by left|]. by eapply pair_lt_trans.
    + destruct (IH x) as [Hin Hmin]. split.
      * apply elem_of_cons in Hin as [->|Hin]; [by left|]. by right; right.
      * intros y [->|[->|Hy]%elem_of_cons]%elem_of_cons.
        -- apply Hmin. by left.
        -- intros Hz. apply not_pair_lt in Hge as [->|Hxz].
           ++ apply (Hmin x); [by left|done].
           ++ apply (Hmin x); [by left|]. by eapply pair_lt_trans.
        -- apply Hmin. by right.
Qed.

(** [min] returns an element of the list that no element is below: its
    number is the least, and among the tuples with that number its index
    is the least. *)
Lemma py_min_pair_spec (l : list (Qc * nat)) (m : Qc * nat) :
  py_min_pair l = Some m →
  m ∈ l ∧ ∀ y, y ∈ l → (m.1 ≤ y.1)%Qc ∧ (m.1 = y.1 → m.2 ≤ y.2).
Proof.
  destruct l as [|x rest]; [done|]. simpl. intros [= Hm].
  destruct (fold_min_pair_spec rest x) as [Hin Hmin]. simpl in *.
  rewrite Hm in Hin, Hmin. clear Hm.
  split; [done|]. intros y Hy. specialize (Hmin y Hy).
  unfold pair_lt in Hmin. split.
  - apply Qcnot_lt_le. intros Hlt. apply Hmin. by left.
  - intros Heq. destruct (decide (y.2 < m.2)); [|lia].
    destruct Hmin. by right.
Qed.

Lemma py_min_pair_is_Some (l : list (Qc * nat)) : l ≠ [] → is_Some (py_min_pair l).
Proof. destruct l; [done|]. by eexists. Qed.

(** [for j in xrange(n): dp[j] = f(j)], where computing [f(j)] may raise:
    when the loop ends, the first [n] entries are the values computed and
    the others are untouched. *)
Lemma foldM_set_each {A} (f : nat → option A) (n : nat) (dp dp' : list A) :
  foldM (λ dp j, v ← f j; py_set dp j v) dp (xrange 0 n) = Some dp' →
  length dp' = length dp ∧ n ≤ length dp ∧
  (∀ j, j < n → ∃ v, f j = Some v ∧ dp' !! j = Some v) ∧
  (∀ j, n ≤ j → dp' !! j = dp !! j).
Proof.
  revert dp'. induction n as [|n IH]; intros dp'.
  - intros [= <-]. split; [done|]. split; [lia|]. split; [lia|done].
  - unfold xrange in *. rewrite Nat.sub_0_r in *. rewrite seq_S, foldM_app.
    destruct (foldM _ dp (seq 0 n)) as [dp1|]; simpl; [|done].
    destruct (IH dp1 eq_refl) as (Hlen & Hn & Hset & Hrest).
    destruct (f n) as [v|] eqn:Hv; simpl; [|done].
    unfold py_set. case_decide as Hlt; simpl; [|done]. intros [= <-].
    split; [by rewrite length_insert|]. split; [lia|]. split.
    + intros j Hj. destruct (decide (j = n)) as [->|Hne].
      * exists v. split; [done|]. by rewrite list_lookup_insert_eq.
      * rewrite list_lookup_insert_ne by done. apply Hset. lia.
    + intros j Hj. rewrite list_lookup_insert_ne by lia. apply Hrest. lia.
Qed.

Lemma foldM_set_each_is_Some {A} (f : nat → option A) (n : nat) (dp : list A) :
  n ≤ length dp → (∀ j, j < n → is_Some (f j)) →
  is_Some (foldM (λ dp j, v ← f j; py_set dp j v) dp (xrange 0 n)).
Proof.
  intros Hn Hf.
  destruct (foldM_total (λ dp', length dp' = length dp)
              (λ dp j, v ← f j; py_set dp j v) (xrange 0 n)) with (s := dp)
    as (dp' & -> & _); [|done|by eexists].
  intros s j Hj Hs. unfold xrange in Hj. apply elem_of_seq in Hj.
  destruct (Hf j) as [v ->]; [lia|]. simpl. unfold py_set.
  rewrite decide_True by lia. eexists. split; [done|].
  by rewrite length_insert.
Qed.

End Builtins.

(** ** ConsensusCluster: subsampling rounds and co-occurrence counters *)

Module Consensus.

Section accounting.
Context {label linkage : Type} `{EqDecision label}.

(** What [run_clustering] knows of a base algorithm: called on the samples
    of [dataset], it either raises or overwrites their [cluster_id]s.  The
    function maps the labels the samples carry at the call to the labels
    they carry after it; the data matrix, K and the metric are closed
    over, and the random draws of the call are part of the function. *)
Definition algorithm : Type := list (option label) → option (list (option label)).

(** An entry of [clustering_algs]: [HierarchicalCluster], which is run once
    per configured linkage, or any other class. *)
Inductive clustering_alg : Type :=
  | Hierarchical (cluster : linkage → algorithm)
  | Other (cluster : algorithm).

(** The fields of a [ConsensusCluster] object that the rounds touch.
    [datapoints] lists the [cluster_id] of every sample of [sdata.samples]. *)
Record state : Type := State {
  datapoints : list (option label);
  sim_matrix_clustcount : list (list Z);
  sim_matrix_totalcount : list (list Z)
}.

(** [__init__]: both counters start as [numpy.zeros((dim, dim))]. *)
Definition initial (samples : list (option label)) : state :=
  let dim := length samples in
  {| datapoints := samples;
     sim_matrix_clustcount := zeros 0%Z dim dim;
     sim_matrix_totalcount := zeros 0%Z dim dim |}.

(** [_reset_clusters] *)
Definition _reset_clusters (st : state) : state :=
  {| datapoints :=
       foldl (λ dp i, <[i := None]> dp) (datapoints st)
             (xrange 0 (length (datapoints st)));
     sim_matrix_clustcount := sim_matrix_clustcount st;
     sim_matrix_totalcount := sim_matrix_totalcount st |}.

(** [M[k][m] += 1] *)
Definition incr (M : list (list Z)) (k m : nat) : option (list (list Z)) :=
  v ← mget M k m; mset M k m (v + 1)%Z.

(** The body of the inner loop of [upd_similarity_matrix] at [(k, m)]. *)
Definition upd_pair (dp : list (option label))
    (c : list (list Z) * list (list Z)) (km : nat * nat)
  : option (list (list Z) * list (list Z)) :=
  let '(clustcount, totalcount) := c in
  let '(k, m) := km in
  k_id ← dp !! k;
  m_id ← dp !! m;
  match k_id, m_id with
  | Some a, Some b =>
      clustcount' ← (if decide (a = b) then incr clustcount k m
                     else Some clustcount);
      totalcount' ← incr totalcount k m;
      Some (clustcount', totalcount')
  | _, _ => Some (clustcount, totalcount)
  end.

(** [upd_similarity_matrix] *)
Definition upd_similarity_matrix (st : state) : option state :=
  let num_samples := length (datapoints st) in
  c ← foldM (λ c i,
         foldM (λ c j, upd_pair (datapoints st) c (i, i + j))
               c (xrange 1 (num_samples - i)))
       (sim_matrix_clustcount st, sim_matrix_totalcount st)
       (xrange 0 num_samples);
  Some {| datapoints := datapoints st;
          sim_matrix_clustcount := c.1;
          sim_matrix_totalcount := c.2 |}.

(** The call [alg(dataset, data_matrix, ...)]: the algorithm reads and
    writes the samples of [dataset], which are objects of [datapoints]. *)
Definition call_alg (alg : algorithm) (dataset : list nat)
    (dp : list (option label)) : option (list (option label)) :=
  ids ← mapM (λ i, dp !! i) dataset;
  ids' ← alg ids;
  Some (foldl (λ dp ic, <[ic.1 := ic.2]> dp) dp (zip dataset ids')).

(** The local function [run] of [run_clustering]. *)
Definition run (dataset : list nat) (st : state) (alg : algorithm) : option state :=
  dp ← call_alg alg dataset (datapoints st);
  st' ← upd_similarity_matrix
          {| datapoints := dp;
             sim_matrix_clustcount := sim_matrix_clustcount st;
             sim_matrix_totalcount := sim_matrix_totalcount st |};
  Some (_reset_clusters st').

(** [run_clustering], for the [dataset] that [_gen_dataset] drew. *)
Definition run_clustering (clustering_algs : list clustering_alg)
    (linkages : list linkage) (dataset : list nat) (st : state) : option state :=
  foldM (λ st alg,
    match alg with
    | Hierarchical cluster =>
        foldM (λ st linkage, run dataset st (cluster linkage)) st linkages
    | Other cluster => run dataset st cluster
    end) st clustering_algs.

(** One subsampling round: what [_gen_dataset] drew and how each configured
    algorithm behaves in this round. *)
Record round : Type := Round {
  dataset : list nat;
  clustering_algs : list clustering_alg
}.

(** The loop [for i in xrange(1, len(local_subsamples) + 1)] of [__init__]. *)
Definition subsample_rounds (linkages : list linkage) (rounds : list round)
    (st : state) : option state :=
  foldM (λ st r, run_clustering (clustering_algs r) linkages (dataset r) st)
        st rounds.

(** The calls of [run] that one [run_clustering] makes, in order. *)
Definition scheduled (algs : list clustering_alg) (linkages : list linkage)
  : list algorithm :=
  alg ← algs;
  match alg with
  | Hierarchical cluster => cluster <$> linkages
  | Other cluster => [cluster]
  end.

(** The invariant of the two counters of an [n]-sample run. *)
Definition counters_inv (n : nat) (clustcount totalcount : list (list Z)) : Prop :=
  shape n n clustcount ∧ shape n n totalcount ∧
  ∀ i j c t,
    mget clustcount i j = Some c → mget totalcount i j = Some t →
    (0 ≤ c ≤ t)%Z ∧ (j ≤ i → c = 0%Z ∧ t = 0%Z).

(** *** The counters *)

Lemma incr_is_Some n M k m :
  shape n n M → k < n → m < n → is_Some (incr M k m).
Proof.
  intros HM Hk Hm. unfold incr.
  destruct (mget_is_Some n n M k m) as [v ->]; [done..|]. simpl.
  by eapply mset_is_Some.
Qed.

Lemma incr_shape n M k m M' : shape n n M → incr M k m = Some M' → shape n n M'.
Proof.
  unfold incr. intros HM. destruct (mget M k m); simpl; [|done].
  by apply mset_shape.
Qed.

Lemma mget_incr M k m M' a b :
  incr M k m = Some M' →
  mget M' a b = if decide (a = k ∧ b = m) then (λ v, v + 1)%Z <$> mget M k m
                else mget M a b.
Proof.
  unfold incr. destruct (mget M k m) as [v|] eqn:Hv; simpl; [|done].
  intros HM'. rewrite (mget_mset _ _ _ _ _ a b HM').
  case_decide as Hab; [|done]. done.
Qed.

Lemma counters_inv_zeros n : counters_inv n (zeros 0%Z n n) (zeros 0%Z n n).
Proof.
  split; [apply shape_zeros|]. split; [apply shape_zeros|].
  intros i j c t Hc Ht.
  destruct (mget_Some_lt _ _ _ _ _ _ (shape_zeros 0%Z n n) Hc) as [Hi Hj].
  rewrite mget_zeros in Hc, Ht by done.
  injection Hc as <-. injection Ht as <-. lia.
Qed.

Lemma upd_pair_inv n dp c km c' :
  counters_inv n c.1 c.2 → km.1 < km.2 →
  upd_pair dp c km = Some c' → counters_inv n c'.1 c'.2.
Proof.
  destruct c as [cc tc], km as [k m], c' as [cc' tc']. simpl.
  intros (Hcc & Htc & Hinv) Hkm. unfold upd_pair.
  destruct (dp !! k) as [k_id|]; simpl; [|done].
  destruct (dp !! m) as [m_id|]; simpl; [|done].
  destruct k_id as [a|], m_id as [b|]; 
    try (intros [= <- <-]; exact (conj Hcc (conj Htc Hinv))).
  destruct (decide (a = b)) as [_|_].
  - destruct (incr cc k m) as [cc1|] eqn:Hcc1; simpl; [|done].
    destruct (incr tc k m) as [tc1|] eqn:Htc1; simpl; [|done].
    intros [= <- <-].
    split; [exact (incr_shape _ _ _ _ _ Hcc Hcc1)|].
    split; [exact (incr_shape _ _ _ _ _ Htc Htc1)|].
    intros i j c t. rewrite (mget_incr _ _ _ _ i j Hcc1), (mget_incr _ _ _ _ i j Htc1).
    case_decide as Hij.
    + destruct Hij as [-> ->].
      destruct (mget cc k m) as [c0|] eqn:Hc0; simpl; [|done].
      destruct (mget tc k m) as [t0|] eqn:Ht0; simpl; [|done].
      intros [= <-] [= <-]. destruct (Hinv k m c0 t0) as [? _]; [done..|]. lia.
    + apply Hinv.
  - destruct (incr tc k m) as [tc1|] eqn:Htc1; simpl; [|done].
    intros [= <- <-]. split; [done|].
    split; [exact (incr_shape _ _ _ _ _ Htc Htc1)|].
    intros i j c t. rewrite (mget_incr _ _ _ _ i j Htc1).
    case_decide as Hij.
    + destruct Hij as [-> ->].
      destruct (mget tc k m) as [t0|] eqn:Ht0; simpl; [|done].
      intros Hc [= <-]. destruct (Hinv k m c t0) as [? _]; [done..|]. lia.
    + apply Hinv.
Qed.

Lemma upd_pair_is_Some n dp c k m :
  counters_inv n c.1 c.2 → length dp = n → k < n → m < n →
  is_Some (upd_pair dp c (k, m)).
Proof.
  destruct c as [cc tc]. simpl. intros (Hcc & Htc & _) Hdp Hk Hm. unfold upd_pair.
  destruct (lookup_lt_is_Some_2 dp k) as [k_id ->]; [lia|].
  destruct (lookup_lt_is_Some_2 dp m) as [m_id ->]; [lia|]. simpl.
  destruct k_id as [a|], m_id as [b|]; try by eexists.
  destruct (incr_is_Some n tc k m) as [tc1 Htc1]; [done..|].
  destruct (decide (a = b)).
  - destruct (incr_is_Some n cc k m) as [cc1 ->]; [done..|]. simpl.
    rewrite Htc1. by eexists.
  - simpl. rewrite Htc1. by eexists.
Qed.

(** Any number of iterations of the loops of [upd_similarity_matrix]
    keeps the invariant. *)
Lemma upd_pairs_inv n dp p c c' :
  counters_inv n c.1 c.2 →
  foldM (upd_pair dp) c (take p (upper_pairs n)) = Some c' →
  counters_inv n c'.1 c'.2.
Proof.
  apply (foldM_invariant (λ c, counters_inv n c.1 c.2)).
  intros s [k m] s' Hin Hs. apply upd_pair_inv; [done|]. simpl.
  apply subseteq_take in Hin. by apply elem_of_upper_pairs in Hin as [? _].
Qed.

Lemma upd_pairs_is_Some n dp c :
  counters_inv n c.1 c.2 → length dp = n →
  ∃ c', foldM (upd_pair dp) c (upper_pairs n) = Some c' ∧ counters_inv n c'.1 c'.2.
Proof.
  intros Hc Hdp. apply (foldM_total (λ c, counters_inv n c.1 c.2)); [|done].
  intros s [k m] Hin Hs. apply elem_of_upper_pairs in Hin as [Hkm Hm].
  destruct (upd_pair_is_Some n dp s k m) as [s' Hs']; [done|done|lia|done|].
  exists s'. split; [done|]. by apply (upd_pair_inv n dp s (k, m)).
Qed.

Lemma upd_similarity_matrix_pairs st :
  upd_similarity_matrix st =
  c ← foldM (upd_pair (datapoints st))
        (sim_matrix_clustcount st, sim_matrix_totalcount st)
        (upper_pairs (length (datapoints st)));
  Some {| datapoints := datapoints st;
          sim_matrix_clustcount := c.1;
          sim_matrix_totalcount := c.2 |}.
Proof. unfold upd_similarity_matrix. by rewrite foldM_upper_pairs. Qed.

(** *** Labels *)

Lemma reset_prefix (dp : list (option label)) k :
  k ≤ length dp →
  foldl (λ dp i, <[i := None]> dp) dp (xrange 0 k) = replicate k None ++ drop k dp.
Proof.
  unfold xrange. rewrite Nat.sub_0_r. induction k as [|k IH]; intros Hk; [done|].
  rewrite seq_S, foldl_snoc, IH, replicate_S_end by lia.
  destruct (lookup_lt_is_Some_2 dp k) as [x Hx]; [lia|].
  rewrite (drop_S _ _ _ Hx), <- app_assoc, Nat.add_0_l.
  rewrite insert_app_r_alt by (rewrite length_replicate; lia).
  by rewrite length_replicate, Nat.sub_diag.
Qed.

Lemma reset_datapoints (st : state) :
  datapoints (_reset_clusters st) = replicate (length (datapoints st)) None.
Proof.
  simpl. rewrite reset_prefix by done. by rewrite drop_all, app_nil_r.
Qed.

Lemma writes_length (dp : list (option label)) (ws : list (nat * option label)) :
  length (foldl (λ dp ic, <[ic.1 := ic.2]> dp) dp ws) = length dp.
Proof.
  revert dp. induction ws as [|w ws IH]; intros dp; simpl; [done|].
  by rewrite IH, length_insert.
Qed.

Lemma call_alg_length alg ds (dp dp' : list (option label)) :
  call_alg alg ds dp = Some dp' → length dp' = length dp.
Proof.
  unfold call_alg. destruct (mapM _ ds) as [ids|]; simpl; [|done].
  destruct (alg ids) as [ids'|]; simpl; [|done].
  intros [= <-]. apply writes_length.
Qed.

(** *** Runs *)

(** What holds of a [ConsensusCluster] between two calls of [run]. *)
Definition state_inv (n : nat) (st : state) : Prop :=
  length (datapoints st) = n ∧
  counters_inv n (sim_matrix_clustcount st) (sim_matrix_totalcount st).

Lemma state_inv_initial samples : state_inv (length samples) (initial samples).
Proof. split; [done|]. apply counters_inv_zeros. Qed.

Lemma run_inv n ds st alg st' :
  state_inv n st → run ds st alg = Some st' →
  state_inv n st' ∧ datapoints st' = replicate n None.
Proof.
  intros [Hlen Hinv]. unfold run.
  destruct (call_alg alg ds (datapoints st)) as [dp|] eqn:Hdp; simpl; [|done].
  apply call_alg_length in Hdp. rewrite upd_similarity_matrix_pairs. simpl.
  destruct (foldM _ _ _) as [c|] eqn:Hc; simpl; [|done].
  intros [= <-]. unfold state_inv. rewrite reset_datapoints. simpl.
  assert (length dp = n) as Hn by congruence. rewrite Hn in *.
  split; [|done]. split; [by rewrite length_replicate|].
  rewrite <- (take_ge (upper_pairs n) (length (upper_pairs n))) in Hc by done.
  by apply (upd_pairs_inv n dp _ _ c) in Hc.
Qed.

Lemma runs_inv n ds algs st st' :
  state_inv n st → foldM (run ds) st algs = Some st' →
  state_inv n st' ∧
  (Forall (λ c, c = None) (datapoints st) → Forall (λ c, c = None) (datapoints st')).
Proof.
  revert st. induction algs as [|alg algs IH]; intros st Hst; simpl.
  - by intros [= <-].
  - destruct (run ds st alg) as [st1|] eqn:Hrun; simpl; [|done].
    destruct (run_inv _ _ _ _ _ Hst Hrun) as [Hst1 Hdp]. intros Hrest.
    destruct (IH _ Hst1 Hrest) as [Hst' Hnone]. split; [done|].
    intros _. apply Hnone. rewrite Hdp. by apply Forall_replicate.
Qed.

Lemma run_clustering_scheduled algs linkages ds st :
  run_clustering algs linkages ds st = foldM (run ds) st (scheduled algs linkages).
Proof.
  unfold run_clustering, scheduled. rewrite foldM_bind. apply foldM_ext.
  intros s [cluster|cluster]; [by rewrite foldM_fmap|].
  simpl. by destruct (run ds s cluster).
Qed.

Lemma subsample_rounds_inv n linkages rounds st st' :
  state_inv n st → subsample_rounds linkages rounds st = Some st' →
  state_inv n st' ∧
  (Forall (λ c, c = None) (datapoints st) → Forall (λ c, c = None) (datapoints st')).
Proof.
  unfold subsample_rounds. revert st.
  induction rounds as [|r rounds IH]; intros st Hst; simpl.
  - by intros [= <-].
  - rewrite run_clustering_scheduled.
    destruct (foldM (run (dataset r)) st _) as [st1|] eqn:Hr; simpl; [|done].
    destruct (runs_inv _ _ _ _ _ Hst Hr) as [Hst1 Hnone1]. intros Hrest.
    destruct (IH _ Hst1 Hrest) as [Hst' Hnone]. split; [done|]. tauto.
Qed.

Lemma run_is_Some n ds st alg ids :
  state_inv n st → Forall (λ i, i < n) ds →
  alg (default [] (mapM (λ i, datapoints st !! i) ds)) = Some ids →
  is_Some (run ds st alg).
Proof.
  intros [Hlen Hinv] Hds Halg. unfold run, call_alg.
  assert (is_Some (mapM (λ i, datapoints st !! i) ds)) as [cur Hcur].
  { apply mapM_is_Some. eapply Forall_impl; [exact Hds|].
    intros i Hi. apply lookup_lt_is_Some_2. by rewrite Hlen. }
  rewrite Hcur in Halg |- *. simpl in Halg |- *. rewrite Halg. simpl.
  rewrite upd_similarity_matrix_pairs. simpl.
  rewrite writes_length, Hlen.
  destruct (upd_pairs_is_Some n
    (foldl (λ dp ic, <[ic.1 := ic.2]> dp) (datapoints st) (zip ds ids))
    (sim_matrix_clustcount st, sim_matrix_totalcount st)) as (c & -> & _);
    [done | by rewrite writes_length |]. by eexists.
Qed.

(** *** The claims about the rounds *)

(** C10.  Take the counters at any point of the rounds: after any number
    of complete rounds, then any number [q] of complete runs of the round
    in progress, then any number [p] of iterations of the loops of the
    [upd_similarity_matrix] in progress (whatever labels [dp] the samples
    carry).  Both matrices are [n]-by-[n], every entry satisfies
    [0 <= clustcount[i][j] <= totalcount[i][j]], and every entry on or
    below the diagonal is zero in both. *)
Theorem counters_bounded_and_upper_triangular
    (samples : list (option label)) (linkages : list linkage)
    (rounds : list round) (st : state)
    (algs : list clustering_alg) (ds : list nat) (q : nat) (st1 : state)
    (dp : list (option label)) (p : nat) (c : list (list Z) * list (list Z)) :
  subsample_rounds linkages rounds (initial samples) = Some st →
  foldM (run ds) st (take q (scheduled algs linkages)) = Some st1 →
  foldM (upd_pair dp) (sim_matrix_clustcount st1, sim_matrix_totalcount st1)
        (take p (upper_pairs (length samples))) = Some c →
  ∀ i j, i < length samples → j < length samples →
    ∃ cij tij, mget c.1 i j = Some cij ∧ mget c.2 i j = Some tij ∧
      (0 ≤ cij ≤ tij)%Z ∧ (j ≤ i → cij = 0%Z ∧ tij = 0%Z).
Proof.
  intros Hrounds Hruns Hupd i j Hi Hj.
  destruct (subsample_rounds_inv _ _ _ _ _ (state_inv_initial samples) Hrounds)
    as [Hst _].
  destruct (runs_inv _ _ _ _ _ Hst Hruns) as [[_ Hst1] _].
  pose proof (upd_pairs_inv _ dp p (_, _) c Hst1 Hupd) as (Hcc & Htc & Hbound).
  destruct (mget_is_Some _ _ _ i j Hcc Hi Hj) as [cij Hcij].
  destruct (mget_is_Some _ _ _ i j Htc Hi Hj) as [tij Htij].
  exists cij, tij. split; [done|]. split; [done|]. by apply Hbound.
Qed.

(** C7.  Every call of [run] ends with all labels null, whatever they
    were before it, and it resets them only after the counters have been
    updated from the labels the algorithm wrote.  Hence, when the samples
    enter the rounds unlabelled, every run of every round starts with all
    labels null. *)
Theorem labels_null_at_every_run
    (samples : list (option label)) (linkages : list linkage)
    (rounds : list round) (st : state)
    (algs : list clustering_alg) (ds : list nat) (q : nat) (st1 : state) :
  subsample_rounds linkages rounds (initial samples) = Some st →
  foldM (run ds) st (take q (scheduled algs linkages)) = Some st1 →
  (∀ alg st2, run ds st1 alg = Some st2 →
     datapoints st2 = replicate (length samples) None ∧
     ∃ dp st', call_alg alg ds (datapoints st1) = Some dp ∧
       upd_similarity_matrix
         {| datapoints := dp;
            sim_matrix_clustcount := sim_matrix_clustcount st1;
            sim_matrix_totalcount := sim_matrix_totalcount st1 |} = Some st' ∧
       st2 = _reset_clusters st') ∧
  (Forall (λ c, c = None) samples →
     datapoints st1 = replicate (length samples) None).
Proof.
  intros Hrounds Hruns.
  destruct (subsample_rounds_inv _ _ _ _ _ (state_inv_initial samples) Hrounds)
    as [Hst Hnone].
  destruct (runs_inv _ _ _ _ _ Hst Hruns) as [Hst1 Hnone1]. split.
  - intros alg st2 Hrun. split; [by destruct (run_inv _ _ _ _ _ Hst1 Hrun)|].
    unfold run in Hrun.
    destruct (call_alg alg ds (datapoints st1)) as [dp|]; simpl in Hrun; [|done].
    destruct (upd_similarity_matrix _) as [st'|] eqn:Hupd; simpl in Hrun; [|done].
    exists dp, st'. by injection Hrun as <-.
  - intros Hsamples. specialize (Hnone1 (Hnone Hsamples)).
    destruct Hst1 as [Hlen _]. rewrite <- Hlen. clear -Hnone1.
    induction Hnone1 as [|c dp -> _ IH]; simpl; [done|]. by rewrite <- IH.
Qed.

End accounting.

(** *** The theorems at a concrete run

    Three unlabelled samples.  A first round clusters all of them into
    [{0, 1}] and [{2}].  In the round in progress, on the subsample
    [[2; 0]], one hierarchical run puts both of its samples together. *)

Definition example_samples : list (option nat) := [None; None; None].

Definition example_rounds : list (@round nat unit) :=
  [ {| dataset := [0; 1; 2];
       clustering_algs := [Other (λ _, Some [Some 0; Some 0; Some 1])] |} ].

Definition example_algs : list (@clustering_alg nat unit) :=
  [ Hierarchical (λ _ _, Some [Some 5; Some 5]) ].

Definition example_after_round : @state nat :=
  {| datapoints := [None; None; None];
     sim_matrix_clustcount := [[0; 1; 0]; [0; 0; 0]; [0; 0; 0]]%Z;
     sim_matrix_totalcount := [[0; 1; 1]; [0; 0; 1]; [0; 0; 0]]%Z |}.

Definition example_after_run : @state nat :=
  {| datapoints := [None; None; None];
     sim_matrix_clustcount := [[0; 1; 1]; [0; 0; 0]; [0; 0; 0]]%Z;
     sim_matrix_totalcount := [[0; 1; 2]; [0; 0; 1]; [0; 0; 0]]%Z |}.

Lemma counters_bounded_and_upper_triangular_witness :
  subsample_rounds [()] example_rounds (initial example_samples)
    = Some example_after_round ∧
  foldM (run [2; 0]) example_after_round (take 1 (scheduled example_algs [()]))
    = Some example_after_run ∧
  foldM (upd_pair [Some 1; Some 2; Some 1])
        (sim_matrix_clustcount example_after_run,
         sim_matrix_totalcount example_after_run)
        (take 2 (upper_pairs (length example_samples)))
    = Some ([[0; 1; 2]; [0; 0; 0]; [0; 0; 0]]%Z,
            [[0; 2; 3]; [0; 0; 1]; [0; 0; 0]]%Z) ∧
  ∃ cij tij,
    mget [[0; 1; 2]; [0; 0; 0]; [0; 0; 0]]%Z 0 2 = Some cij ∧
    mget [[0; 2; 3]; [0; 0; 1]; [0; 0; 0]]%Z 0 2 = Some tij ∧
    (0 ≤ cij ≤ tij)%Z ∧ (2 ≤ 0 → cij = 0%Z ∧ tij = 0%Z).
Proof.
  split; [reflexivity|]. split; [reflexivity|]. split; [reflexivity|].
  apply (counters_bounded_and_upper_triangular
           example_samples [()] example_rounds example_after_round
           example_algs [2; 0] 1 example_after_run
           [Some 1; Some 2; Some 1] 2
           ([[0; 1; 2]; [0; 0; 0]; [0; 0; 0]]%Z,
            [[0; 2; 3]; [0; 0; 1]; [0; 0; 0]]%Z));
    [reflexivity | reflexivity | reflexivity | simpl; lia | simpl; lia].
Defined.

Lemma labels_null_at_every_run_witness :
  subsample_rounds [()] example_rounds (initial example_samples)
    = Some example_after_round ∧
  foldM (run [2; 0]) example_after_round (take 1 (scheduled example_algs [()]))
    = Some example_after_run ∧
  (∀ alg st2, run [2; 0] example_after_run alg = Some st2 →
     datapoints st2 = replicate (length example_samples) None ∧
     ∃ dp st', call_alg alg [2; 0] (datapoints example_after_run) = Some dp ∧
       upd_similarity_matrix
         {| datapoints := dp;
            sim_matrix_clustcount := sim_matrix_clustcount example_after_run;
            sim_matrix_totalcount := sim_matrix_totalcount example_after_run |}
         = Some st' ∧
       st2 = _reset_clusters st') ∧
  (Forall (λ c, c = None) example_samples →
     datapoints example_after_run = replicate (length example_samples) None).
Proof.
  split; [reflexivity|]. split; [reflexivity|].
  apply (labels_null_at_every_run
           example_samples [()] example_rounds example_after_round
           example_algs [2; 0] 1 example_after_run);
    reflexivity.
Defined.

(** *** The consensus matrix *)

(** [sum(matrices)] on a list of arrays: Python starts from the int [0],
    and [0 + M] is [M]. *)
Definition np_sum (matrices : list (list (list Z))) : Z + list (list Z) :=
  match matrices with
  | [] => inl 0%Z
  | M :: rest => inr (foldl (map2 Z.add) M rest)
  end.

(** [s[k][m]] on the result of [sum]: an int cannot be indexed. *)
Definition index2 (s : Z + list (list Z)) (k m : nat) : option Z :=
  match s with
  | inl _ => None
  | inr M => mget M k m
  end.

(** The body of the inner loop of [gen_consensus_matrix] at [(k, m)]. *)
Definition consensus_pair (final_matrix_clustcount final_matrix_totalcount : Z + list (list Z))
    (thresh : Qc) (consensus_matrix : list (list Qc)) (km : nat * nat)
  : option (list (list Qc)) :=
  let '(k, m) := km in
  t ← index2 final_matrix_totalcount k m;
  if decide (t ≠ 0%Z) then
    c ← index2 final_matrix_clustcount k m;
    consensus_matrix ← mset consensus_matrix k m (Qc_of_Z c / Qc_of_Z t)%Qc;
    v ← mget consensus_matrix k m;
    if decide (v < thresh)%Qc then mset consensus_matrix k m 0%Qc
    else Some consensus_matrix
  else Some consensus_matrix.

(** [gen_consensus_matrix]; [consensus_matrix] and [matrix_thresh] are the
    fields of [self] it reads, [num_samples] is [len(self.datapoints)]. *)
Definition gen_consensus_matrix (num_samples : nat)
    (consensus_matrix : list (list Qc)) (matrix_thresh : Qc)
    (clustcount_matrices totalcount_matrices : list (list (list Z)))
  : option (list (list Qc)) :=
  let final_matrix_clustcount := np_sum clustcount_matrices in
  let final_matrix_totalcount := np_sum totalcount_matrices in
  consensus_matrix ←
    foldM (λ C i,
      foldM (λ C j,
               consensus_pair final_matrix_clustcount final_matrix_totalcount
                              matrix_thresh C (i, i + j))
            C (xrange 1 (num_samples - i)))
      consensus_matrix (xrange 0 num_samples);
  Some (map2 Qcplus consensus_matrix (transpose consensus_matrix)).

(** The entry the specification asks for, from the two summed counts:
    the ratio where [totalCount > 0], else 0, and 0 when the ratio is
    below the threshold. *)
Definition consensus_entry (thresh : Qc) (clusterCount totalCount : Z) : Qc :=
  if decide (0 < totalCount)%Z then
    let ratio := (Qc_of_Z clusterCount / Qc_of_Z totalCount)%Qc in
    if decide (ratio < thresh)%Qc then 0%Qc else ratio
  else 0%Qc.

Lemma counters_inv_add n a b a' b' :
  counters_inv n a b → counters_inv n a' b' →
  counters_inv n (map2 Z.add a a') (map2 Z.add b b').
Proof.
  intros (Ha & Hb & Hab) (Ha' & Hb' & Hab').
  split; [by apply shape_map2|]. split; [by apply shape_map2|].
  intros i j c t. rewrite !mget_map2.
  destruct (mget a i j) as [x|] eqn:Hx; simpl; [|done].
  destruct (mget a' i j) as [x'|] eqn:Hx'; simpl; [|done].
  destruct (mget b i j) as [y|] eqn:Hy; simpl; [|done].
  destruct (mget b' i j) as [y'|] eqn:Hy'; simpl; [|done].
  intros [= <-] [= <-].
  destruct (Hab i j x y) as [? ?]; [done..|].
  destruct (Hab' i j x' y') as [? ?]; [done..|]. lia.
Qed.

Lemma np_sum_inv n ccs tcs :
  ccs ≠ [] → Forall2 (counters_inv n) ccs tcs →
  ∃ fc ft, np_sum ccs = inr fc ∧ np_sum tcs = inr ft ∧ counters_inv n fc ft.
Proof.
  intros Hne Hall. destruct Hall as [|cc tc ccs tcs H0 Hall]; [done|]. clear Hne.
  simpl. exists (foldl (map2 Z.add) cc ccs), (foldl (map2 Z.add) tc tcs).
  split; [done|]. split; [done|].
  revert cc tc H0. induction Hall as [|cc' tc' ccs tcs H1 Hall IH];
    intros cc tc H0; simpl; [done|].
  apply IH. by apply counters_inv_add.
Qed.

Lemma consensus_entry_range thresh c t :
  (0 ≤ c ≤ t)%Z → (0 ≤ consensus_entry thresh c t ≤ 1)%Qc.
Proof.
  intros Hct. unfold consensus_entry.
  destruct (decide (0 < t)%Z) as [Ht|_]; [|by compute].
  case_decide; [by compute|].
  assert (0 < Qc_of_Z t)%Qc as Htq.
  { rewrite <- Z2Qc_inj_0. by apply (proj1 (Z2Qc_inj_lt 0 t)). }
  assert (0 ≤ Qc_of_Z c)%Qc as Hcq.
  { rewrite <- Z2Qc_inj_0. apply (proj1 (Z2Qc_inj_le 0 c)). lia. }
  assert (Qc_of_Z c ≤ Qc_of_Z t)%Qc as Hle.
  { apply (proj1 (Z2Qc_inj_le c t)). lia. }
  unfold Qcdiv. split.
  - apply Qcmult_nonneg_nonneg; [done|]. apply Qclt_le_weak. by apply Qcinv_pos.
  - rewrite <- (Qcmult_inv_r (Qc_of_Z t)).
    + apply Qcmult_le_mono_nonneg_r; [|done].
      apply Qclt_le_weak. by apply Qcinv_pos.
    + intros Heq. rewrite Heq in Htq. by apply Qclt_not_eq in Htq.
Qed.

Section consensus_loop.
Context (n : nat) (thresh : Qc) (fc ft : list (list Z)).
Hypothesis Hcounters : counters_inv n fc ft.

(** Entry [(i, j)] of [C] is the entry the specification asks for. *)
Definition settled (C : list (list Qc)) (ij : nat * nat) : Prop :=
  ∃ c t, mget fc ij.1 ij.2 = Some c ∧ mget ft ij.1 ij.2 = Some t ∧
         mget C ij.1 ij.2 = Some (consensus_entry thresh c t).

(** The loop invariant: a square array whose entries are still 0, or are
    settled entries above the diagonal. *)
Definition partial_consensus (C : list (list Qc)) : Prop :=
  shape n n C ∧
  ∀ i j v, mget C i j = Some v → v = 0%Qc ∨ (i < j ∧ settled C (i, j)).

Lemma consensus_pair_step C k m :
  partial_consensus C → k < m → m < n →
  ∃ C', consensus_pair (inr fc) (inr ft) thresh C (k, m) = Some C' ∧
        partial_consensus C' ∧ settled C' (k, m) ∧
        ∀ ij, settled C ij → settled C' ij.
Proof.
  intros [HC Hent] Hkm Hm. destruct Hcounters as (Hfc & Hft & Hbound).
  destruct (mget_is_Some n n fc k m) as [c Hc]; [done|lia|done|].
  destruct (mget_is_Some n n ft k m) as [t Ht]; [done|lia|done|].
  destruct (Hbound k m c t Hc Ht) as [Hct _].
  destruct (mget_is_Some n n C k m) as [v0 Hv0]; [done|lia|done|].
  unfold consensus_pair. simpl. rewrite Ht. simpl.
  destruct (decide (t ≠ 0%Z)) as [Hne|Heq].
  - rewrite Hc. simpl.
    destruct (mset_is_Some n n C k m (Qc_of_Z c / Qc_of_Z t)%Qc)
      as [C1 HC1]; [done|lia|done|].
    rewrite HC1. simpl. rewrite (mget_mset _ _ _ _ _ k m HC1).
    rewrite decide_True by done. simpl.
    pose proof (mset_shape _ _ _ _ _ _ _ HC HC1) as HsC1.
    assert (∃ C', (if decide (Qc_of_Z c / Qc_of_Z t < thresh)%Qc
                   then mset C1 k m 0%Qc else Some C1) = Some C' ∧
                  shape n n C' ∧
                  ∀ a b, mget C' a b =
                    if decide (a = k ∧ b = m)
                    then Some (consensus_entry thresh c t) else mget C a b)
      as (C' & -> & HsC' & HC').
    { unfold consensus_entry. rewrite (decide_True (P := (0 < t)%Z)) by lia.
      destruct (decide (Qc_of_Z c / Qc_of_Z t < thresh)%Qc) as [Hlt|Hge].
      - destruct (mset_is_Some n n C1 k m 0%Qc) as [C2 HC2]; [done|lia|done|].
        exists C2. split; [done|]. split; [by eapply mset_shape|].
        intros a b. rewrite (mget_mset _ _ _ _ _ a b HC2).
        case_decide; [done|]. rewrite (mget_mset _ _ _ _ _ a b HC1).
        by rewrite decide_False.
      - exists C1. split; [done|]. split; [done|].
        intros a b. by rewrite (mget_mset _ _ _ _ _ a b HC1). }
    exists C'. split; [done|].
    assert (settled C' (k, m)) as Hkm'.
    { exists c, t. simpl. rewrite HC'. by rewrite decide_True. }
    assert (∀ ij, settled C ij → settled C' ij) as Hpres.
    { intros [a b] (c' & t' & Hc' & Ht' & Hab). simpl in *.
      destruct (decide (a = k ∧ b = m)) as [[-> ->]|Hne'];
        [done|]. exists c', t'. simpl. rewrite HC'. by rewrite decide_False. }
    split; [|done]. split; [done|].
    intros i j v. rewrite HC'. case_decide as Hij.
    + destruct Hij as [-> ->]. intros _. right. done.
    + intros Hv. destruct (Hent i j v Hv) as [->|[Hij' Hs]]; [by left|].
      right. split; [done|]. by apply Hpres.
  - apply dec_stable in Heq. subst t.
    assert (settled C (k, m)) as Hs.
    { destruct (Hent k m v0 Hv0) as [->|[_ Hs]]; [|done].
      exists c, 0%Z. by simpl. }
    exists C. split; [done|]. split; [by split|]. by split.
Qed.

Lemma consensus_loop l C :
  partial_consensus C → Forall (λ km, km.1 < km.2 ∧ km.2 < n) l →
  ∃ C', foldM (consensus_pair (inr fc) (inr ft) thresh) C l = Some C' ∧
        partial_consensus C' ∧
        (∀ ij, ij ∈ l → settled C' ij) ∧
        (∀ ij, settled C ij → settled C' ij).
Proof.
  intros HC Hl. revert C HC.
  induction Hl as [|[k m] l [Hkm Hm] Hl IH]; intros C HC.
  - exists C. split; [done|]. split; [done|]. split; [|done].
    intros ij Hin. by apply elem_of_nil in Hin.
  - rewrite foldM_cons. simpl in Hkm, Hm.
    destruct (consensus_pair_step C k m HC Hkm Hm) as (C1 & -> & HC1 & Hs1 & Hp1).
    simpl. destruct (IH C1 HC1) as (C' & -> & HC' & Hs' & Hp').
    exists C'. split; [done|]. split; [done|]. split.
    + intros ij Hin. apply elem_of_cons in Hin as [->|Hin]; [|by apply Hs'].
      by apply Hp'.
    + intros ij Hij. by apply Hp', Hp1.
Qed.

End consensus_loop.

Lemma partial_consensus_zeros n thresh fc ft :
  partial_consensus n thresh fc ft (zeros 0%Qc n n).
Proof.
  split; [apply shape_zeros|]. intros i j v Hv. left.
  destruct (mget_Some_lt _ _ _ _ _ _ (shape_zeros 0%Qc n n) Hv) as [Hi Hj].
  rewrite mget_zeros in Hv by done. by injection Hv.
Qed.

(** C1.  [gen_consensus_matrix] on the counters of the workers (each pair
    satisfying the invariant of the rounds) and a fresh zero matrix
    returns an [n]-by-[n] matrix whose entry [(i, j)], [i < j], is
    [clusterCount[i][j] / totalCount[i][j]] of the summed counters where
    [totalCount[i][j] > 0] and 0 otherwise, with a ratio below the
    threshold replaced by 0; every entry lies in [[0, 1]] and the matrix
    is symmetric. *)
Theorem consensus_matrix_ratio_bounded_symmetric
    (n : nat) (thresh : Qc)
    (clustcount_matrices totalcount_matrices : list (list (list Z))) :
  clustcount_matrices ≠ [] →
  Forall2 (counters_inv n) clustcount_matrices totalcount_matrices →
  ∃ clusterCount totalCount consensus,
    np_sum clustcount_matrices = inr clusterCount ∧
    np_sum totalcount_matrices = inr totalCount ∧
    gen_consensus_matrix n (zeros 0%Qc n n) thresh
      clustcount_matrices totalcount_matrices = Some consensus ∧
    shape n n consensus ∧
    (∀ i j, i < j → j < n →
       ∃ c t, mget clusterCount i j = Some c ∧ mget totalCount i j = Some t ∧
              mget consensus i j = Some (consensus_entry thresh c t)) ∧
    (∀ i j v, mget consensus i j = Some v → (0 ≤ v ≤ 1)%Qc) ∧
    (∀ i j, mget consensus i j = mget consensus j i).
Proof.
  intros Hne Hall.
  destruct (np_sum_inv n _ _ Hne Hall) as (fc & ft & Hfc & Hft & Hinv).
  destruct (consensus_loop n thresh fc ft Hinv (upper_pairs n) (zeros 0%Qc n n))
    as (U & HU & [HsU HentU] & Hset & _).
  { apply partial_consensus_zeros. }
  { apply Forall_forall. intros [k m] Hkm. by apply elem_of_upper_pairs. }
  assert (∀ i j v, mget U i j = Some v → j ≤ i → v = 0%Qc) as Hlow.
  { intros i j v Hv Hji. destruct (HentU i j v Hv) as [->|[? _]]; [done|lia]. }
  assert (∀ i j v, mget U i j = Some v → (0 ≤ v ≤ 1)%Qc) as Hrange.
  { intros i j v Hv. destruct (HentU i j v Hv) as [->|[_ Hs]]; [by compute|].
    destruct Hs as (c & t & Hc & Ht & Hv'). simpl in *.
    rewrite Hv in Hv'. injection Hv' as ->.
    apply consensus_entry_range. destruct Hinv as (_ & _ & Hb).
    by destruct (Hb i j c t Hc Ht). }
  exists fc, ft, (map2 Qcplus U (transpose U)).
  split; [done|]. split; [done|]. split.
  { unfold gen_consensus_matrix. rewrite Hfc, Hft, foldM_upper_pairs, HU. done. }
  split; [by apply shape_map2, shape_transpose|].
  assert (∀ i j, mget (map2 Qcplus U (transpose U)) i j
                 = a ← mget U i j; b ← mget U j i; Some (a + b)%Qc) as HR.
  { intros i j. rewrite mget_map2. by rewrite (mget_transpose n U j i). }
  split; [|split].
  - intros i j Hij Hj.
    destruct (Hset (i, j)) as (c & t & Hc & Ht & Hv);
      [by apply elem_of_upper_pairs|]. simpl in *.
    exists c, t. split; [done|]. split; [done|]. rewrite HR, Hv. simpl.
    destruct (mget_is_Some n n U j i) as [b Hb]; [done|done|lia|].
    rewrite Hb. simpl. rewrite (Hlow j i b Hb) by lia. by rewrite Qcplus_0_r.
  - intros i j v. rewrite HR.
    destruct (mget U i j) as [a|] eqn:Ha; simpl; [|done].
    destruct (mget U j i) as [b|] eqn:Hb; simpl; [|done]. intros [= <-].
    destruct (decide (i < j)) as [Hij|Hij].
    + rewrite (Hlow j i b Hb) by lia. rewrite Qcplus_0_r. by eapply Hrange.
    + rewrite (Hlow i j a Ha) by lia. rewrite Qcplus_0_l. by eapply Hrange.
  - intros i j. rewrite !HR.
    destruct (mget U i j) as [a|], (mget U j i) as [b|]; simpl; try done.
    by rewrite Qcplus_comm.
Qed.

Lemma consensus_matrix_ratio_bounded_symmetric_witness :
  [sim_matrix_clustcount example_after_run] ≠ [] ∧
  Forall2 (counters_inv 3) [sim_matrix_clustcount example_after_run]
                           [sim_matrix_totalcount example_after_run] ∧
  ∃ clusterCount totalCount consensus,
    np_sum [sim_matrix_clustcount example_after_run] = inr clusterCount ∧
    np_sum [sim_matrix_totalcount example_after_run] = inr totalCount ∧
    gen_consensus_matrix 3 (zeros 0%Qc 3 3) (Q2Qc (6 # 10))
      [sim_matrix_clustcount example_after_run]
      [sim_matrix_totalcount example_after_run] = Some consensus ∧
    shape 3 3 consensus ∧
    (∀ i j, i < j → j < 3 →
       ∃ c t, mget clusterCount i j = Some c ∧ mget totalCount i j = Some t ∧
              mget consensus i j = Some (consensus_entry (Q2Qc (6 # 10)) c t)) ∧
    (∀ i j v, mget consensus i j = Some v → (0 ≤ v ≤ 1)%Qc) ∧
    (∀ i j, mget consensus i j = mget consensus j i).
Proof.
  assert (Forall2 (counters_inv 3) [sim_matrix_clustcount example_after_run]
                                   [sim_matrix_totalcount example_after_run]) as H.
  { constructor; [|constructor].
    split; [by repeat constructor|]. split; [by repeat constructor|].
    intros i j c t Hc Ht.
    destruct i as [|[|[|i]]]; [| | |done];
      (destruct j as [|[|[|j]]]; [| | |done]);
      simpl in Hc, Ht; injection Hc as <-; injection Ht as <-; lia. }
  split; [done|]. split; [exact H|].
  exact (consensus_matrix_ratio_bounded_symmetric 3 (Q2Qc (6 # 10))
           [sim_matrix_clustcount example_after_run]
           [sim_matrix_totalcount example_after_run]
           ltac:(done) H).
Defined.

(** *** Reordering the consensus matrix *)

(** The last statement of [reorder_consensus]:
    [consensus_matrix.take(best_order, 1).transpose().take(best_order, 1)]. *)
Definition reorder_matrix {A : Type} (best_order : list nat)
    (consensus_matrix : list (list A)) : option (list (list A)) :=
  T ← take_columns best_order consensus_matrix;
  take_columns best_order (transpose T).

(** The sum of all entries. *)
Definition matrix_total (M : list (list Qc)) : Qc := foldr Qcplus 0%Qc (concat M).

Lemma matrix_total_Permutation (l k : list Qc) :
  l ≡ₚ k → foldr Qcplus 0%Qc l = foldr Qcplus 0%Qc k.
Proof.
  induction 1 as [|x l k _ IH|x y l|l k r _ IH1 _ IH2]; simpl; [done| | |].
  - by rewrite IH.
  - rewrite !Qcplus_assoc. by rewrite (Qcplus_comm y x).
  - by etrans.
Qed.

Section reordering.
Context {A : Type} (n : nat) (M : list (list A)) (p : list nat).
Hypothesis HM : shape n n M.
Hypothesis Hp : p ≡ₚ seq 0 n.

Lemma order_length : length p = n.
Proof. by rewrite Hp, length_seq. Qed.

Lemma order_lt : Forall (λ j, j < n) p.
Proof.
  apply Forall_forall. intros j Hj. rewrite Hp in Hj.
  apply elem_of_seq in Hj. lia.
Qed.

Lemma order_lookup a : a < n → ∃ pa, p !! a = Some pa ∧ pa < n.
Proof.
  intros Ha. destruct (lookup_lt_is_Some_2 p a) as [pa Hpa].
  { by rewrite order_length. }
  exists pa. split; [done|].
  pose proof order_lt as Hlt. rewrite Forall_lookup in Hlt. by apply (Hlt a).
Qed.

(** What the code computes, for any square matrix: the entry at [(a, b)]
    is the old entry at [(p[b], p[a])]. *)
Lemma reorder_matrix_entries :
  ∃ M', reorder_matrix p M = Some M' ∧ shape n n M' ∧
        ∀ a b, mget M' a b = pa ← p !! a; pb ← p !! b; mget M pb pa.
Proof.
  unfold reorder_matrix.
  destruct (take_columns_Some n n M p HM order_lt) as (T & -> & HT & HTe).
  rewrite order_length in HT. simpl.
  destruct (take_columns_Some n n (transpose T) p (shape_transpose _ _ HT) order_lt)
    as (M' & -> & HM' & HM'e).
  rewrite order_length in HM'. exists M'. split; [done|]. split; [done|].
  intros a b. rewrite HM'e.
  destruct (p !! b) as [pb|] eqn:Hb; simpl; [|by destruct (p !! a)].
  rewrite (mget_transpose n T pb a HT), HTe.
  destruct (p !! a) as [pa|] eqn:Ha; simpl; [done|].
  symmetry. destruct (mget (transpose T) a pb) as [v|] eqn:Hv; [|done].
  apply (mget_Some_lt n n) in Hv as [Ha' _]; [|by apply shape_transpose].
  apply lookup_ge_None in Ha. rewrite order_length in Ha. lia.
Qed.

End reordering.

(** A list read through a permutation of its indices. *)
Lemma permuted_list {A} (l l' : list A) (p : list nat) :
  p ≡ₚ seq 0 (length l) → length l' = length l →
  (∀ b pb, p !! b = Some pb → l' !! b = l !! pb) → l' ≡ₚ l.
Proof.
  intros Hp Hlen Hl'.
  destruct (mapM_lookup_Permutation l p Hp) as (k & Hk & Hkl).
  assert (l' = k) as ->; [|done].
  apply list_eq. intros b. rewrite (mapM_lookup _ _ _ b Hk).
  destruct (p !! b) as [pb|] eqn:Hb; simpl; [by apply Hl'|].
  apply lookup_ge_None. apply lookup_ge_None in Hb.
  rewrite Hp, length_seq in Hb. lia.
Qed.

Lemma symmetric_column {A} n (M : list (list A)) b r :
  shape n n M → (∀ i j, mget M i j = mget M j i) →
  M !! b = Some r → column M b = r.
Proof.
  intros HM Hsym Hr. pose proof (lookup_lt_Some _ _ _ Hr) as Hb.
  rewrite (proj1 HM) in Hb.
  apply list_eq. intros a. rewrite (column_lookup n n) by done.
  rewrite Hsym. unfold mget. by rewrite Hr.
Qed.

(** C9.  For a symmetric [n]-by-[n] consensus matrix [M] and a
    permutation [p] of [0 .. n-1], the reordering succeeds and gives [M']
    with [M'[a][b] = M[p[a]][p[b]]]; the entries of [M'] are those of [M]
    as a multiset, their sum is the same, row [a] (column [b]) of [M'] is a
    rearrangement of row [p[a]] (column [p[b]]) of [M], and [M'] is
    symmetric. *)
Theorem reorder_is_joint_permutation
    (n : nat) (M : list (list Qc)) (p : list nat) :
  shape n n M → (∀ i j, mget M i j = mget M j i) → p ≡ₚ seq 0 n →
  ∃ M', reorder_matrix p M = Some M' ∧ shape n n M' ∧
    (∀ a b pa pb, p !! a = Some pa → p !! b = Some pb →
       mget M' a b = mget M pa pb) ∧
    concat M' ≡ₚ concat M ∧
    matrix_total M' = matrix_total M ∧
    (∀ a pa, p !! a = Some pa →
       ∃ r r', M !! pa = Some r ∧ M' !! a = Some r' ∧ r' ≡ₚ r) ∧
    (∀ b pb, p !! b = Some pb → column M' b ≡ₚ column M pb) ∧
    (∀ a b, mget M' a b = mget M' b a).
Proof.
  intros HM Hsym Hp.
  destruct (reorder_matrix_entries n M p HM Hp) as (M' & HM' & HsM' & Hent).
  pose proof (order_length n p Hp) as Hlen.
  assert (∀ a b pa pb, p !! a = Some pa → p !! b = Some pb →
            mget M' a b = mget M pa pb) as Hjoint.
  { intros a b pa pb Ha Hb. rewrite Hent, Ha, Hb. simpl. apply Hsym. }
  assert (∀ a b, mget M' a b = mget M' b a) as Hsym'.
  { intros a b. rewrite !Hent.
    destruct (p !! a) as [pa|], (p !! b) as [pb|]; simpl; try done. }
  assert (∀ a pa, p !! a = Some pa →
            ∃ r r', M !! pa = Some r ∧ M' !! a = Some r' ∧ r' ≡ₚ r) as Hrows.
  { intros a pa Ha.
    pose proof (lookup_lt_Some _ _ _ Ha) as Han. rewrite Hlen in Han.
    destruct (order_lookup n p Hp a Han) as (pa' & Ha' & Hpa).
    assert (pa' = pa) as -> by congruence.
    destruct (lookup_lt_is_Some_2 M pa) as [r Hr]; [by rewrite (proj1 HM)|].
    destruct (lookup_lt_is_Some_2 M' a) as [r' Hr']; [by rewrite (proj1 HsM')|].
    exists r, r'. split; [done|]. split; [done|].
    pose proof (shape_row _ _ _ _ _ HM Hr) as Hlr.
    pose proof (shape_row _ _ _ _ _ HsM' Hr') as Hlr'.
    apply (permuted_list r r' p); [by rewrite Hlr | congruence |].
    intros b pb Hb. specialize (Hjoint a b pa pb Ha Hb).
    unfold mget in Hjoint. by rewrite Hr, Hr' in Hjoint. }
  exists M'. split; [done|]. split; [done|]. split; [done|].
  assert (concat M' ≡ₚ concat M) as Hconcat.
  { destruct (mapM_lookup_Permutation M p) as (Mp & HMp & HMpM).
    { by rewrite (proj1 HM). }
    rewrite <- (concat_Permutation _ _ HMpM).
    apply concat_Forall2_Permutation, Forall2_same_length_lookup_2.
    - apply length_mapM in HMp. rewrite (proj1 HsM'). congruence.
    - intros a r' r Hr' Hr. rewrite (mapM_lookup _ _ _ a HMp) in Hr.
      destruct (p !! a) as [pa|] eqn:Ha; simpl in Hr; [|done].
      destruct (Hrows a pa Ha) as (r0 & r0' & Hr0 & Hr0' & Hperm).
      congruence. }
  split; [done|]. split; [by apply matrix_total_Permutation|].
  split; [done|]. split; [|done].
  intros b pb Hb. destruct (Hrows b pb Hb) as (r & r' & Hr & Hr' & Hperm).
  by rewrite (symmetric_column n M' b r' HsM' Hsym' Hr'),
             (symmetric_column n M pb r HM Hsym Hr).
Qed.

Definition example_consensus : list (list Qc) :=
  [ [0; 1; Q2Qc (1 # 2)];
    [1; 0; 0];
    [Q2Qc (1 # 2); 0; 0] ]%Qc.

Lemma reorder_is_joint_permutation_witness :
  shape 3 3 example_consensus ∧
  (∀ i j, mget example_consensus i j = mget example_consensus j i) ∧
  [2; 0; 1] ≡ₚ seq 0 3 ∧
  ∃ M', reorder_matrix [2; 0; 1] example_consensus = Some M' ∧ shape 3 3 M' ∧
    (∀ a b pa pb, [2; 0; 1] !! a = Some pa → [2; 0; 1] !! b = Some pb →
       mget M' a b = mget example_consensus pa pb) ∧
    concat M' ≡ₚ concat example_consensus ∧
    matrix_total M' = matrix_total example_consensus ∧
    (∀ a pa, [2; 0; 1] !! a = Some pa →
       ∃ r r', example_consensus !! pa = Some r ∧ M' !! a = Some r' ∧ r' ≡ₚ r) ∧
    (∀ b pb, [2; 0; 1] !! b = Some pb →
       column M' b ≡ₚ column example_consensus pb) ∧
    (∀ a b, mget M' a b = mget M' b a).
Proof.
  assert (shape 3 3 example_consensus) as Hshape by (by repeat constructor).
  assert (∀ i j, mget example_consensus i j = mget example_consensus j i) as Hsym.
  { intros i j.
    destruct i as [|[|[|i]]]; destruct j as [|[|[|j]]]; reflexivity. }
  assert ([2; 0; 1] ≡ₚ seq 0 3) as Hperm.
  { simpl. etrans; [apply perm_swap | apply perm_skip, perm_swap]. }
  split; [exact Hshape|]. split; [exact Hsym|]. split; [exact Hperm|].
  exact (reorder_is_joint_permutation 3 example_consensus [2; 0; 1]
           Hshape Hsym Hperm).
Defined.


(** *** What one call of [upd_similarity_matrix] counts *)

Section counting.
Context {label : Type} `{EqDecision label}.

(** Both samples carry a label: the pair was clustered in this run. *)
Definition seen_together (dp : list (option label)) (k m : nat) : bool :=
  match dp !! k, dp !! m with
  | Some (Some _), Some (Some _) => true
  | _, _ => false
  end.

(** Both samples carry the same label. *)
Definition clustered_together (dp : list (option label)) (k m : nat) : bool :=
  match dp !! k, dp !! m with
  | Some (Some a), Some (Some b) => bool_decide (a = b)
  | _, _ => false
  end.

(** [v + 1] where [b] holds, [v] elsewhere. *)
Definition bump (b : bool) (v : Z) : Z := if b then (v + 1)%Z else v.

Lemma NoDup_upper_pairs n : NoDup (upper_pairs n).
Proof.
  unfold upper_pairs. apply NoDup_bind.
  - intros i1 i2 [k m] _ _ H1 H2.
    apply list_elem_of_fmap in H1 as (j1 & [= -> ->] & _).
    apply list_elem_of_fmap in H2 as (j2 & [= -> _] & _). done.
  - intros i _. apply NoDup_fmap_2; [|apply NoDup_seq].
    intros j1 j2 [= Hj]. lia.
  - apply NoDup_seq.
Qed.

Lemma upd_pair_counts n dp (c : list (list Z) * list (list Z)) k m :
  shape n n c.1 → shape n n c.2 → length dp = n → k < n → m < n →
  ∃ c', upd_pair dp c (k, m) = Some c' ∧ shape n n c'.1 ∧ shape n n c'.2 ∧
    ∀ i j,
      mget c'.1 i j
        = bump (bool_decide ((i, j) = (k, m)) && clustered_together dp i j)
            <$> mget c.1 i j ∧
      mget c'.2 i j
        = bump (bool_decide ((i, j) = (k, m)) && seen_together dp i j)
            <$> mget c.2 i j.
Proof.
  destruct c as [cc tc]. simpl. intros Hcc Htc Hdp Hk Hm.
  assert (∀ (M M' : list (list Z)) i j, incr M k m = Some M' →
            mget M' i j = bump (bool_decide ((i, j) = (k, m))) <$> mget M i j)
    as Hincr.
  { intros M M' i j HM'. rewrite (mget_incr _ _ _ _ i j HM').
    destruct (decide (i = k ∧ j = m)) as [[-> ->]|Hne].
    - by rewrite bool_decide_eq_true_2.
    - rewrite bool_decide_eq_false_2 by (intros [= -> ->]; by apply Hne).
      by destruct (mget M i j). }
  unfold upd_pair.
  destruct (lookup_lt_is_Some_2 dp k) as [k_id Hkid]; [lia|].
  destruct (lookup_lt_is_Some_2 dp m) as [m_id Hmid]; [lia|].
  rewrite Hkid, Hmid. simpl.
  assert (∀ i j, (i, j) = (k, m) →
            clustered_together dp i j
              = match k_id, m_id with
                | Some a, Some b => bool_decide (a = b) | _, _ => false end ∧
            seen_together dp i j
              = match k_id, m_id with
                | Some a, Some b => true | _, _ => false end) as Hat.
  { intros i j [= -> ->]. unfold clustered_together, seen_together.
    by rewrite Hkid, Hmid. }
  assert (∀ i j (b b' : bool), ((i, j) = (k, m) → b = b') →
            bool_decide ((i, j) = (k, m)) && b = bool_decide ((i, j) = (k, m)) && b')
    as Hcong.
  { intros i j b b' Hb. destruct (decide ((i, j) = (k, m))) as [Heq|Hne].
    - by rewrite (Hb Heq).
    - by rewrite !bool_decide_eq_false_2. }
  assert (∀ (c0 : list (list Z) * list (list Z)),
            c0 = (cc, tc) →
            (∀ i j, (i, j) = (k, m) →
               clustered_together dp i j = false ∧ seen_together dp i j = false) →
            ∃ c', Some c0 = Some c' ∧ shape n n c'.1 ∧ shape n n c'.2 ∧
              ∀ i j,
                mget c'.1 i j
                  = bump (bool_decide ((i, j) = (k, m)) && clustered_together dp i j)
                      <$> mget cc i j ∧
                mget c'.2 i j
                  = bump (bool_decide ((i, j) = (k, m)) && seen_together dp i j)
                      <$> mget tc i j) as Hskip.
  { intros c0 -> Hno. eexists. split; [done|]. simpl.
    split; [done|]. split; [done|]. intros i j.
    rewrite (Hcong i j (clustered_together dp i j) false)
      by (intros Heq; by destruct (Hno i j Heq)).
    rewrite (Hcong i j (seen_together dp i j) false)
      by (intros Heq; by destruct (Hno i j Heq)).
    rewrite !andb_false_r.
    split; [by destruct (mget cc i j) | by destruct (mget tc i j)]. }
  destruct k_id as [a|]; [destruct m_id as [b|]|];
    [|by apply Hskip..].
  destruct (incr_is_Some n tc k m) as [tc1 Htc1]; [done..|].
  destruct (decide (a = b)) as [Hab|Hab].
  - destruct (incr_is_Some n cc k m) as [cc1 Hcc1]; [done..|].
    rewrite Hcc1. simpl. rewrite Htc1. simpl.
    eexists. split; [done|]. simpl.
    split; [exact (incr_shape _ _ _ _ _ Hcc Hcc1)|].
    split; [exact (incr_shape _ _ _ _ _ Htc Htc1)|].
    intros i j. rewrite (Hincr _ _ i j Hcc1), (Hincr _ _ i j Htc1).
    rewrite (Hcong i j (clustered_together dp i j) true)
      by (intros Heq; destruct (Hat i j Heq) as [-> _];
          by rewrite bool_decide_eq_true_2).
    rewrite (Hcong i j (seen_together dp i j) true)
      by (intros Heq; by destruct (Hat i j Heq) as [_ ->]).
    by rewrite !andb_true_r.
  - simpl. rewrite Htc1. simpl. eexists. split; [done|]. simpl.
    split; [done|]. split; [exact (incr_shape _ _ _ _ _ Htc Htc1)|].
    intros i j. rewrite (Hincr _ _ i j Htc1).
    rewrite (Hcong i j (clustered_together dp i j) false)
      by (intros Heq; destruct (Hat i j Heq) as [-> _];
          by rewrite bool_decide_eq_false_2).
    rewrite (Hcong i j (seen_together dp i j) true)
      by (intros Heq; by destruct (Hat i j Heq) as [_ ->]).
    rewrite andb_false_r, andb_true_r.
    split; [by destruct (mget cc i j)|done].
Qed.

Lemma upd_pairs_counts n dp (l : list (nat * nat))
    (c : list (list Z) * list (list Z)) :
  shape n n c.1 → shape n n c.2 → length dp = n → NoDup l →
  Forall (λ km, km.1 < n ∧ km.2 < n) l →
  ∃ c', foldM (upd_pair dp) c l = Some c' ∧ shape n n c'.1 ∧ shape n n c'.2 ∧
    ∀ i j,
      mget c'.1 i j
        = bump (bool_decide ((i, j) ∈ l) && clustered_together dp i j)
            <$> mget c.1 i j ∧
      mget c'.2 i j
        = bump (bool_decide ((i, j) ∈ l) && seen_together dp i j)
            <$> mget c.2 i j.
Proof.
  intros Hcc Htc Hdp Hnd Hl. revert c Hcc Htc.
  induction Hl as [|[k m] l [Hk Hm] Hl IH]; intros c Hcc Htc.
  - exists c. split; [done|]. split; [done|]. split; [done|]. intros i j.
    rewrite bool_decide_eq_false_2 by apply not_elem_of_nil. simpl.
    split; [by destruct (mget c.1 i j) | by destruct (mget c.2 i j)].
  - apply NoDup_cons in Hnd as [Hnotin Hnd]. simpl in Hk, Hm.
    destruct (upd_pair_counts n dp c k m) as (c1 & Hc1 & Hcc1 & Htc1 & Hget1);
      [done..|].
    destruct (IH Hnd c1 Hcc1 Htc1) as (c' & Hc' & Hcc' & Htc' & Hget').
    exists c'. rewrite foldM_cons, Hc1. simpl.
    split; [done|]. split; [done|]. split; [done|]. intros i j.
    destruct (Hget' i j) as [-> ->]. destruct (Hget1 i j) as [-> ->].
    destruct (decide ((i, j) = (k, m))) as [Heq|Hne].
    + injection Heq as -> ->. rewrite (bool_decide_eq_false_2 _ Hnotin).
      rewrite !bool_decide_eq_true_2 by (done || by left). simpl.
      split; [by destruct (mget c.1 k m) | by destruct (mget c.2 k m)].
    + rewrite (bool_decide_eq_false_2 _ Hne). simpl.
      rewrite (bool_decide_ext ((i, j) ∈ (k, m) :: l) ((i, j) ∈ l)); cycle 1.
      { rewrite elem_of_cons. split; [by intros [?|?] | by right]. }
      split; [by destruct (mget c.1 i j) | by destruct (mget c.2 i j)].
Qed.

(** One call of [upd_similarity_matrix] on [n] samples returns, leaves the
    labels alone, adds 1 to [totalcount[i][j]] exactly for the pairs
    [i < j] whose samples both carry a label, and adds 1 to
    [clustcount[i][j]] exactly for those among them that carry the same
    label; every other entry of the two counters is unchanged. *)
Theorem counters_count_labelled_pairs (n : nat) (st : @state label) :
  length (datapoints st) = n →
  shape n n (sim_matrix_clustcount st) → shape n n (sim_matrix_totalcount st) →
  ∃ st', upd_similarity_matrix st = Some st' ∧
    datapoints st' = datapoints st ∧
    ∀ i j, i < n → j < n →
      ∃ c t, mget (sim_matrix_clustcount st) i j = Some c ∧
             mget (sim_matrix_totalcount st) i j = Some t ∧
             mget (sim_matrix_clustcount st') i j
               = Some (bump (bool_decide (i < j)
                             && clustered_together (datapoints st) i j) c) ∧
             mget (sim_matrix_totalcount st') i j
               = Some (bump (bool_decide (i < j)
                             && seen_together (datapoints st) i j) t).
Proof.
  intros Hdp Hcc Htc. rewrite upd_similarity_matrix_pairs, Hdp.
  destruct (upd_pairs_counts n (datapoints st) (upper_pairs n)
              (sim_matrix_clustcount st, sim_matrix_totalcount st))
    as (c' & -> & _ & _ & Hget); [done|done|done|apply NoDup_upper_pairs| |].
  { apply Forall_forall. intros [k m] [Hk Hm]%elem_of_upper_pairs. simpl. lia. }
  eexists. split; [done|]. simpl. split; [done|]. intros i j Hi Hj.
  destruct (mget_is_Some n n _ i j Hcc Hi Hj) as [c Hc].
  destruct (mget_is_Some n n _ i j Htc Hi Hj) as [t Ht].
  exists c, t. split; [done|]. split; [done|].
  destruct (Hget i j) as [-> ->]. simpl. rewrite Hc, Ht. simpl.
  rewrite (bool_decide_ext ((i, j) ∈ upper_pairs n) (i < j)); [done|].
  rewrite elem_of_upper_pairs. lia.
Qed.

End counting.

(** Three samples of which the first and the last were clustered, into
    one cluster. *)
Lemma counters_count_labelled_pairs_witness :
  let st := {| datapoints := [Some 0; None; Some 0];
               sim_matrix_clustcount := zeros 0%Z 3 3;
               sim_matrix_totalcount := zeros 0%Z 3 3 |} in
  ∃ st', upd_similarity_matrix st = Some st' ∧
    datapoints st' = datapoints st ∧
    ∀ i j, i < 3 → j < 3 →
      ∃ c t, mget (sim_matrix_clustcount st) i j = Some c ∧
             mget (sim_matrix_totalcount st) i j = Some t ∧
             mget (sim_matrix_clustcount st') i j
               = Some (bump (bool_decide (i < j)
                             && clustered_together (datapoints st) i j) c) ∧
             mget (sim_matrix_totalcount st') i j
               = Some (bump (bool_decide (i < j)
                             && seen_together (datapoints st) i j) t).
Proof.
  intros st.
  apply (counters_count_labelled_pairs 3 st);
    [reflexivity | apply shape_zeros | apply shape_zeros].
Defined.


(** *** The diagonal, and the distances of the final clustering *)

(** [1 - self.consensus_matrix], the distance matrix that
    [hcluster_consensus] hands to the final algorithm. *)
Definition consensus_distance (consensus_matrix : list (list Qc))
  : list (list Qc) :=
  fmap (M := list) (fmap (M := list) (λ v, (1 - v)%Qc)) consensus_matrix.

Lemma mget_consensus_distance (C : list (list Qc)) i j :
  mget (consensus_distance C) i j = (λ v, (1 - v)%Qc) <$> mget C i j.
Proof.
  unfold mget, consensus_distance. rewrite list_lookup_fmap.
  destruct (C !! i) as [row|]; simpl; [|done]. by rewrite list_lookup_fmap.
Qed.

(** [gen_consensus_matrix] never writes the diagonal: a sample's consensus
    with itself is 0, so in the distance matrix [1 - consensus] of the
    final clustering every sample is at distance 1 from itself, and no
    other sample is farther from it than that. *)
Theorem consensus_diagonal_zero_distance_one
    (n : nat) (thresh : Qc)
    (clustcount_matrices totalcount_matrices : list (list (list Z))) :
  clustcount_matrices ≠ [] →
  Forall2 (counters_inv n) clustcount_matrices totalcount_matrices →
  ∃ consensus,
    gen_consensus_matrix n (zeros 0%Qc n n) thresh
      clustcount_matrices totalcount_matrices = Some consensus ∧
    (∀ i, i < n →
       mget consensus i i = Some 0%Qc ∧
       mget (consensus_distance consensus) i i = Some 1%Qc) ∧
    (∀ i j v, mget (consensus_distance consensus) i j = Some v →
       (0 ≤ v ≤ 1)%Qc) ∧
    (∀ i j, mget (consensus_distance consensus) i j
            = mget (consensus_distance consensus) j i).
Proof.
  intros Hne Hall.
  destruct (np_sum_inv n _ _ Hne Hall) as (fc & ft & Hfc & Hft & Hinv).
  destruct (consensus_loop n thresh fc ft Hinv (upper_pairs n) (zeros 0%Qc n n))
    as (U & HU & [HsU HentU] & _ & _).
  { apply partial_consensus_zeros. }
  { apply Forall_forall. intros [k m] Hkm. by apply elem_of_upper_pairs. }
  assert (∀ i j v, mget U i j = Some v → j ≤ i → v = 0%Qc) as Hlow.
  { intros i j v Hv Hji. destruct (HentU i j v Hv) as [->|[? _]]; [done|lia]. }
  assert (∀ i j v, mget U i j = Some v → (0 ≤ v ≤ 1)%Qc) as Hrange.
  { intros i j v Hv. destruct (HentU i j v Hv) as [->|[_ Hs]]; [by compute|].
    destruct Hs as (c & t & Hc & Ht & Hv'). simpl in *.
    rewrite Hv in Hv'. injection Hv' as ->.
    apply consensus_entry_range. destruct Hinv as (_ & _ & Hb).
    by destruct (Hb i j c t Hc Ht). }
  assert (∀ i j, mget (map2 Qcplus U (transpose U)) i j
                 = a ← mget U i j; b ← mget U j i; Some (a + b)%Qc) as HR.
  { intros i j. rewrite mget_map2. by rewrite (mget_transpose n U j i). }
  exists (map2 Qcplus U (transpose U)). split.
  { unfold gen_consensus_matrix. rewrite Hfc, Hft, foldM_upper_pairs, HU. done. }
  split; [|split].
  - intros i Hi. rewrite mget_consensus_distance, HR.
    destruct (mget_is_Some n n U i i) as [a Ha]; [done..|].
    rewrite Ha. simpl. rewrite (Hlow i i a Ha) by lia. split; [done|].
    by compute.
  - intros i j v. rewrite mget_consensus_distance, HR.
    destruct (mget U i j) as [a|] eqn:Ha; simpl; [|done].
    destruct (mget U j i) as [b|] eqn:Hb; simpl; [|done]. intros [= <-].
    assert (0 ≤ a + b ≤ 1)%Qc as [H0 H1].
    { destruct (decide (i < j)) as [Hij|Hij].
      - rewrite (Hlow j i b Hb) by lia. rewrite Qcplus_0_r. by eapply Hrange.
      - rewrite (Hlow i j a Ha) by lia. rewrite Qcplus_0_l. by eapply Hrange. }
    split.
    + apply (Qcplus_le_mono_r _ _ (a + b)%Qc). 
      replace (1 - (a + b) + (a + b))%Qc with 1%Qc by ring.
      by rewrite Qcplus_0_l.
    + apply (Qcplus_le_mono_r _ _ (a + b)%Qc).
      replace (1 - (a + b) + (a + b))%Qc with 1%Qc by ring.
      rewrite <- (Qcplus_0_r 1) at 1. by apply Qcplus_le_compat.
  - intros i j. rewrite !mget_consensus_distance, !HR.
    destruct (mget U i j) as [a|], (mget U j i) as [b|]; simpl; try done.
    by rewrite Qcplus_comm.
Qed.

Lemma consensus_diagonal_zero_distance_one_witness :
  ∃ consensus,
    gen_consensus_matrix 3 (zeros 0%Qc 3 3) (Q2Qc (6 # 10))
      [sim_matrix_clustcount example_after_run]
      [sim_matrix_totalcount example_after_run] = Some consensus ∧
    (∀ i, i < 3 →
       mget consensus i i = Some 0%Qc ∧
       mget (consensus_distance consensus) i i = Some 1%Qc) ∧
    (∀ i j v, mget (consensus_distance consensus) i j = Some v →
       (0 ≤ v ≤ 1)%Qc) ∧
    (∀ i j, mget (consensus_distance consensus) i j
            = mget (consensus_distance consensus) j i).
Proof.
  apply (consensus_diagonal_zero_distance_one 3 (Q2Qc (6 # 10))
           [sim_matrix_clustcount example_after_run]
           [sim_matrix_totalcount example_after_run]); [done|].
  constructor; [|constructor].
  split; [by repeat constructor|]. split; [by repeat constructor|].
  intros i j c t Hc Ht.
  destruct i as [|[|[|i]]]; [| | |done];
    (destruct j as [|[|[|j]]]; [| | |done]);
    simpl in Hc, Ht; injection Hc as <-; injection Ht as <-; lia.
Defined.

End Consensus.

(** ** ConsensusCluster.reorder_consensus: the simulated-annealing branch *)

Module Annealing.

(** [l.pop(i)]: the element and the list without it; [None] is IndexError. *)
Definition pop {A : Type} (l : list A) (i : nat) : option (A * list A) :=
  x ← l !! i; Some (x, delete i l).

(** [l.insert(i, x)]: an index past the end appends. *)
Definition insert_at {A : Type} (i : nat) (x : A) (l : list A) : list A :=
  take i l ++ x :: drop i l.

(** The fallback bound to [energy] in [reorder_consensus] (a lambda): the
    squared sum of the costs [matrix[x[i]][x[i+1]]] of successive pairs. *)
Definition energy_lambda (sample_len : nat) (x : list nat) (matrix : list (list Qc))
  : option Qc :=
  costs ← mapM (λ i, xi ← x !! i; xj ← x !! (i + 1); mget matrix xi xj)
               (xrange 0 (sample_len - 1));
  let total := foldl Qcplus 0%Qc costs in
  Some (total * total)%Qc.

(** The random draws of one iteration: the pairs [rand_idx] returns, as
    many as the [while (a == b)] loop asks for, and the value of [ran()]
    (read only where the code calls it). *)
Record draws : Type := Draws {
  pairs : list (nat * nat);
  ran : Qc
}.

(** [a, b = ...; while (a == b): a, b = ...]: the first pair of distinct
    indices.  [None]: the supplied pairs are used up. *)
Fixpoint rand_pair (pairs : list (nat * nat)) : option (nat * nat) :=
  match pairs with
  | [] => None
  | (a, b) :: rest => if decide (a = b) then rand_pair rest else Some (a, b)
  end.

(** The random insertion: the element at the larger index moves to the
    smaller one. *)
Definition propose (sample_order : list nat) (ab : nat * nat) : option (list nat) :=
  let '(a, b) := ab in
  if decide (a < b) then
    '(x, rest) ← pop sample_order b; Some (insert_at a x rest)
  else
    '(x, rest) ← pop sample_order a; Some (insert_at b x rest).

(** The local variables of the loop. *)
Record sa_state : Type := SaState {
  sample_order : list nat;
  temp : Qc;
  not_accepted : Z;
  last_best : Z;
  best_energy : Qc;
  best_order : list nat
}.

Section annealing.
(** [energy] is [sa.c_energy] when the C extension is installed and the
    fallback above otherwise; [exp_e x] stands for [e**x]. *)
Context (energy : list nat → list (list Qc) → option Qc).
Context (exp_e : Qc → Qc).
Context (consensus_matrix : list (list Qc)).

(** The temperature after the two adjustments of iteration [i]. *)
Definition adjust_temp (i not_accepted : Z) (temp : Qc) : Qc :=
  let temp :=
    if decide (i mod 2000 = 0 ∧ i < 25000)%Z then
      if decide (Qc_of_Z (i - not_accepted) / Qc_of_Z i < Q2Qc (1 # 10))%Qc
      then (temp + 1)%Qc else temp
    else temp in
  if decide (i mod 25000 = 0)%Z then (temp * Q2Qc (90 # 100))%Qc else temp.

(** The state before the loop, from the warm start [sample_order] (the
    argsort of the final labels). *)
Definition sa_start (sample_order : list nat) : option sa_state :=
  new_energy ← energy sample_order consensus_matrix;
  Some {| sample_order := sample_order; temp := Q2Qc (5 # 10);
          not_accepted := 0; last_best := 0;
          best_energy := new_energy; best_order := sample_order |}.

(** The body of the loop at iteration [i], up to the test for [break]. *)
Definition sa_iteration (i : Z) (d : draws) (s : sa_state) : option sa_state :=
  last_energy ← energy (sample_order s) consensus_matrix;
  let last_order := sample_order s in
  ab ← rand_pair (pairs d);
  proposal ← propose (sample_order s) ab;
  new_energy ← energy proposal consensus_matrix;
  let temp := adjust_temp i (not_accepted s) (temp s) in
  if decide (new_energy < last_energy)%Qc then
    if decide (exp_e ((new_energy - last_energy) / temp) < ran d)%Qc then
      Some {| sample_order := last_order; temp := temp;
              not_accepted := not_accepted s + 1; last_best := last_best s;
              best_energy := best_energy s; best_order := best_order s |}
    else
      Some {| sample_order := proposal; temp := temp;
              not_accepted := not_accepted s; last_best := last_best s;
              best_energy := best_energy s; best_order := best_order s |}
  else if decide (best_energy s < new_energy)%Qc then
    Some {| sample_order := proposal; temp := temp;
            not_accepted := not_accepted s; last_best := i;
            best_energy := new_energy; best_order := proposal |}
  else
    Some {| sample_order := proposal; temp := temp;
            not_accepted := not_accepted s; last_best := last_best s;
            best_energy := best_energy s; best_order := best_order s |}.

(** The loop [for i in xrange(1, 4000000)] from iteration [i] on, run for
    as long as draws are supplied: it ends at the [break], at the end of
    the range, or with the state reached when [ds] is used up. *)
Fixpoint sa_loop (i : Z) (ds : list draws) (s : sa_state) : option sa_state :=
  match ds with
  | [] => Some s
  | d :: ds' =>
      if decide (i < 4000000)%Z then
        s' ← sa_iteration i d s;
        if decide (100000 < i - last_best s')%Z then Some s'
        else sa_loop (i + 1) ds' s'
      else Some s
  end.

(** The best energy seen so far is never below the energy of the current
    order. *)
Definition best_bounds (s : sa_state) : Prop :=
  ∀ e, energy (sample_order s) consensus_matrix = Some e → (e ≤ best_energy s)%Qc.

Lemma sa_start_bounds order s : sa_start order = Some s → best_bounds s.
Proof.
  unfold sa_start. destruct (energy order consensus_matrix) as [e0|] eqn:He0;
    simpl; [|done].
  intros [= <-] e. simpl. rewrite He0. intros [= <-]. apply Qcle_refl.
Qed.

Lemma sa_iteration_bounds i d s s' :
  best_bounds s → sa_iteration i d s = Some s' → best_bounds s'.
Proof.
  intros Hs. unfold sa_iteration.
  destruct (energy (sample_order s) consensus_matrix) as [last|] eqn:Hlast;
    simpl; [|done].
  destruct (rand_pair (pairs d)) as [ab|]; simpl; [|done].
  destruct (propose (sample_order s) ab) as [proposal|]; simpl; [|done].
  destruct (energy proposal consensus_matrix) as [new|] eqn:Hnew; simpl; [|done].
  specialize (Hs last Hlast).
  destruct (decide (new < last)%Qc) as [Hlt|Hge].
  - destruct (decide _) as [_|_]; intros [= <-] e; simpl.
    + rewrite Hlast. by intros [= <-].
    + rewrite Hnew. intros [= <-].
      apply Qclt_le_weak. by eapply Qclt_le_trans.
  - destruct (decide (best_energy s < new)%Qc) as [Hbest|Hbest];
      intros [= <-] e; simpl; rewrite Hnew; intros [= <-].
    + apply Qcle_refl.
    + by apply Qcnot_lt_le.
Qed.

Lemma sa_loop_bounds ds i s s' :
  best_bounds s → sa_loop i ds s = Some s' → best_bounds s'.
Proof.
  revert i s. induction ds as [|d ds IH]; intros i s Hs; simpl.
  - by intros [= <-].
  - destruct (decide (i < 4000000)%Z); [|by intros [= <-]].
    destruct (sa_iteration i d s) as [s1|] eqn:Hs1; simpl; [|done].
    pose proof (sa_iteration_bounds _ _ _ _ Hs Hs1) as Hs1'.
    destruct (decide _); [by intros [= <-]|]. by apply IH.
Qed.

(** C2.  Take any state [s] the loop reaches from the warm start and run
    one more iteration on it, with [proposal] the order proposed and
    [last_energy], [new_energy] the energies of the current and of the
    proposed order.  If [new_energy < last_energy], the proposal is kept
    exactly when [ran() <= e**((new_energy - last_energy) / temp)] for the
    temperature of this iteration, and otherwise the old order is
    restored and counted as not accepted; the best order is untouched.
    If [new_energy] exceeds the best energy so far, the proposal is kept
    whatever was drawn and becomes the best order. *)
Theorem metropolis_below_current_and_unconditional_new_best
    (order0 : list nat) (ds : list draws) (s0 s : sa_state)
    (i : Z) (d : draws) (ab : nat * nat) (proposal : list nat)
    (last_energy new_energy : Qc) :
  sa_start order0 = Some s0 →
  sa_loop 1 ds s0 = Some s →
  energy (sample_order s) consensus_matrix = Some last_energy →
  rand_pair (pairs d) = Some ab →
  propose (sample_order s) ab = Some proposal →
  energy proposal consensus_matrix = Some new_energy →
  ∃ s', sa_iteration i d s = Some s' ∧
    temp s' = adjust_temp i (not_accepted s) (temp s) ∧
    ((new_energy < last_energy)%Qc →
       ((ran d ≤ exp_e ((new_energy - last_energy) / temp s'))%Qc →
          sample_order s' = proposal ∧ not_accepted s' = not_accepted s) ∧
       ((exp_e ((new_energy - last_energy) / temp s') < ran d)%Qc →
          sample_order s' = sample_order s ∧
          not_accepted s' = (not_accepted s + 1)%Z) ∧
       best_order s' = best_order s ∧ best_energy s' = best_energy s) ∧
    ((best_energy s < new_energy)%Qc →
       sample_order s' = proposal ∧ best_order s' = proposal ∧
       best_energy s' = new_energy ∧ last_best s' = i).
Proof.
  intros Hstart Hloop Hlast Hab Hprop Hnew.
  pose proof (sa_loop_bounds _ _ _ _ (sa_start_bounds _ _ Hstart) Hloop) as Hs.
  specialize (Hs last_energy Hlast).
  unfold sa_iteration. rewrite Hlast. simpl. rewrite Hab. simpl.
  rewrite Hprop. simpl. rewrite Hnew. simpl.
  destruct (decide (new_energy < last_energy)%Qc) as [Hlt|Hge].
  - destruct (decide _) as [Hrej|Hacc]; eexists; (split; [reflexivity|]); simpl;
      (split; [reflexivity|]); split.
    + intros _. split; [|by split]. intros Hle.
      by apply Qcle_not_lt in Hle.
    + intros Hbest. exfalso. apply (Qcle_not_lt _ _ Hs).
      by eapply Qclt_trans.
    + intros _. split; [by split|]. split; [|by split].
      intros Hrej. done.
    + intros Hbest. exfalso. apply (Qcle_not_lt _ _ Hs).
      by eapply Qclt_trans.
  - destruct (decide (best_energy s < new_energy)%Qc) as [Hbest|Hbest];
      eexists; (split; [reflexivity|]); simpl; (split; [reflexivity|]);
      (split; [done|]); done.
Qed.


End annealing.

(** *** The theorem at a concrete run

    Three samples, the consensus matrix of the example above, the warm
    start [[0; 1; 2]] and, for [e**x], the rational bound [1 / (1 - x)].
    The first iteration moves sample 2 to the front, which raises the
    energy from 1 to 9/4 (a new best); the second proposes [[2; 1; 0]],
    of energy 1, and rejects it. *)

Definition example_exp (x : Qc) : Qc := (/ (1 - x))%Qc.

Definition example_draws : draws :=
  {| pairs := [(1, 1); (0, 2)]; ran := Q2Qc (1 # 2) |}.

Definition example_start : sa_state :=
  {| sample_order := [0; 1; 2]; temp := Q2Qc (5 # 10);
     not_accepted := 0; last_best := 0;
     best_energy := 1%Qc; best_order := [0; 1; 2] |}.

Definition example_state : sa_state :=
  {| sample_order := [2; 0; 1]; temp := Q2Qc (5 # 10);
     not_accepted := 0; last_best := 1;
     best_energy := Q2Qc (9 # 4); best_order := [2; 0; 1] |}.

Lemma example_state_reached :
  sa_loop (energy_lambda 3) example_exp Consensus.example_consensus
          1 [example_draws] example_start = Some example_state.
Proof. vm_compute. reflexivity. Qed.

Definition example_rejected : draws :=
  {| pairs := [(1, 2)]; ran := Q2Qc (1 # 2) |}.

Lemma metropolis_below_current_and_unconditional_new_best_witness :
  let energy := energy_lambda 3 in
  let M := Consensus.example_consensus in
  sa_start energy M [0; 1; 2] = Some example_start ∧
  sa_loop energy example_exp M 1 [example_draws] example_start
    = Some example_state ∧
  energy (sample_order example_state) M = Some (Q2Qc (9 # 4)) ∧
  rand_pair (pairs example_rejected) = Some (1, 2) ∧
  propose (sample_order example_state) (1, 2) = Some [2; 1; 0] ∧
  energy [2; 1; 0] M = Some 1%Qc ∧
  ∃ s', sa_iteration energy example_exp M 2 example_rejected example_state
          = Some s' ∧
    temp s' = adjust_temp 2 (not_accepted example_state) (temp example_state) ∧
    ((1 < Q2Qc (9 # 4))%Qc →
       ((ran example_rejected
           ≤ example_exp ((1 - Q2Qc (9 # 4)) / temp s'))%Qc →
          sample_order s' = [2; 1; 0] ∧
          not_accepted s' = not_accepted example_state) ∧
       ((example_exp ((1 - Q2Qc (9 # 4)) / temp s')
           < ran example_rejected)%Qc →
          sample_order s' = sample_order example_state ∧
          not_accepted s' = (not_accepted example_state + 1)%Z) ∧
       best_order s' = best_order example_state ∧
       best_energy s' = best_energy example_state) ∧
    ((best_energy example_state < 1)%Qc →
       sample_order s' = [2; 1; 0] ∧ best_order s' = [2; 1; 0] ∧
       best_energy s' = 1%Qc ∧ last_best s' = 2%Z).
Proof.
  intros energy M.
  assert (sa_start energy M [0; 1; 2] = Some example_start) as H1
    by (vm_compute; reflexivity).
  assert (sa_loop energy example_exp M 1 [example_draws] example_start
          = Some example_state) as H2 by (vm_compute; reflexivity).
  assert (energy (sample_order example_state) M = Some (Q2Qc (9 # 4))) as H3
    by (vm_compute; reflexivity).
  assert (energy [2; 1; 0] M = Some 1%Qc) as H6 by (vm_compute; reflexivity).
  split; [exact H1|]. split; [exact H2|]. split; [exact H3|].
  split; [reflexivity|]. split; [reflexivity|]. split; [exact H6|].
  exact (metropolis_below_current_and_unconditional_new_best
           energy example_exp M [0; 1; 2] [example_draws]
           example_start example_state 2 example_rejected (1, 2) [2; 1; 0]
           (Q2Qc (9 # 4)) 1%Qc H1 H2 H3 eq_refl eq_refl H6).
Defined.

(** The second iteration of the example does reject the proposal. *)
Example example_rejection :
  sample_order <$>
    sa_iteration (energy_lambda 3) example_exp Consensus.example_consensus
                 2 example_rejected example_state
  = Some [2; 0; 1].
Proof. vm_compute. reflexivity. Qed.

(** *** What the loop keeps *)

Section annealing_facts.
Context (energy : list nat → list (list Qc) → option Qc).
Context (exp_e : Qc → Qc).
Context (consensus_matrix : list (list Qc)).

Local Abbreviation sa_start := (sa_start energy consensus_matrix).
Local Abbreviation sa_iteration := (sa_iteration energy exp_e consensus_matrix).
Local Abbreviation sa_loop := (sa_loop energy exp_e consensus_matrix).

Lemma insert_at_Permutation {A} (i : nat) (x : A) (l : list A) :
  insert_at i x l ≡ₚ x :: l.
Proof.
  unfold insert_at. rewrite <- Permutation_middle.
  by rewrite take_drop.
Qed.

(** A random insertion moves one element and loses none. *)
Lemma propose_Permutation order ab order' :
  propose order ab = Some order' → order' ≡ₚ order.
Proof.
  destruct ab as [a b]. unfold propose, pop.
  destruct (decide (a < b)).
  - destruct (order !! b) as [x|] eqn:Hx; simpl; [|done]. intros [= <-].
    rewrite insert_at_Permutation. symmetry. by apply delete_Permutation.
  - destruct (order !! a) as [x|] eqn:Hx; simpl; [|done]. intros [= <-].
    rewrite insert_at_Permutation. symmetry. by apply delete_Permutation.
Qed.

(** What an iteration leaves of the current and of the best order. *)
Lemma sa_iteration_orders i d s s' :
  sa_iteration i d s = Some s' →
  sample_order s' ≡ₚ sample_order s ∧
  (best_order s' = best_order s ∧ best_energy s' = best_energy s ∨
   best_order s' = sample_order s' ∧
   energy (best_order s') consensus_matrix = Some (best_energy s') ∧
   (best_energy s < best_energy s')%Qc).
Proof.
  unfold Annealing.sa_iteration.
  destruct (energy (sample_order s) consensus_matrix) as [last|]; simpl; [|done].
  destruct (rand_pair (pairs d)) as [ab|]; simpl; [|done].
  destruct (propose (sample_order s) ab) as [proposal|] eqn:Hprop; simpl; [|done].
  apply propose_Permutation in Hprop.
  destruct (energy proposal consensus_matrix) as [new|] eqn:Hnew; simpl; [|done].
  destruct (decide (new < last)%Qc).
  - destruct (decide _); intros [= <-]; simpl; (split; [done|]); by left.
  - destruct (decide (best_energy s < new)%Qc); intros [= <-]; simpl;
      (split; [done|]); [by right | by left].
Qed.

(** The invariant of the loop: both orders are rearrangements of the warm
    start, the best order has the best energy, and that is not below the
    energy of the warm start. *)
Definition orders_inv (order0 : list nat) (e0 : Qc) (s : sa_state) : Prop :=
  sample_order s ≡ₚ order0 ∧ best_order s ≡ₚ order0 ∧
  energy (best_order s) consensus_matrix = Some (best_energy s) ∧
  (e0 ≤ best_energy s)%Qc.

Lemma sa_loop_orders order0 e0 ds i s s' :
  orders_inv order0 e0 s → sa_loop i ds s = Some s' → orders_inv order0 e0 s'.
Proof.
  revert i s. induction ds as [|d ds IH]; intros i s Hs; simpl.
  - by intros [= <-].
  - destruct (decide (i < 4000000)%Z); [|by intros [= <-]].
    destruct (sa_iteration i d s) as [s1|] eqn:Hs1; simpl; [|done].
    assert (orders_inv order0 e0 s1) as Hinv1.
    { destruct Hs as (Hcur & Hbest & Hen & He0).
      destruct (sa_iteration_orders _ _ _ _ Hs1)
        as [Hcur1 [[Hb He]|(Hb & He & Hlt)]].
      - split; [by rewrite Hcur1|]. rewrite Hb, He. done.
      - split; [by rewrite Hcur1|]. split; [by rewrite Hb, Hcur1|].
        split; [done|]. apply Qclt_le_weak. by eapply Qcle_lt_trans. }
    destruct (decide _); [by intros [= <-]|]. by apply IH.
Qed.

(** The orders of the annealing are rearrangements of the warm start: at
    any point of the loop the current order and the best order hold the
    same sample indices as the order the loop started from, each as often
    as there. *)
Theorem annealing_orders_are_permutations
    (order0 : list nat) (ds : list draws) (s0 s : sa_state) :
  sa_start order0 = Some s0 →
  sa_loop 1 ds s0 = Some s →
  sample_order s ≡ₚ order0 ∧ best_order s ≡ₚ order0.
Proof.
  intros Hstart Hloop. unfold Annealing.sa_start in Hstart.
  destruct (energy order0 consensus_matrix) as [e0|] eqn:He0;
    simpl in Hstart; [|done].
  injection Hstart as <-.
  apply (sa_loop_orders order0 e0) in Hloop as (Hcur & Hbest & _); [done|].
  split; [done|]. split; [done|]. split; [done|]. apply Qcle_refl.
Qed.

(** The best order is what the loop hands to the reordering, and
    [best_energy] is its energy: the energy recorded is the energy of the
    order recorded, and it is at least the energy of the warm start. *)
Theorem best_order_has_best_energy
    (order0 : list nat) (ds : list draws) (s0 s : sa_state) :
  sa_start order0 = Some s0 →
  sa_loop 1 ds s0 = Some s →
  energy order0 consensus_matrix = Some (best_energy s0) ∧
  energy (best_order s) consensus_matrix = Some (best_energy s) ∧
  (best_energy s0 ≤ best_energy s)%Qc.
Proof.
  intros Hstart Hloop. unfold Annealing.sa_start in Hstart.
  destruct (energy order0 consensus_matrix) as [e0|] eqn:He0;
    simpl in Hstart; [|done].
  injection Hstart as <-. simpl in *.
  apply (sa_loop_orders order0 e0) in Hloop as (_ & _ & Hen & Hle); [done|].
  split; [done|]. split; [done|]. split; [done|]. apply Qcle_refl.
Qed.

(** With a single sample [randint(0, sample_len - 1)] only returns 0, both
    indices of every pair are equal, and [while (a == b)] draws again:
    however many pairs are drawn, no iteration of the loop gets past the
    redraw. *)
Theorem single_sample_never_proposes (i : Z) (d : draws) (s : sa_state) :
  Forall (λ ab, ab.1 = 0 ∧ ab.2 = 0) (pairs d) →
  rand_pair (pairs d) = None ∧ sa_iteration i d s = None.
Proof.
  intros Hpairs.
  assert (rand_pair (pairs d) = None) as Hnone.
  { induction Hpairs as [|[a b] l [Ha Hb] _ IH]; [done|].
    simpl in *. subst. by rewrite decide_True. }
  split; [done|]. unfold Annealing.sa_iteration. rewrite Hnone.
  by destruct (energy (sample_order s) consensus_matrix).
Qed.

End annealing_facts.

Lemma annealing_orders_are_permutations_witness :
  sample_order example_state ≡ₚ [0; 1; 2] ∧
  best_order example_state ≡ₚ [0; 1; 2].
Proof.
  apply (annealing_orders_are_permutations (energy_lambda 3) example_exp
           Consensus.example_consensus [0; 1; 2] [example_draws]
           example_start example_state); vm_compute; reflexivity.
Defined.

Lemma best_order_has_best_energy_witness :
  energy_lambda 3 [0; 1; 2] Consensus.example_consensus
    = Some (best_energy example_start) ∧
  energy_lambda 3 (best_order example_state) Consensus.example_consensus
    = Some (best_energy example_state) ∧
  (best_energy example_start ≤ best_energy example_state)%Qc.
Proof.
  apply (best_order_has_best_energy (energy_lambda 3) example_exp
           Consensus.example_consensus [0; 1; 2] [example_draws]
           example_start example_state); vm_compute; reflexivity.
Defined.

Lemma single_sample_never_proposes_witness :
  rand_pair [(0, 0); (0, 0); (0, 0)] = None ∧
  sa_iteration (energy_lambda 1) example_exp [[0%Qc]] 1
    {| pairs := [(0, 0); (0, 0); (0, 0)]; ran := 0%Qc |}
    {| sample_order := [0]; temp := Q2Qc (5 # 10); not_accepted := 0;
       last_best := 0; best_energy := 0%Qc; best_order := [0] |} = None.
Proof.
  apply (single_sample_never_proposes (energy_lambda 1) example_exp [[0%Qc]] 1
           {| pairs := [(0, 0); (0, 0); (0, 0)]; ran := 0%Qc |}).
  by repeat constructor.
Defined.

End Annealing.

(** ** PAMCluster *)

Module PAM.

(** [min(l)] on a list of numbers; [None] is the ValueError on [[]]. *)
Definition py_min (l : list Qc) : option Qc :=
  match l with
  | [] => None
  | x :: rest => Some (foldl (λ m y, if decide (y < m)%Qc then y else m) x rest)
  end.

(** [l.sort(reverse=True)] *)
Definition sort_reverse (l : list nat) : list nat :=
  @merge_sort nat (λ a b, b ≤ a) (λ a b, decide (b ≤ a)) l.

(** The objective function:
    [sum([ min([ distance_matrix[x][j] for x in medoids ]) for j in xrange(num_samples) ])]. *)
Definition total_cost (distance_matrix : list (list Qc)) (num_samples : nat)
    (medoids : list nat) : option Qc :=
  mins ← mapM (λ j, ds ← mapM (λ x, mget distance_matrix x j) medoids; py_min ds)
              (xrange 0 num_samples);
  Some (foldl Qcplus 0%Qc mins).

(** The variables that [_cluster_data] carries across candidates, slots
    and passes. *)
Record search : Type := Search {
  medoids : list nat;
  old_cost : Qc;
  swapped : bool
}.

Section swap_search.
Context (distance_matrix : list (list Qc)) (num_samples : nat).

(** The body of [for sample_idx in search_space], for slot [i]; the loop
    carries [new_medoids] besides the search variables. *)
Definition try_candidate (i : nat) (st : list nat * search) (sample_idx : nat)
  : option (list nat * search) :=
  let '(new_medoids, s) := st in
  new_medoids ← py_set new_medoids i sample_idx;
  new_cost ← total_cost distance_matrix num_samples new_medoids;
  if decide (new_cost < old_cost s)%Qc then
    Some (new_medoids,
          {| medoids := new_medoids; old_cost := new_cost; swapped := true |})
  else Some (new_medoids, s).

(** The body of [for i in xrange(self.num_clusters)].  [not_search] is the
    very list [new_medoids], so sorting it sorts [new_medoids]. *)
Definition scan_slot (s : search) (i : nat) : option search :=
  let new_medoids := medoids s in
  old_medoid ← medoids s !! i;
  let search_space := xrange 0 num_samples in
  let not_search := sort_reverse new_medoids in
  let new_medoids := not_search in
  search_space ← foldM py_del search_space not_search;
  st ← foldM (try_candidate i) (new_medoids, s) search_space;
  Some st.2.

(** One turn of [while swapped]. *)
Definition pass (num_clusters : nat) (s : search) : option search :=
  foldM scan_slot
        {| medoids := medoids s; old_cost := old_cost s; swapped := false |}
        (xrange 0 num_clusters).

(** [while swapped], for at most [fuel] turns; [None] also when the turns
    are used up. *)
Fixpoint swap_loop (fuel : nat) (num_clusters : nat) (s : search) : option search :=
  match fuel with
  | 0 => None
  | S fuel' =>
      if swapped s then s' ← pass num_clusters s; swap_loop fuel' num_clusters s'
      else Some s
  end.

(** [_cluster_data] *)
Definition _cluster_data (fuel : nat) (num_clusters : nat) (medoids : list nat)
  : option (list nat) :=
  old_cost ← total_cost distance_matrix num_samples medoids;
  s ← swap_loop fuel num_clusters
        {| medoids := medoids; old_cost := old_cost; swapped := true |};
  Some (PAM.medoids s).

End swap_search.

(** *** The search that the specification words describe

    Scan the slots in order and, for each, the non-medoid samples in index
    order; adopt the first replacement that strictly lowers the total cost
    and start again from slot 0; stop when a whole scan finds none.
    [slots] says how the slots are numbered: as the medoid list stands
    ([id]), or as [_cluster_data] numbers them ([sort_reverse]). *)

Definition improves (distance_matrix : list (list Qc)) (num_samples : nat)
    (cost : Qc) (medoids : list nat) : bool :=
  match total_cost distance_matrix num_samples medoids with
  | Some new_cost => bool_decide (new_cost < cost)%Qc
  | None => false
  end.

Definition first_improving (distance_matrix : list (list Qc)) (num_samples : nat)
    (slots : list nat → list nat) (num_clusters : nat)
    (medoids : list nat) (cost : Qc) : option (list nat) :=
  let candidates :=
    i ← xrange 0 num_clusters;
    c ← filter (λ c, c ∉ medoids) (xrange 0 num_samples);
    [<[i := c]> (slots medoids)] in
  head (filter (λ m, improves distance_matrix num_samples cost m = true) candidates).

Fixpoint first_improvement_search (fuel : nat)
    (distance_matrix : list (list Qc)) (num_samples : nat)
    (slots : list nat → list nat) (num_clusters : nat)
    (medoids : list nat) : option (list nat) :=
  match fuel with
  | 0 => None
  | S fuel' =>
      cost ← total_cost distance_matrix num_samples medoids;
      match first_improving distance_matrix num_samples slots num_clusters
                            medoids cost with
      | Some medoids' =>
          first_improvement_search fuel' distance_matrix num_samples slots
                                   num_clusters medoids'
      | None => Some medoids
      end
  end.

(** Five samples on which the two searches part. *)
Definition example_distances : list (list Qc) :=
  map (map Qc_of_Z)
      [ [0; 3; 1; 3; 3];
        [3; 0; 4; 3; 4];
        [1; 4; 0; 1; 3];
        [3; 3; 1; 0; 2];
        [3; 4; 3; 2; 0] ]%Z.


(** *** What the scan of a slot does *)

Section slot_scan.
Context (distance_matrix : list (list Qc)) (num_samples : nat).
Context (i : nat) (base : list nat).
Hypothesis Hi : i < length base.

Lemma try_candidate_set (new_medoids : list nat) (s : search) (c : nat) :
  i < length new_medoids →
  try_candidate distance_matrix num_samples i (new_medoids, s) c =
  new_cost ← total_cost distance_matrix num_samples (<[i := c]> new_medoids);
  if decide (new_cost < old_cost s)%Qc then
    Some (<[i := c]> new_medoids,
          {| medoids := <[i := c]> new_medoids; old_cost := new_cost;
             swapped := true |})
  else Some (<[i := c]> new_medoids, s).
Proof. intros Hlt. unfold try_candidate, py_set. by rewrite decide_True. Qed.

Lemma try_candidates (l : list nat) (new_medoids : list nat) (s : search) :
  length new_medoids = length base →
  (∀ c, <[i := c]> new_medoids = <[i := c]> base) →
  ∀ new_medoids' s',
    foldM (try_candidate distance_matrix num_samples i) (new_medoids, s) l
      = Some (new_medoids', s') →
    (old_cost s' ≤ old_cost s)%Qc ∧
    (∀ c, c ∈ l →
       ∃ cost_c, total_cost distance_matrix num_samples (<[i := c]> base)
                   = Some cost_c ∧ (old_cost s' ≤ cost_c)%Qc) ∧
    (s' = s ∨
     ∃ c, c ∈ l ∧ medoids s' = <[i := c]> base ∧
          total_cost distance_matrix num_samples (medoids s') = Some (old_cost s') ∧
          (old_cost s' < old_cost s)%Qc ∧ swapped s' = true).
Proof.
  revert new_medoids s. induction l as [|c l IH]; intros nm s Hlen Hnm nm' s'.
  - intros [= <- <-]. split; [apply Qcle_refl|]. split; [|by left].
    intros c Hc. by apply elem_of_nil in Hc.
  - rewrite foldM_cons, try_candidate_set by lia. rewrite Hnm.
    destruct (total_cost distance_matrix num_samples (<[i := c]> base))
      as [cost_c|] eqn:Hcost; simpl; [|done].
    assert (length (<[i := c]> base) = length base) as Hlen1
      by apply length_insert.
    assert (∀ c', <[i := c']> (<[i := c]> base) = <[i := c']> base) as Hnm1
      by (intros c'; apply list_insert_insert_eq).
    destruct (decide (cost_c < old_cost s)%Qc) as [Hlt|Hge]; intros Hrest.
    + destruct (IH _ _ Hlen1 Hnm1 _ _ Hrest) as (Hle & Hall & Hlast).
      simpl in Hle. split; [|split].
      * apply Qclt_le_weak. by eapply Qcle_lt_trans.
      * intros c' Hc'. apply elem_of_cons in Hc' as [->|Hc']; [|by apply Hall].
        by exists cost_c.
      * right. destruct Hlast as [->|(c' & Hc' & Hm & Hcost' & Hlt' & Hsw)].
        -- exists c. simpl. split; [by left|]. done.
        -- exists c'. split; [by right|]. split; [done|]. split; [done|].
           split; [|done]. simpl in Hlt'. by eapply Qclt_trans.
    + apply Qcnot_lt_le in Hge.
      destruct (IH _ _ Hlen1 Hnm1 _ _ Hrest) as (Hle & Hall & Hlast).
      split; [done|]. split.
      * intros c' Hc'. apply elem_of_cons in Hc' as [->|Hc']; [|by apply Hall].
        exists cost_c. split; [done|]. by eapply Qcle_trans.
      * destruct Hlast as [->|(c' & Hc' & Hm & Hcost' & Hlt' & Hsw)]; [by left|].
        right. exists c'. split; [by right|]. done.
Qed.

End slot_scan.

(** The outcome of scanning slot [i] from the search state [s]: every
    candidate of the slot has been costed against the sorted medoid list
    of [s], none of them is cheaper than what the scan leaves, and the
    scan leaves either [s] untouched or the replacement by one of the
    candidates, strictly cheaper than [s]. *)
Definition slot_scanned (distance_matrix : list (list Qc)) (num_samples : nat)
    (i : nat) (s s' : search) : Prop :=
  let base := sort_reverse (medoids s) in
  ∃ search_space,
    foldM py_del (xrange 0 num_samples) base = Some search_space ∧
    (old_cost s' ≤ old_cost s)%Qc ∧
    (∀ c, c ∈ search_space →
       ∃ cost_c, total_cost distance_matrix num_samples (<[i := c]> base)
                   = Some cost_c ∧ (old_cost s' ≤ cost_c)%Qc) ∧
    (s' = s ∨
     ∃ c, c ∈ search_space ∧ medoids s' = <[i := c]> base ∧
          total_cost distance_matrix num_samples (medoids s') = Some (old_cost s') ∧
          (old_cost s' < old_cost s)%Qc ∧ swapped s' = true).

Lemma scan_slot_scanned distance_matrix num_samples s i s' :
  scan_slot distance_matrix num_samples s i = Some s' →
  slot_scanned distance_matrix num_samples i s s'.
Proof.
  unfold scan_slot, slot_scanned.
  destruct (medoids s !! i) as [old_medoid|] eqn:Hold; simpl; [|done].
  destruct (foldM py_del _ _) as [search_space|]; simpl; [|done].
  destruct (foldM (try_candidate _ _ _) _ _) as [[nm' s1]|] eqn:Hscan;
    simpl; [|done].
  intros [= <-]. exists search_space. split; [done|].
  apply (try_candidates distance_matrix num_samples i
           (sort_reverse (medoids s))) in Hscan; [done| |done|done].
  unfold sort_reverse. rewrite merge_sort_Permutation. by eapply lookup_lt_Some.
Qed.

(** C3, as stated, fails.  From the medoids [[1; 4]] (total cost 8) the
    first strictly improving replacement for slot 0 is sample 0 (cost 7).
    The scan of slot 0 does not stop there: it goes on over samples 2 and
    3 and leaves slot 0 with sample 2 (cost 5) before slot 1 is scanned.
    [_cluster_data] ends with cost 5, whereas adopting the first
    improvement and starting again from slot 0 ends with cost 6, however
    the slots are numbered. *)
Lemma first_improvement_restart_refuted :
  total_cost example_distances 5 [1; 4] = Some (Q2Qc 8) ∧
  first_improving example_distances 5 sort_reverse 2 [1; 4] (Q2Qc 8)
    = Some [0; 1] ∧
  total_cost example_distances 5 [0; 1] = Some (Q2Qc 7) ∧
  scan_slot example_distances 5
            {| medoids := [1; 4]; old_cost := Q2Qc 8; swapped := false |} 0
    = Some {| medoids := [2; 1]; old_cost := Q2Qc 5; swapped := true |} ∧
  _cluster_data example_distances 5 10 2 [1; 4] = Some [2; 1] ∧
  first_improvement_search 10 example_distances 5 id 2 [1; 4] = Some [0; 4] ∧
  first_improvement_search 10 example_distances 5 sort_reverse 2 [1; 4]
    = Some [3; 0] ∧
  total_cost example_distances 5 [2; 1] = Some (Q2Qc 5) ∧
  total_cost example_distances 5 [0; 4] = Some (Q2Qc 6) ∧
  total_cost example_distances 5 [3; 0] = Some (Q2Qc 6).
Proof. repeat split; vm_compute; reflexivity. Qed.


(** *** The objective does not depend on the order of the medoids *)

Lemma fold_min_spec (rest : list Qc) (x : Qc) :
  let m := foldl (λ m y, if decide (y < m)%Qc then y else m) x rest in
  m ∈ x :: rest ∧ ∀ y, y ∈ x :: rest → (m ≤ y)%Qc.
Proof.
  revert x. induction rest as [|z rest IH]; intros x; simpl.
  - split; [by left|]. intros y ->%list_elem_of_singleton. apply Qcle_refl.
  - destruct (decide (z < x)%Qc) as [Hlt|Hge].
    + destruct (IH z) as [Hin Hmin]. split.
      * by right.
      * intros y [->|Hy]%elem_of_cons; [|by apply Hmin].
        eapply Qcle_trans; [apply Hmin; by left|]. by apply Qclt_le_weak.
    + destruct (IH x) as [Hin Hmin]. split.
      * apply elem_of_cons in Hin as [->|Hin]; [by left|]. by right; right.
      * intros y [->|[->|Hy]%elem_of_cons]%elem_of_cons.
        -- apply Hmin. by left.
        -- eapply Qcle_trans; [apply Hmin; by left|]. by apply Qcnot_lt_le.
        -- apply Hmin. by right.
Qed.

(** [min(l)] is the least element of a list that is not empty. *)
Lemma py_min_spec (l : list Qc) (m : Qc) :
  py_min l = Some m ↔ m ∈ l ∧ ∀ y, y ∈ l → (m ≤ y)%Qc.
Proof.
  destruct l as [|x rest]; simpl.
  - split; [done|]. intros [Hin _]. by apply elem_of_nil in Hin.
  - pose proof (fold_min_spec rest x) as [Hin Hmin]. simpl in *. split.
    + by intros [= <-].
    + intros [Hin' Hmin']. f_equal. apply Qcle_antisym; [by apply Hmin|].
      by apply Hmin'.
Qed.

Lemma py_min_is_Some (l : list Qc) : l ≠ [] → is_Some (py_min l).
Proof. destruct l; [done|]. by eexists. Qed.

Lemma py_min_Permutation (l l' : list Qc) : l ≡ₚ l' → py_min l = py_min l'.
Proof.
  intros Hperm. destruct (py_min l') as [m|] eqn:Hm.
  - apply py_min_spec. apply py_min_spec in Hm as [Hin Hmin]. split.
    + by rewrite Hperm.
    + intros y Hy. apply Hmin. by rewrite <- Hperm.
  - destruct l' as [|x l']; [|done].
    apply Permutation_nil_r in Hperm. by subst.
Qed.

Lemma mapM_ext {A B} (f g : A → option B) (l : list A) :
  (∀ x, f x = g x) → mapM f l = mapM g l.
Proof.
  intros Hfg. induction l as [|x l IH]; [done|].
  simpl. by rewrite Hfg, IH.
Qed.

Lemma total_cost_Permutation distance_matrix num_samples (medoids medoids' : list nat) :
  medoids ≡ₚ medoids' →
  total_cost distance_matrix num_samples medoids
  = total_cost distance_matrix num_samples medoids'.
Proof.
  intros Hperm. unfold total_cost. f_equal. apply mapM_ext. intros j.
  destruct (mapM (λ x, mget distance_matrix x j) medoids') as [ds'|] eqn:Hds'.
  - destruct (mapM_Permutation _ _ _ Hperm _ Hds') as (ds & -> & Hds).
    simpl. by apply py_min_Permutation.
  - destruct (mapM (λ x, mget distance_matrix x j) medoids) as [ds|] eqn:Hds;
      [|done].
    symmetry in Hperm.
    destruct (mapM_Permutation _ _ _ Hperm _ Hds) as (ds2 & Hds2 & _).
    congruence.
Qed.


(** *** The search space of a slot *)

Lemma filter_ext_in {A} (P Q : A → Prop) `{∀ x, Decision (P x)}
    `{∀ x, Decision (Q x)} (l : list A) :
  (∀ x, x ∈ l → P x ↔ Q x) → filter P l = filter Q l.
Proof.
  induction l as [|x l IH]; intros HPQ; [done|].
  rewrite !filter_cons. rewrite IH by (intros y Hy; apply HPQ; by right).
  destruct (decide (P x)) as [HP|HP], (decide (Q x)) as [HQ|HQ]; try done.
  - destruct HQ. apply HPQ; [by left|done].
  - destruct HP. apply HPQ; [by left|done].
Qed.

Lemma filter_all {A} (P : A → Prop) `{∀ x, Decision (P x)} (l : list A) :
  Forall P l → filter P l = l.
Proof.
  induction 1 as [|x l HP _ IH]; [done|]. by rewrite filter_cons_True, IH.
Qed.

(** [for idx in not_search: del search_space[idx]] on indices that
    decrease: every deletion hits the number equal to its index. *)
Lemma del_descending (ds : list nat) (d : nat) (tail : list nat) :
  StronglySorted (λ a b, b < a) ds → Forall (λ x, x < d) ds →
  foldM py_del (seq 0 d ++ tail) ds
  = Some (filter (λ x, x ∉ ds) (seq 0 d) ++ tail).
Proof.
  intros Hsorted. revert d tail.
  induction Hsorted as [|d' ds Hsorted IH Hbelow]; intros d tail Hd.
  - simpl. rewrite filter_all; [done|].
    apply Forall_forall. intros x _. apply not_elem_of_nil.
  - apply Forall_cons in Hd as [Hd' Hd].
    rewrite foldM_cons.
    assert (py_del (seq 0 d ++ tail) d' = Some (delete d' (seq 0 d ++ tail)))
      as ->.
    { unfold py_del. rewrite decide_True; [done|].
      rewrite length_app, length_seq. lia. }
    simpl.
    assert (seq 0 d = seq 0 d' ++ d' :: seq (S d') (d - S d')) as Hsplit.
    { replace d with (d' + S (d - S d')) at 1 by lia.
      by rewrite seq_app. }
    rewrite Hsplit, <- app_assoc. simpl.
    pose proof (delete_middle (seq 0 d') (seq (S d') (d - S d') ++ tail) d')
      as Hdel.
    rewrite length_seq in Hdel. rewrite Hdel.
    rewrite IH by done. rewrite !filter_app, <- !app_assoc. f_equal.
    rewrite (filter_ext_in (λ x, x ∉ d' :: ds) (λ x, x ∉ ds) (seq 0 d')); cycle 1.
    { intros x Hx%elem_of_seq. rewrite not_elem_of_cons.
      split; [by intros [_ ?]|]. intros Hx'. split; [lia|done]. }
    f_equal. rewrite filter_cons_False by (intros Hn; apply Hn; by left).
    f_equal. symmetry. apply filter_all, Forall_forall.
    intros x Hx%elem_of_seq. rewrite not_elem_of_cons. split; [lia|].
    intros Hin. rewrite Forall_forall in Hbelow.
    specialize (Hbelow x Hin). simpl in Hbelow. lia.
Qed.

Lemma sort_reverse_Permutation (l : list nat) : sort_reverse l ≡ₚ l.
Proof. unfold sort_reverse. apply merge_sort_Permutation. Qed.

Lemma sort_reverse_descending (l : list nat) :
  NoDup l → StronglySorted (λ a b, b < a) (sort_reverse l).
Proof.
  intros Hnd.
  assert (StronglySorted (λ a b, b ≤ a) (sort_reverse l)) as Hsorted.
  { unfold sort_reverse. apply StronglySorted_merge_sort.
    - intros a b c ? ?. lia.
    - intros a b. lia. }
  rewrite <- sort_reverse_Permutation in Hnd.
  induction Hsorted as [|x k Hsorted IH Hx]; [constructor|].
  apply NoDup_cons in Hnd as [Hnotin Hnd].
  constructor; [by apply IH|].
  apply Forall_forall. intros y Hy. rewrite Forall_forall in Hx.
  specialize (Hx y Hy). simpl in Hx.
  assert (y ≠ x) by (intros ->; done). lia.
Qed.

(** The medoids as [random.sample] returns them and as the search keeps
    them: [num_clusters] distinct sample indices. *)
Definition valid_medoids (num_samples num_clusters : nat) (medoids : list nat)
  : Prop :=
  length medoids = num_clusters ∧ NoDup medoids ∧
  Forall (λ x, x < num_samples) medoids.

(** The candidates of a slot are the samples that are not medoids, in
    index order. *)
Lemma search_space_non_medoids num_samples num_clusters medoids :
  valid_medoids num_samples num_clusters medoids →
  foldM py_del (xrange 0 num_samples) (sort_reverse medoids)
  = Some (filter (λ c, c ∉ medoids) (xrange 0 num_samples)).
Proof.
  intros (_ & Hnd & Hrange). unfold xrange. rewrite Nat.sub_0_r.
  rewrite <- (app_nil_r (seq 0 num_samples)) at 1.
  rewrite del_descending.
  - rewrite app_nil_r. f_equal. apply list_filter_iff. intros x.
    by rewrite sort_reverse_Permutation.
  - by apply sort_reverse_descending.
  - by rewrite sort_reverse_Permutation.
Qed.


(** *** What the search keeps *)

Lemma insert_Permutation_delete {A} (l : list A) (i : nat) (c : A) :
  i < length l → <[i := c]> l ≡ₚ c :: delete i l.
Proof.
  intros Hi. rewrite insert_take_drop by done. rewrite delete_take_drop.
  by rewrite <- Permutation_middle.
Qed.

(** Replacing a medoid by a sample that is not one keeps the medoids
    valid. *)
Lemma valid_medoids_swap num_samples num_clusters medoids i c :
  valid_medoids num_samples num_clusters medoids →
  i < num_clusters → c < num_samples → c ∉ medoids →
  valid_medoids num_samples num_clusters (<[i := c]> medoids).
Proof.
  intros (Hlen & Hnd & Hrange) Hi Hc Hnotin. split; [by rewrite length_insert|].
  split.
  - rewrite insert_Permutation_delete by lia. apply NoDup_cons. split.
    + intros Hin. apply Hnotin. by eapply list_elem_of_delete_inv.
    + eapply sublist_NoDup; [done|apply sublist_delete].
  - by apply Forall_insert.
Qed.

Lemma valid_medoids_Permutation num_samples num_clusters medoids medoids' :
  medoids ≡ₚ medoids' →
  valid_medoids num_samples num_clusters medoids →
  valid_medoids num_samples num_clusters medoids'.
Proof.
  intros Hperm (Hlen & Hnd & Hrange). split; [by rewrite <- Hperm|].
  split; by rewrite <- Hperm.
Qed.

(** *** The search that the amended claim describes

    For each slot in turn the samples that are not medoids are tried in
    index order, and a replacement is adopted whenever it is strictly
    cheaper than the set adopted so far; the scan goes on to the end of
    the slot and then to the next slot.  Another pass from slot 0 follows
    a whole pass that adopted a replacement, and the search returns after
    the first pass that adopted none. *)

(** The candidates of a slot: the samples that are not medoids, in index
    order. *)
Definition non_medoids (num_samples : nat) (medoids : list nat) : list nat :=
  filter (λ c, c ∉ medoids) (xrange 0 num_samples).

(** The medoid set and its cost once the candidates [scanned] have been
    tried for slot [i], starting from [medoids] at [cost]: the cheapest of
    the replacements of the slot by one of [scanned], the one of lowest
    index among equally cheap ones, if that is strictly cheaper than
    [cost], and [medoids] otherwise.  The slots are those of the medoids
    in descending order, the list [_cluster_data] works on. *)
Definition adopted_after (distance_matrix : list (list Qc)) (num_samples : nat)
    (medoids : list nat) (cost : Qc) (i : nat) (scanned : list nat)
  : option (list nat * Qc) :=
  let slots := sort_reverse medoids in
  costed ← mapM (λ c, new_cost ← total_cost distance_matrix num_samples
                                            (<[i := c]> slots);
                      Some (new_cost, c)) scanned;
  match Builtins.py_min_pair costed with
  | Some (new_cost, c) =>
      if decide (new_cost < cost)%Qc then Some (<[i := c]> slots, new_cost)
      else Some (medoids, cost)
  | None => Some (medoids, cost)
  end.

(** The scan of slot [i]: all the candidates are tried. *)
Definition amended_scan_slot (distance_matrix : list (list Qc)) (num_samples : nat)
    (mc : list nat * Qc) (i : nat) : option (list nat * Qc) :=
  adopted_after distance_matrix num_samples mc.1 mc.2 i
                (non_medoids num_samples mc.1).

(** A pass: the slots in order, each from what the slot before left. *)
Definition amended_pass (distance_matrix : list (list Qc))
    (num_samples num_clusters : nat) (mc : list nat * Qc)
  : option (list nat * Qc) :=
  foldM (amended_scan_slot distance_matrix num_samples) mc (xrange 0 num_clusters).

(** At most [fuel] passes: a pass that adopted a replacement, and so
    lowered the cost, is followed by another pass from slot 0; the
    medoids are returned after the first pass that adopted none. *)
Fixpoint amended_passes (fuel : nat) (distance_matrix : list (list Qc))
    (num_samples num_clusters : nat) (mc : list nat * Qc) : option (list nat) :=
  match fuel with
  | 0 => None
  | S fuel' =>
      mc' ← amended_pass distance_matrix num_samples num_clusters mc;
      if decide (mc'.2 < mc.2)%Qc then
        amended_passes fuel' distance_matrix num_samples num_clusters mc'
      else Some mc'.1
  end.

Definition amended_search (fuel : nat) (distance_matrix : list (list Qc))
    (num_samples num_clusters : nat) (medoids : list nat) : option (list nat) :=
  cost ← total_cost distance_matrix num_samples medoids;
  amended_passes fuel distance_matrix num_samples num_clusters (medoids, cost).

Lemma mapM_snoc {A B} (f : A → option B) (l : list A) (x : A) :
  mapM f (l ++ [x]) = ys ← mapM f l; y ← f x; Some (ys ++ [y]).
Proof.
  induction l as [|a l IH]; simpl.
  - by destruct (f x).
  - destruct (f a) as [b|]; simpl; [|done]. rewrite IH.
    destruct (mapM f l) as [ys|]; simpl; [|done]. by destruct (f x).
Qed.

Lemma py_min_pair_snoc (l : list (Qc * nat)) (y : Qc * nat) :
  Builtins.py_min_pair (l ++ [y])
  = Some match Builtins.py_min_pair l with
         | Some m => if decide (Builtins.pair_lt y m) then y else m
         | None => y
         end.
Proof. destruct l as [|x l]; simpl; [done|]. by rewrite foldl_snoc. Qed.

(** The costed candidates are the candidates, each with its cost. *)
Lemma costed_candidates {A} (g : A → option Qc) (l : list A)
    (costed : list (Qc * A)) :
  mapM (λ c, new_cost ← g c; Some (new_cost, c)) l = Some costed →
  ∀ k c, (k, c) ∈ costed → c ∈ l ∧ g c = Some k.
Proof.
  revert costed. induction l as [|a l IH]; intros costed; simpl.
  - intros [= <-] k c Hin. by apply elem_of_nil in Hin.
  - destruct (g a) as [ka|] eqn:Hka; simpl; [|done].
    destruct (mapM _ l) as [rest|]; simpl; [|done].
    intros [= <-] k c [[= -> ->]|Hin]%elem_of_cons.
    + split; [by left|done].
    + destruct (IH rest eq_refl k c Hin). split; [by right|done].
Qed.

Lemma non_medoids_sorted (num_samples : nat) (medoids : list nat) :
  StronglySorted lt (non_medoids num_samples medoids).
Proof.
  unfold non_medoids, xrange. rewrite Nat.sub_0_r. generalize 0.
  induction num_samples as [|n IH]; intros a; simpl; [constructor|].
  rewrite filter_cons. destruct (decide (a ∉ medoids)); [|apply IH].
  constructor; [apply IH|].
  apply Forall_forall. intros x [_ Hx%elem_of_seq]%list_elem_of_filter. lia.
Qed.

Lemma non_medoids_elem (num_samples : nat) (medoids : list nat) (c : nat) :
  c ∈ non_medoids num_samples medoids ↔ c < num_samples ∧ c ∉ medoids.
Proof.
  unfold non_medoids, xrange. rewrite list_elem_of_filter, elem_of_seq.
  split; intros [H1 H2]; (split; [done || lia | done || lia]).
Qed.

Section amended_search_facts.
Context (distance_matrix : list (list Qc)) (num_samples num_clusters : nat).

(** The search variables after the scan of a slot that found [best] the
    cheapest replacement. *)
Definition adopt (s : search) (slots : list nat) (i : nat)
    (best : option (Qc * nat)) : search :=
  match best with
  | Some (new_cost, c) =>
      if decide (new_cost < old_cost s)%Qc then
        {| medoids := <[i := c]> slots; old_cost := new_cost; swapped := true |}
      else s
  | None => s
  end.

(** The loop over the candidates of slot [i], on candidates in index
    order: it raises when the cost of a replacement does, and otherwise
    it has adopted the cheapest replacement, the first among equally
    cheap ones, if that is strictly cheaper than the set it began with. *)
Lemma try_candidates_cheapest (i : nat) (slots : list nat) (s : search)
    (l : list nat) :
  i < length slots → StronglySorted lt l →
  match mapM (λ c, new_cost ← total_cost distance_matrix num_samples
                                         (<[i := c]> slots);
                   Some (new_cost, c)) l with
  | None => foldM (try_candidate distance_matrix num_samples i) (slots, s) l = None
  | Some costed =>
      ∃ new_medoids,
        foldM (try_candidate distance_matrix num_samples i) (slots, s) l
          = Some (new_medoids, adopt s slots i (Builtins.py_min_pair costed)) ∧
        length new_medoids = length slots ∧
        ∀ c, <[i := c]> new_medoids = <[i := c]> slots
  end.
Proof.
  intros Hi. induction l as [|c l IH] using rev_ind; intros Hsorted.
  - simpl. by exists slots.
  - apply StronglySorted_app in Hsorted as (Hlast & Hsorted & _).
    specialize (IH Hsorted). rewrite mapM_snoc, foldM_app.
    destruct (mapM _ l) as [costed|] eqn:Hcosted; simpl; [|by rewrite IH].
    destruct IH as (nm & -> & Hlen & Hnm). cbn [mbind option_bind].
    rewrite try_candidate_set by lia. rewrite Hnm.
    destruct (total_cost distance_matrix num_samples (<[i := c]> slots))
      as [k|] eqn:Hk; simpl; [|done].
    exists (<[i := c]> slots). rewrite py_min_pair_snoc.
    split; [|split; [apply length_insert | intros; apply list_insert_insert_eq]].
    destruct (Builtins.py_min_pair costed) as [[km cm]|] eqn:Hmin; simpl.
    + apply Builtins.py_min_pair_spec in Hmin as [Hin _].
      apply (costed_candidates _ _ _ Hcosted) in Hin as [Hcm _].
      assert (cm < c) as Hlt by (apply Hlast; [done | by left]).
      assert (Builtins.pair_lt (k, c) (km, cm) ↔ (k < km)%Qc) as Hpair.
      { unfold Builtins.pair_lt. simpl. split; [intros [?|[_ ?]]; [done|lia] | by left]. }
      destruct (decide (km < old_cost s)%Qc) as [Hm|Hm]; simpl.
      * destruct (decide (k < km)%Qc) as [Hkm|Hkm].
        -- rewrite decide_True by (by apply Hpair). simpl.
           rewrite decide_True by (by eapply Qclt_trans). done.
        -- rewrite decide_False by (by rewrite Hpair). simpl.
           by rewrite decide_True.
      * apply Qcnot_lt_le in Hm as Hle.
        destruct (decide (k < old_cost s)%Qc) as [Hk0|Hk0].
        -- rewrite decide_True
             by (apply Hpair; by eapply Qclt_le_trans). simpl.
           by rewrite decide_True.
        -- destruct (decide (Builtins.pair_lt (k, c) (km, cm))); simpl;
             by rewrite decide_False.
    + destruct (decide (k < old_cost s)%Qc); done.
Qed.

(** The scan of a slot in [_cluster_data] and in the amended search. *)
Lemma scan_slot_amended (s : search) (i : nat) :
  valid_medoids num_samples num_clusters (medoids s) → i < num_clusters →
  match amended_scan_slot distance_matrix num_samples (medoids s, old_cost s) i with
  | None => scan_slot distance_matrix num_samples s i = None
  | Some mc' =>
      ∃ s', scan_slot distance_matrix num_samples s i = Some s' ∧
            (medoids s', old_cost s') = mc' ∧
            valid_medoids num_samples num_clusters (medoids s') ∧
            (s' = s ∨ swapped s' = true ∧ (old_cost s' < old_cost s)%Qc)
  end.
Proof.
  intros Hvalid Hi. pose proof Hvalid as (Hlen & Hnd & Hrange).
  unfold amended_scan_slot, adopted_after, scan_slot. cbn [fst snd].
  destruct (lookup_lt_is_Some_2 (medoids s) i) as [old_medoid ->]; [lia|].
  simpl. rewrite (search_space_non_medoids _ _ _ Hvalid). simpl.
  fold (non_medoids num_samples (medoids s)).
  assert (i < length (sort_reverse (medoids s))) as Hi'
    by (rewrite sort_reverse_Permutation; lia).
  pose proof (try_candidates_cheapest i (sort_reverse (medoids s)) s
                (non_medoids num_samples (medoids s)) Hi'
                (non_medoids_sorted _ _)) as Hscan.
  destruct (mapM _ (non_medoids num_samples (medoids s))) as [costed|] eqn:Hcosted;
    simpl; [|by rewrite Hscan].
  destruct Hscan as (nm & -> & _). simpl.
  destruct (Builtins.py_min_pair costed) as [[k c]|] eqn:Hmin; simpl.
  - destruct (decide (k < old_cost s)%Qc) as [Hlt|Hge].
    + eexists. split; [done|]. simpl. split; [done|]. split; [|by right].
      apply Builtins.py_min_pair_spec in Hmin as [Hin _].
      apply (costed_candidates _ _ _ Hcosted) in Hin as [Hc _].
      apply non_medoids_elem in Hc as [Hc Hnotin].
      apply valid_medoids_swap; [|done|done|].
      * eapply valid_medoids_Permutation; [|exact Hvalid].
        symmetry. apply sort_reverse_Permutation.
      * by rewrite sort_reverse_Permutation.
    + exists s. split; [done|]. split; [done|]. split; [done|by left].
  - exists s. split; [done|]. split; [done|]. split; [done|by left].
Qed.

(** The slots [l] of a pass, one after the other. *)
Lemma scan_slots_amended (l : list nat) (s : search) :
  valid_medoids num_samples num_clusters (medoids s) →
  Forall (λ i, i < num_clusters) l →
  match foldM (amended_scan_slot distance_matrix num_samples)
              (medoids s, old_cost s) l with
  | None => foldM (scan_slot distance_matrix num_samples) s l = None
  | Some mc' =>
      ∃ s', foldM (scan_slot distance_matrix num_samples) s l = Some s' ∧
            (medoids s', old_cost s') = mc' ∧
            valid_medoids num_samples num_clusters (medoids s') ∧
            (s' = s ∨ swapped s' = true ∧ (old_cost s' < old_cost s)%Qc)
  end.
Proof.
  intros Hvalid Hl. revert s Hvalid.
  induction Hl as [|i l Hi Hl IH]; intros s Hvalid.
  - simpl. exists s. split; [done|]. split; [done|]. split; [done|by left].
  - rewrite !foldM_cons. pose proof (scan_slot_amended s i Hvalid Hi) as Hscan.
    destruct (amended_scan_slot _ _ _ i) as [mc1|]; simpl; [|by rewrite Hscan].
    destruct Hscan as (s1 & -> & <- & Hvalid1 & Hs1). simpl.
    specialize (IH s1 Hvalid1).
    destruct (foldM (amended_scan_slot _ _) _ l) as [mc'|]; [|done].
    destruct IH as (s' & -> & <- & Hvalid' & Hs').
    exists s'. split; [done|]. split; [done|]. split; [done|].
    destruct Hs' as [->|[Hsw Hlt]]; [done|]. right. split; [done|].
    destruct Hs1 as [->|[_ Hlt1]]; [done|]. by eapply Qclt_trans.
Qed.

(** The passes: [while swapped] goes round as long as a pass lowers the
    cost; the first turn of the loop is its last when it finds [swapped]
    down. *)
Lemma swap_loop_amended (fuel : nat) (s : search) :
  valid_medoids num_samples num_clusters (medoids s) → swapped s = true →
  medoids <$> swap_loop distance_matrix num_samples (S fuel) num_clusters s
  = amended_passes fuel distance_matrix num_samples num_clusters
                   (medoids s, old_cost s).
Proof.
  revert s. induction fuel as [|fuel IH]; intros s Hvalid Hsw.
  - simpl. rewrite Hsw. by destruct (pass _ _ _ s).
  - change (swap_loop distance_matrix num_samples (S (S fuel)) num_clusters s)
      with (if swapped s
            then s' ← pass distance_matrix num_samples num_clusters s;
                 swap_loop distance_matrix num_samples (S fuel) num_clusters s'
            else Some s).
    rewrite Hsw. cbn [amended_passes]. unfold pass, amended_pass.
    pose proof (scan_slots_amended (xrange 0 num_clusters)
                  {| medoids := medoids s; old_cost := old_cost s;
                     swapped := false |}) as Hpass.
    cbn [medoids old_cost] in Hpass.
    destruct (foldM (amended_scan_slot _ _) _ _) as [mc'|]; simpl.
    + destruct Hpass as (s' & -> & <- & Hvalid' & Hs'); [done| |].
      { apply Forall_forall. intros i Hi. unfold xrange in Hi.
        apply elem_of_seq in Hi. lia. }
      cbn [mbind option_bind fst snd].
      destruct Hs' as [->|[Hsw' Hlt]].
      * rewrite decide_False; [done|].
        intros Hlt. by apply Qclt_not_eq in Hlt.
      * rewrite decide_True by done. by apply IH.
    + rewrite Hpass; [done|done|].
      apply Forall_forall. intros i Hi. unfold xrange in Hi.
      apply elem_of_seq in Hi. lia.
Qed.

End amended_search_facts.

(** C3, amended.  On [num_clusters] distinct sample indices:
    the candidates of every slot are the samples that are not medoids,
    in index order; after the first [j] of them the loop over the
    candidates of slot [i] has adopted the cheapest replacement tried so
    far, the first among equally cheap ones, if it is strictly cheaper
    than the set the scan of the slot began with, and it goes on from
    there, whatever it has adopted; and the whole of [_cluster_data] is
    the amended search: every slot scanned to its end, the slots in order,
    a new pass from slot 0 only after a whole pass that adopted a
    replacement, the medoids returned after the first pass that adopted
    none.  [S fuel] turns of [while swapped] are [fuel] passes, the last
    turn being the test that ends the loop. *)
Theorem slots_scanned_to_their_end_in_index_order
    (distance_matrix : list (list Qc)) (num_samples num_clusters : nat)
    (medoids : list nat) (cost : Qc) (was_swapped : bool) (i j fuel : nat) :
  valid_medoids num_samples num_clusters medoids →
  foldM py_del (xrange 0 num_samples) (sort_reverse medoids)
    = Some (non_medoids num_samples medoids) ∧
  (i < num_clusters →
   (λ st : list nat * search, (PAM.medoids st.2, old_cost st.2)) <$>
     foldM (try_candidate distance_matrix num_samples i)
           (sort_reverse medoids,
            {| medoids := medoids; old_cost := cost; swapped := was_swapped |})
           (take j (non_medoids num_samples medoids))
   = adopted_after distance_matrix num_samples medoids cost i
                   (take j (non_medoids num_samples medoids))) ∧
  _cluster_data distance_matrix num_samples (S fuel) num_clusters medoids
    = amended_search fuel distance_matrix num_samples num_clusters medoids.
Proof.
  intros Hvalid. split; [by eapply search_space_non_medoids|]. split.
  - intros Hi. destruct Hvalid as (Hlen & _ & _).
    assert (i < length (sort_reverse medoids)) as Hi'
      by (rewrite sort_reverse_Permutation; lia).
    assert (StronglySorted lt (take j (non_medoids num_samples medoids)))
      as Hsorted.
    { pose proof (non_medoids_sorted num_samples medoids) as Hall.
      rewrite <- (take_drop j (non_medoids num_samples medoids)) in Hall.
      by apply StronglySorted_app_1_l in Hall. }
    pose proof (try_candidates_cheapest distance_matrix num_samples i
                  (sort_reverse medoids)
                  {| medoids := medoids; old_cost := cost;
                     swapped := was_swapped |}
                  _ Hi' Hsorted) as Hscan.
    unfold adopted_after.
    destruct (mapM _ (take j _)) as [costed|]; simpl; [|by rewrite Hscan].
    destruct Hscan as (nm & -> & _). simpl. unfold adopt.
    destruct (Builtins.py_min_pair costed) as [[k c]|]; simpl; [|done].
    by destruct (decide (k < cost)%Qc).
  - unfold _cluster_data, amended_search.
    destruct (total_cost distance_matrix num_samples medoids) as [cost0|];
      cbn [mbind option_bind]; [|done].
    pose proof (swap_loop_amended distance_matrix num_samples num_clusters fuel
                  {| medoids := medoids; old_cost := cost0; swapped := true |}
                  Hvalid eq_refl) as Hloop.
    cbn [PAM.medoids old_cost] in Hloop. rewrite <- Hloop.
    by destruct (swap_loop _ _ _ _ _).
Qed.

(** From the medoids [[1; 4]] at cost 8 the candidates are the samples 0,
    2 and 3; after samples 0 (cost 7) and 2 (cost 5) slot 0 holds sample
    2, and the search returns [[2; 1]]. *)
Lemma slots_scanned_to_their_end_in_index_order_witness :
  valid_medoids 5 2 [1; 4] ∧
  foldM py_del (xrange 0 5) (sort_reverse [1; 4]) = Some [0; 2; 3] ∧
  (λ st : list nat * search, (medoids st.2, old_cost st.2)) <$>
    foldM (try_candidate example_distances 5 0)
          (sort_reverse [1; 4],
           {| medoids := [1; 4]; old_cost := Q2Qc 8; swapped := false |})
          (take 2 (non_medoids 5 [1; 4]))
  = Some ([2; 1], Q2Qc 5) ∧
  _cluster_data example_distances 5 10 2 [1; 4] = Some [2; 1].
Proof.
  assert (valid_medoids 5 2 [1; 4]) as Hvalid.
  { split; [done|]. split; [|by repeat constructor].
    apply NoDup_cons. split; [by intros ?%list_elem_of_singleton|].
    apply NoDup_singleton. }
  destruct (slots_scanned_to_their_end_in_index_order example_distances 5 2
              [1; 4] (Q2Qc 8) false 0 2 9 Hvalid) as (H1 & H2 & H3).
  split; [exact Hvalid|].
  split; [rewrite H1; vm_compute; reflexivity|].
  split; [rewrite H2 by lia; vm_compute; reflexivity|].
  rewrite H3. vm_compute. reflexivity.
Defined.

Section search_facts.
Context (distance_matrix : list (list Qc)) (num_samples num_clusters : nat).

Local Abbreviation total_cost := (total_cost distance_matrix num_samples).
Local Abbreviation scan_slot := (scan_slot distance_matrix num_samples).

(** The invariant of the search: the medoids are valid and [old_cost] is
    their total cost. *)
Definition search_inv (s : search) : Prop :=
  valid_medoids num_samples num_clusters (medoids s) ∧
  total_cost (medoids s) = Some (old_cost s).

(** No candidate for slot [i] of the sorted medoids is cheaper than
    [cost]. *)
Definition slot_settled (medoids : list nat) (cost : Qc) (i : nat) : Prop :=
  ∀ c, c < num_samples → c ∉ medoids →
    ∃ cost_c, total_cost (<[i := c]> (sort_reverse medoids)) = Some cost_c ∧
              (cost ≤ cost_c)%Qc.

Lemma scan_slot_inv s i s' :
  search_inv s → i < num_clusters → scan_slot s i = Some s' →
  search_inv s' ∧ (old_cost s' ≤ old_cost s)%Qc ∧
  (swapped s' = false →
     s' = s ∧ slot_settled (medoids s) (old_cost s) i).
Proof.
  intros [Hvalid Hcost] Hi Hscan.
  destruct (scan_slot_scanned _ _ _ _ _ Hscan)
    as (search_space & Hspace & Hle & Hall & Hlast).
  rewrite (search_space_non_medoids _ _ _ Hvalid) in Hspace.
  injection Hspace as <-.
  assert (∀ c, c ∈ filter (λ c, c ∉ medoids s) (xrange 0 num_samples)
               ↔ c < num_samples ∧ c ∉ medoids s) as Hmem.
  { intros c. rewrite list_elem_of_filter. unfold xrange.
    rewrite elem_of_seq. split; [intros [? ?]|intros [? ?]]; split; (done || lia). }
  destruct Hlast as [->|(c & Hc & Hmed & Hcost' & Hlt & Hsw)].
  - split; [done|]. split; [done|]. intros _. split; [done|].
    intros c Hc Hnotin. apply Hall. by apply Hmem.
  - apply Hmem in Hc as [Hc Hnotin]. split; [|split; [done|]].
    + split; [|done]. rewrite Hmed.
      apply valid_medoids_swap; [|done|done|by rewrite sort_reverse_Permutation].
      eapply valid_medoids_Permutation; [|exact Hvalid].
      symmetry. apply sort_reverse_Permutation.
    + intros Hfalse. congruence.
Qed.

Lemma scan_slots_inv (l : list nat) s s' :
  search_inv s → Forall (λ i, i < num_clusters) l →
  foldM scan_slot s l = Some s' →
  search_inv s' ∧ (old_cost s' ≤ old_cost s)%Qc ∧
  (swapped s' = false →
     s' = s ∧ ∀ i, i ∈ l → slot_settled (medoids s) (old_cost s) i).
Proof.
  intros Hs Hl. revert s Hs.
  induction Hl as [|i l Hi Hl IH]; intros s Hs.
  - intros [= <-]. split; [done|]. split; [apply Qcle_refl|].
    intros _. split; [done|]. intros i Hin. by apply elem_of_nil in Hin.
  - rewrite foldM_cons.
    destruct (scan_slot s i) as [s1|] eqn:Hscan; simpl; [|done].
    destruct (scan_slot_inv _ _ _ Hs Hi Hscan) as (Hs1 & Hle1 & Hsame1).
    intros Hrest. destruct (IH _ Hs1 Hrest) as (Hs' & Hle' & Hsame').
    split; [done|]. split; [by eapply Qcle_trans|].
    intros Hfalse. destruct (Hsame' Hfalse) as [-> Hsettled].
    destruct (Hsame1 Hfalse) as [-> Hi']. split; [done|].
    intros j [->|Hj]%elem_of_cons; [done|]. by apply Hsettled.
Qed.

(** [while swapped]: when the loop ends, the last turn went over every
    slot without a swap. *)
Lemma swap_loop_inv fuel s s' :
  search_inv s →
  swap_loop distance_matrix num_samples fuel num_clusters s = Some s' →
  search_inv s' ∧ (old_cost s' ≤ old_cost s)%Qc ∧
  (swapped s = true →
     ∀ i, i < num_clusters → slot_settled (medoids s') (old_cost s') i).
Proof.
  revert s. induction fuel as [|fuel IH]; intros s Hs; simpl; [done|].
  destruct (swapped s) eqn:Hsw.
  - destruct (pass distance_matrix num_samples num_clusters s) as [s1|] eqn:Hpass;
      simpl; [|done].
    unfold pass in Hpass.
    apply scan_slots_inv in Hpass as (Hs1 & Hle1 & Hsame1); [|done|]; cycle 1.
    { apply Forall_forall. intros i Hi. unfold xrange in Hi.
      apply elem_of_seq in Hi. lia. }
    simpl in Hle1. intros Hloop.
    destruct (IH _ Hs1 Hloop) as (Hs' & Hle' & Hopt).
    split; [done|]. split; [by eapply Qcle_trans|]. intros _.
    destruct (swapped s1) eqn:Hsw1; [by apply Hopt|].
    destruct fuel as [|fuel']; simpl in Hloop; [done|].
    rewrite Hsw1 in Hloop. injection Hloop as <-.
    destruct (Hsame1 eq_refl) as [Heq Hsettled].
    intros i Hi. rewrite Heq. simpl. apply Hsettled.
    unfold xrange. apply elem_of_seq. lia.
  - intros [= <-]. split; [done|]. split; [apply Qcle_refl|]. done.
Qed.

End search_facts.


(** *** What [_cluster_data] returns *)

(** The search returns [num_clusters] distinct sample indices again, and
    their total cost is not above the cost of the medoids it started
    from. *)
Theorem search_returns_valid_medoids_of_lower_cost
    (distance_matrix : list (list Qc)) (num_samples num_clusters fuel : nat)
    (medoids0 medoids : list nat) :
  valid_medoids num_samples num_clusters medoids0 →
  _cluster_data distance_matrix num_samples fuel num_clusters medoids0
    = Some medoids →
  valid_medoids num_samples num_clusters medoids ∧
  ∃ cost0 cost,
    total_cost distance_matrix num_samples medoids0 = Some cost0 ∧
    total_cost distance_matrix num_samples medoids = Some cost ∧
    (cost ≤ cost0)%Qc.
Proof.
  intros Hvalid. unfold _cluster_data.
  destruct (total_cost distance_matrix num_samples medoids0) as [cost0|] eqn:Hcost0;
    simpl; [|done].
  destruct (swap_loop _ _ _ _ _) as [s|] eqn:Hloop; simpl; [|done].
  intros [= <-].
  apply (swap_loop_inv distance_matrix num_samples num_clusters) in Hloop
    as ([Hvalid' Hcost'] & Hle & _); [|by split].
  split; [done|]. by exists cost0, (old_cost s).
Qed.

(** The search stops at a local optimum: replacing any one of the medoids
    it returns by any sample that is not a medoid does not lower the
    total cost. *)
Theorem search_returns_local_optimum
    (distance_matrix : list (list Qc)) (num_samples num_clusters fuel : nat)
    (medoids0 medoids : list nat) :
  valid_medoids num_samples num_clusters medoids0 →
  _cluster_data distance_matrix num_samples fuel num_clusters medoids0
    = Some medoids →
  ∃ cost,
    total_cost distance_matrix num_samples medoids = Some cost ∧
    ∀ i c, i < num_clusters → c < num_samples → c ∉ medoids →
      ∃ cost_c,
        total_cost distance_matrix num_samples (<[i := c]> medoids)
          = Some cost_c ∧
        (cost ≤ cost_c)%Qc.
Proof.
  intros Hvalid. unfold _cluster_data.
  destruct (total_cost distance_matrix num_samples medoids0) as [cost0|] eqn:Hcost0;
    simpl; [|done].
  destruct (swap_loop _ _ _ _ _) as [s|] eqn:Hloop; simpl; [|done].
  intros [= <-].
  apply (swap_loop_inv distance_matrix num_samples num_clusters) in Hloop
    as ([Hvalid' Hcost'] & _ & Hopt); [|by split].
  specialize (Hopt eq_refl). exists (old_cost s). split; [done|].
  intros i c Hi Hc Hnotin. destruct Hvalid' as (Hlen & Hnd & Hrange).
  destruct (lookup_lt_is_Some_2 (medoids s) i) as [x Hx]; [lia|].
  assert (x ∈ sort_reverse (medoids s)) as Hin.
  { rewrite sort_reverse_Permutation. by eapply list_elem_of_lookup_2. }
  apply list_elem_of_lookup in Hin as [i' Hx'].
  assert (i' < num_clusters) as Hi'.
  { apply lookup_lt_Some in Hx'. rewrite sort_reverse_Permutation in Hx'. lia. }
  destruct (Hopt i' Hi' c Hc Hnotin) as (cost_c & Hcost_c & Hle).
  exists cost_c. split; [|done]. rewrite <- Hcost_c.
  apply total_cost_Permutation.
  rewrite !insert_Permutation_delete
    by (rewrite ?sort_reverse_Permutation; lia).
  apply Permutation_skip. apply (Permutation_cons_inv (a := x)).
  rewrite <- !delete_Permutation by done.
  symmetry. apply sort_reverse_Permutation.
Qed.

Lemma search_returns_valid_medoids_of_lower_cost_witness :
  valid_medoids 5 2 [2; 1] ∧
  ∃ cost0 cost,
    total_cost example_distances 5 [1; 4] = Some cost0 ∧
    total_cost example_distances 5 [2; 1] = Some cost ∧
    (cost ≤ cost0)%Qc.
Proof.
  apply (search_returns_valid_medoids_of_lower_cost example_distances 5 2 10
           [1; 4] [2; 1]).
  - split; [done|]. split; [|by repeat constructor].
    apply NoDup_cons. split; [by intros ?%list_elem_of_singleton|].
    apply NoDup_singleton.
  - vm_compute. reflexivity.
Defined.

Lemma search_returns_local_optimum_witness :
  ∃ cost,
    total_cost example_distances 5 [2; 1] = Some cost ∧
    ∀ i c, i < 2 → c < 5 → c ∉ [2; 1] →
      ∃ cost_c,
        total_cost example_distances 5 (<[i := c]> [2; 1]) = Some cost_c ∧
        (cost ≤ cost_c)%Qc.
Proof.
  apply (search_returns_local_optimum example_distances 5 2 10 [1; 4] [2; 1]).
  - split; [done|]. split; [|by repeat constructor].
    apply NoDup_cons. split; [by intros ?%list_elem_of_singleton|].
    apply NoDup_singleton.
  - vm_compute. reflexivity.
Defined.


(** *** The search ends *)

(** All lists of [k] sample indices. *)
Fixpoint all_lists (n k : nat) : list (list nat) :=
  match k with
  | 0 => [[]]
  | S k' => x ← seq 0 n; (cons x) <$> all_lists n k'
  end.

Lemma elem_of_all_lists n (m : list nat) :
  Forall (λ x, x < n) m → m ∈ all_lists n (length m).
Proof.
  induction 1 as [|x m Hx _ IH]; simpl; [by left|].
  apply list_elem_of_bind. exists x. split.
  - apply list_elem_of_fmap. by exists m.
  - apply elem_of_seq. lia.
Qed.

Lemma length_filter_lt_mono {A} (P Q : A → Prop) `{∀ x, Decision (P x)}
    `{∀ x, Decision (Q x)} (l : list A) (x0 : A) :
  (∀ x, P x → Q x) → x0 ∈ l → Q x0 → ¬ P x0 →
  length (filter P l) < length (filter Q l).
Proof.
  intros HPQ Hin HQ HP.
  assert (∀ k : list A, length (filter P k) ≤ length (filter Q k)) as Hle.
  { induction k as [|y k IH]; [done|]. rewrite !filter_cons.
    destruct (decide (P y)) as [Hy|Hy].
    - rewrite decide_True by by apply HPQ. simpl. lia.
    - destruct (decide (Q y)); simpl; lia. }
  induction l as [|y l IH]; [by apply elem_of_nil in Hin|].
  rewrite !filter_cons. apply elem_of_cons in Hin as [<-|Hin].
  - rewrite decide_False, decide_True by done. simpl.
    specialize (Hle l). lia.
  - specialize (IH Hin). destruct (decide (P y)) as [Hy|Hy].
    + rewrite decide_True by by apply HPQ. simpl. lia.
    + destruct (decide (Q y)); simpl; lia.
Qed.

Section termination.
Context (distance_matrix : list (list Qc)) (num_samples num_clusters : nat).
Hypothesis distance_matrix_shape : shape num_samples num_samples distance_matrix.
Hypothesis some_cluster : 1 ≤ num_clusters.

Local Abbreviation total_cost := (total_cost distance_matrix num_samples).
Local Abbreviation scan_slot := (scan_slot distance_matrix num_samples).
Local Abbreviation search_inv :=
  (search_inv distance_matrix num_samples num_clusters).

Lemma total_cost_is_Some medoids :
  valid_medoids num_samples num_clusters medoids → is_Some (total_cost medoids).
Proof.
  intros (Hlen & _ & Hrange). unfold PAM.total_cost.
  destruct (mapM_is_Some_2
              (λ j, ds ← mapM (λ x, mget distance_matrix x j) medoids; py_min ds)
              (xrange 0 num_samples)) as [mins ->]; [|by eexists].
  apply Forall_forall. intros j Hj. unfold xrange in Hj.
  apply elem_of_seq in Hj. simpl.
  destruct (mapM_is_Some_2 (λ x, mget distance_matrix x j) medoids) as [ds Hds].
  { eapply Forall_impl; [exact Hrange|]. intros x Hx. simpl.
    apply (mget_is_Some num_samples num_samples); [done|done|lia]. }
  rewrite Hds. simpl. apply py_min_is_Some.
  apply mapM_Some_1, Forall2_length in Hds.
  intros ->. simpl in Hds. lia.
Qed.

Lemma try_candidates_is_Some i (base : list nat) (l : list nat) nm s :
  i < length base → length nm = length base →
  (∀ c, <[i := c]> nm = <[i := c]> base) →
  (∀ c, c ∈ l → is_Some (total_cost (<[i := c]> base))) →
  is_Some (foldM (try_candidate distance_matrix num_samples i) (nm, s) l).
Proof.
  intros Hi. revert nm s. induction l as [|c l IH]; intros nm s Hlen Hnm Hall.
  - by eexists.
  - rewrite foldM_cons, try_candidate_set by lia. rewrite Hnm.
    destruct (Hall c) as [cost_c ->]; [by left|]. simpl.
    destruct (decide (cost_c < old_cost s)%Qc); simpl;
      (apply IH;
       [apply length_insert
       |intros c'; apply list_insert_insert_eq
       |intros c' Hc'; apply Hall; by right]).
Qed.

Lemma scan_slot_is_Some s i :
  search_inv s → i < num_clusters → is_Some (scan_slot s i).
Proof.
  intros [Hvalid Hcost] Hi. unfold PAM.scan_slot.
  pose proof Hvalid as (Hlen & Hnd & Hrange).
  destruct (lookup_lt_is_Some_2 (medoids s) i) as [old_medoid ->]; [lia|].
  simpl. rewrite (search_space_non_medoids _ _ _ Hvalid). simpl.
  destruct (try_candidates_is_Some i (sort_reverse (medoids s))
              (filter (λ c, c ∉ medoids s) (xrange 0 num_samples))
              (sort_reverse (medoids s)) s) as [st ->];
    [by rewrite sort_reverse_Permutation; lia | done | done | | by eexists].
  intros c [Hnotin Hc]%list_elem_of_filter. unfold xrange in Hc.
  apply elem_of_seq in Hc. apply total_cost_is_Some.
  apply valid_medoids_swap; [|done|lia|by rewrite sort_reverse_Permutation].
  eapply valid_medoids_Permutation; [|exact Hvalid].
  symmetry. apply sort_reverse_Permutation.
Qed.

(** A scan either leaves the search as it is or lowers the cost. *)
Lemma scan_slots_progress (l : list nat) s s' :
  foldM scan_slot s l = Some s' →
  s' = s ∨ ((old_cost s' < old_cost s)%Qc ∧ swapped s' = true).
Proof.
  revert s. induction l as [|i l IH]; intros s.
  - intros [= <-]. by left.
  - rewrite foldM_cons.
    destruct (scan_slot s i) as [s1|] eqn:Hscan; simpl; [|done].
    intros Hrest.
    destruct (scan_slot_scanned _ _ _ _ _ Hscan) as (ss & _ & _ & _ & Hlast).
    destruct (IH _ Hrest) as [Heq'|[Hlt Hsw]];
      destruct Hlast as [Heq|(_ & _ & _ & _ & Hlt1 & Hsw1)]; subst.
    + by left.
    + by right.
    + by right.
    + right. split; [|done]. by eapply Qclt_trans.
Qed.

Lemma scan_slots_is_Some (l : list nat) s :
  search_inv s → Forall (λ i, i < num_clusters) l →
  is_Some (foldM scan_slot s l).
Proof.
  intros Hs Hl. revert s Hs. induction Hl as [|i l Hi Hl IH]; intros s Hs.
  - by eexists.
  - rewrite foldM_cons. destruct (scan_slot_is_Some s i Hs Hi) as [s1 Hs1].
    rewrite Hs1. simpl. apply IH.
    by destruct (scan_slot_inv _ _ _ _ _ _ Hs Hi Hs1).
Qed.

(** How many lists of [num_clusters] indices cost less than [cost]. *)
Definition cheaper (cost : Qc) : nat :=
  length (filter (λ m, improves distance_matrix num_samples cost m = true)
                 (all_lists num_samples num_clusters)).

Lemma swap_loop_ends (k : nat) :
  ∀ s, cheaper (old_cost s) < k → search_inv s →
    ∃ fuel s', swap_loop distance_matrix num_samples fuel num_clusters s
               = Some s'.
Proof.
  induction k as [|k IH]; intros s Hk Hs; [lia|].
  destruct (swapped s) eqn:Hsw; [|exists 1, s; simpl; by rewrite Hsw].
  destruct (scan_slots_is_Some (xrange 0 num_clusters)
              {| medoids := medoids s; old_cost := old_cost s; swapped := false |})
    as [s1 Hpass]; [done| |].
  { apply Forall_forall. intros i Hi. unfold xrange in Hi.
    apply elem_of_seq in Hi. lia. }
  pose proof Hpass as Hinv.
  apply (scan_slots_inv distance_matrix num_samples num_clusters) in Hinv
    as (Hs1 & _ & _); [|done|]; cycle 1.
  { apply Forall_forall. intros i Hi. unfold xrange in Hi.
    apply elem_of_seq in Hi. lia. }
  destruct (scan_slots_progress _ _ _ Hpass) as [->|[Hlt Hsw1]].
  - exists 2. eexists. simpl. rewrite Hsw. unfold pass. rewrite Hpass. done.
  - simpl in Hlt. destruct (IH s1) as (fuel & s' & Hloop); [|done|].
    + assert (cheaper (old_cost s1) < cheaper (old_cost s)); [|lia].
      destruct Hs1 as [(Hlen & Hnd & Hrange) Hcost1].
      apply (length_filter_lt_mono _ _ _ (medoids s1)).
      * intros m. unfold improves.
        destruct (total_cost m) as [c|]; [|done].
        rewrite !bool_decide_eq_true. intros Hc. by eapply Qclt_trans.
      * rewrite <- Hlen. by apply elem_of_all_lists.
      * unfold improves. rewrite Hcost1. by apply bool_decide_eq_true.
      * unfold improves. rewrite Hcost1. rewrite bool_decide_eq_true.
        intros Hirr. by apply (Qcle_not_lt _ _ (Qcle_refl (old_cost s1))).
    + exists (S fuel), s'. simpl. rewrite Hsw. unfold pass. rewrite Hpass.
      done.
Qed.

Lemma swap_loop_more_fuel fuel fuel' s s' :
  swap_loop distance_matrix num_samples fuel num_clusters s = Some s' →
  fuel ≤ fuel' →
  swap_loop distance_matrix num_samples fuel' num_clusters s = Some s'.
Proof.
  revert fuel' s. induction fuel as [|fuel IH]; intros fuel' s; simpl; [done|].
  intros Hloop Hle. destruct fuel' as [|fuel']; [lia|]. simpl.
  destruct (swapped s); [|done].
  destruct (pass distance_matrix num_samples num_clusters s) as [s1|];
    simpl in *; [|done].
  apply IH; [done|lia].
Qed.

(** On a square distance matrix and from [num_clusters >= 1] distinct
    sample indices the search ends and returns: every turn of
    [while swapped] that swaps lowers the total cost, and only finitely
    many medoid lists are cheaper than the first. *)
Theorem swap_search_ends (medoids0 : list nat) :
  valid_medoids num_samples num_clusters medoids0 →
  ∃ fuel medoids,
    ∀ fuel', fuel ≤ fuel' →
      _cluster_data distance_matrix num_samples fuel' num_clusters medoids0
        = Some medoids.
Proof.
  intros Hvalid. destruct (total_cost_is_Some medoids0 Hvalid) as [cost0 Hcost0].
  destruct (swap_loop_ends (S (cheaper cost0))
              {| medoids := medoids0; old_cost := cost0; swapped := true |})
    as (fuel & s' & Hloop); [simpl; lia|by split|].
  exists fuel, (medoids s'). intros fuel' Hle. unfold _cluster_data.
  rewrite Hcost0. simpl.
  by rewrite (swap_loop_more_fuel _ _ _ _ Hloop Hle).
Qed.

End termination.

Lemma example_distances_shape : shape 5 5 example_distances.
Proof. split; [done|]. by repeat constructor. Qed.

Lemma swap_search_ends_witness :
  ∃ fuel medoids,
    ∀ fuel', fuel ≤ fuel' →
      _cluster_data example_distances 5 fuel' 2 [1; 4] = Some medoids.
Proof.
  apply (swap_search_ends example_distances 5 2 example_distances_shape
           ltac:(lia) [1; 4]).
  split; [done|]. split; [|by repeat constructor].
  apply NoDup_cons. split; [by intros ?%list_elem_of_singleton|].
  apply NoDup_singleton.
Defined.


(** *** [__init__]: the labels *)

Import Builtins.

(** [min([ (distance_matrix[x][j], x) for x in medoids ])[1]] *)
Definition nearest_medoid (distance_matrix : list (list Qc))
    (medoids : list nat) (j : nat) : option nat :=
  pairs ← mapM (λ x, d ← mget distance_matrix x j; Some (d, x)) medoids;
  m ← py_min_pair pairs;
  Some m.2.

(** [random.sample(xrange(population), k)]: [drawn] is what is drawn;
    ValueError when the sample is larger than the population. *)
Definition random_sample (population k : nat) (drawn : list nat)
  : option (list nat) :=
  if decide (k ≤ population) then Some drawn else None.

(** [PAMCluster.__init__]; the result is the medoids found and the labels
    of [datapoints]. *)
Definition PAMCluster (fuel : nat) (distance : list Qc → list Qc → Qc)
    (datapoints : list (option nat)) (data_matrix : list (list Qc))
    (num_clusters : nat) (distance_matrix : option (list (list Qc)))
    (drawn : list nat) : option (list nat * list (option nat)) :=
  '(num_samples, _) ← Base.BaseCluster datapoints data_matrix;
  distance_matrix ←
    match distance_matrix with
    | None => Base._gen_distance_matrix distance data_matrix num_samples
    | Some D => Some D
    end;
  sample ← random_sample num_samples num_clusters drawn;
  medoids ← _cluster_data distance_matrix num_samples fuel num_clusters sample;
  datapoints ←
    foldM (λ dp j, medoid ← nearest_medoid distance_matrix medoids j;
                   py_set dp j (Some medoid))
          datapoints (xrange 0 num_samples);
  Some (medoids, datapoints).

Lemma nearest_medoid_spec distance_matrix medoids j x :
  nearest_medoid distance_matrix medoids j = Some x →
  x ∈ medoids ∧
  ∃ dx, mget distance_matrix x j = Some dx ∧
    ∀ y dy, y ∈ medoids → mget distance_matrix y j = Some dy →
      (dx ≤ dy)%Qc ∧ (dx = dy → x ≤ y).
Proof.
  unfold nearest_medoid.
  destruct (mapM _ medoids) as [pairs|] eqn:Hpairs; simpl; [|done].
  destruct (py_min_pair pairs) as [m|] eqn:Hm; simpl; [|done].
  intros [= <-]. apply py_min_pair_spec in Hm as [Hin Hmin].
  assert (∀ p, p ∈ pairs ↔
            p.2 ∈ medoids ∧ mget distance_matrix p.2 j = Some p.1) as Hmem.
  { intros p. split.
    - intros [i Hi]%list_elem_of_lookup.
      rewrite (mapM_lookup _ _ _ i Hpairs) in Hi.
      destruct (medoids !! i) as [x|] eqn:Hx; simpl in Hi; [|done].
      destruct (mget distance_matrix x j) as [d|] eqn:Hd; simpl in Hi; [|done].
      injection Hi as <-. simpl. split; [|done]. by eapply list_elem_of_lookup_2.
    - intros [[i Hi]%list_elem_of_lookup Hd]. apply list_elem_of_lookup.
      exists i. rewrite (mapM_lookup _ _ _ i Hpairs), Hi. simpl.
      rewrite Hd. simpl. by destruct p. }
  apply Hmem in Hin as [Hin Hd]. split; [done|]. exists m.1. split; [done|].
  intros y dy Hy Hdy. apply (Hmin (dy, y)). by apply Hmem.
Qed.

(** When [PAMCluster] returns, every sample carries the index of one of
    the medoids found, and that medoid is nearest to it: no medoid is at
    a smaller distance, and among the medoids at that distance it has the
    least index. *)
Theorem labels_are_nearest_medoids
    (fuel : nat) (distance : list Qc → list Qc → Qc)
    (datapoints : list (option nat)) (data_matrix : list (list Qc))
    (num_clusters : nat) (distance_matrix : option (list (list Qc)))
    (drawn medoids : list nat) (labels : list (option nat)) :
  PAMCluster fuel distance datapoints data_matrix num_clusters distance_matrix
             drawn = Some (medoids, labels) →
  ∃ D,
    (distance_matrix = Some D ∨
     distance_matrix = None ∧
     Base._gen_distance_matrix distance data_matrix (length datapoints) = Some D) ∧
    _cluster_data D (length datapoints) fuel num_clusters drawn = Some medoids ∧
    length labels = length datapoints ∧
    ∀ j, j < length datapoints →
      ∃ x dx, labels !! j = Some (Some x) ∧ x ∈ medoids ∧
        mget D x j = Some dx ∧
        ∀ y dy, y ∈ medoids → mget D y j = Some dy →
          (dx ≤ dy)%Qc ∧ (dx = dy → x ≤ y).
Proof.
  unfold PAMCluster, Base.BaseCluster.
  destruct (data_matrix !! 0) as [row|]; simpl; [|done].
  set (n := length datapoints).
  destruct (match distance_matrix with
            | Some D => Some D
            | None => Base._gen_distance_matrix distance data_matrix n
            end) as [D|] eqn:HD; simpl; [|done].
  unfold random_sample. case_decide; simpl; [|done].
  destruct (_cluster_data D n fuel num_clusters drawn) as [ms|] eqn:Hms;
    simpl; [|done].
  destruct (foldM _ datapoints _) as [dp|] eqn:Hdp; simpl; [|done].
  intros [= <- <-]. exists D. split.
  { destruct distance_matrix as [D'|]; [left; congruence | by right]. }
  split; [done|].
  rewrite (foldM_ext _
             (λ dp j, v ← (medoid ← nearest_medoid D ms j; Some (Some medoid));
                      py_set dp j v)) in Hdp
    by (intros dp0 j; by destruct (nearest_medoid D ms j)).
  apply foldM_set_each in Hdp as (Hlen & _ & Hset & _).
  split; [done|]. intros j Hj. destruct (Hset j Hj) as (v & Hv & Hlabel).
  destruct (nearest_medoid D ms j) as [x|] eqn:Hx; simpl in Hv; [|done].
  injection Hv as <-.
  destruct (nearest_medoid_spec _ _ _ _ Hx) as (Hin & dx & Hdx & Hmin).
  by exists x, dx.
Qed.


Lemma labels_are_nearest_medoids_witness :
  let datapoints : list (option nat) := [None; None; None; None; None] in
  let labels := [Some 2; Some 1; Some 2; Some 2; Some 2] in
  let data_matrix := [[0%Qc]; [0%Qc]; [0%Qc]; [0%Qc]; [0%Qc]] in
  ∃ D,
    (Some example_distances = Some D ∨
     Some example_distances = None ∧
     Base._gen_distance_matrix (λ _ _, 0%Qc) data_matrix (length datapoints)
       = Some D) ∧
    _cluster_data D (length datapoints) 10 2 [1; 4] = Some [2; 1] ∧
    length labels = length datapoints ∧
    ∀ j, j < length datapoints →
      ∃ x dx, labels !! j = Some (Some x) ∧ x ∈ [2; 1] ∧
        mget D x j = Some dx ∧
        ∀ y dy, y ∈ [2; 1] → mget D y j = Some dy →
          (dx ≤ dy)%Qc ∧ (dx = dy → x ≤ y).
Proof.
  intros datapoints labels data_matrix.
  apply (labels_are_nearest_medoids 10 (λ _ _, 0%Qc) datapoints data_matrix 2
           (Some example_distances) [1; 4] [2; 1] labels).
  vm_compute. reflexivity.
Defined.

End PAM.

(** ** HierarchicalCluster *)

Module Hierarchical.

(** Modelled from the spec: the merge tree of the module [treetype], which
    is not among the sources.  A leaf carries a sample index ([value]), an
    internal node two children and a merge distance; every node has a
    [cluster_id] attribute, and [sequence] is the ordered sequence of the
    leaf indices under a node. *)
Inductive Tree : Type :=
  | Leaf (value : nat) (cluster_id : option nat)
  | Node (left right : Tree) (dist : Qc) (cluster_id : option nat).

Fixpoint sequence (t : Tree) : list nat :=
  match t with
  | Leaf value _ => [value]
  | Node l r _ _ => sequence l ++ sequence r
  end.

(** The local function [assign_node_clust] of [_assign_clusters]. *)
Fixpoint assign_node_clust (node : Tree) (id : nat) : Tree :=
  match node with
  | Leaf value _ => Leaf value (Some id)
  | Node l r dist _ =>
      Node (assign_node_clust l id) (assign_node_clust r id) dist (Some id)
  end.

(** What the clustering mutates: the list [self.tree] of active nodes and
    the [cluster_id] of every sample of [self.datapoints]. *)
Record state : Type := State {
  tree : list Tree;
  datapoints : list (option nat)
}.

(** The body of the loop of [_assign_clusters] at [i]: the subtree under
    [self.tree[i]] gets the cluster id [i], and so does every sample under
    it. *)
Definition assign_tree_node (st : state) (i : nat) : option state :=
  node ← tree st !! i;
  let node := assign_node_clust node i in
  datapoints ←
    foldM (λ dp index, py_set dp index (Some i))
          (datapoints st) (sequence node);
  Some {| tree := <[i := node]> (tree st); datapoints := datapoints |}.

(** [_assign_clusters] *)
Definition _assign_clusters (st : state) : option state :=
  foldM assign_tree_node st (xrange 0 (length (tree st))).

Section clustering.
(** [linkage] reduces the block of distances between two clusters to one
    number; [maxint] is [sys.maxint]. *)
Context (linkage : list (list Qc) → Qc) (maxint : Qc).
Context (distance_matrix : list (list Qc)).

(** [distance_matrix.take(fst_clust, 0).take(snd_clust, 1)] *)
Definition block (fst_clust snd_clust : list nat) : option (list (list Qc)) :=
  rows ← mapM (λ i, distance_matrix !! i) fst_clust;
  take_columns snd_clust rows.

(** The body of the inner loop of [_cluster_data] at [(k, m)]: the cache
    of linkage distances and the best pair so far ([[maxint]] or
    [[dist, k, m]]). *)
Definition compare_pair (tree : list Tree)
    (st : gmap (list nat * list nat) Qc * (Qc * option (nat * nat)))
    (km : nat * nat)
  : option (gmap (list nat * list nat) Qc * (Qc * option (nat * nat))) :=
  let '(cache, best) := st in
  let '(k, m) := km in
  tk ← tree !! k;
  tm ← tree !! m;
  let fst_clust := sequence tk in
  let snd_clust := sequence tm in
  let key := (fst_clust, snd_clust) in
  '(cache, dist) ←
     match cache !! key with
     | None => b ← block fst_clust snd_clust;
               let dist := linkage b in Some (<[key := dist]> cache, dist)
     | Some dist => Some (cache, dist)
     end;
  if decide (dist < best.1)%Qc then Some (cache, (dist, Some (k, m)))
  else Some (cache, best).

(** One turn of [while len(tree) > 1], after the test. *)
Definition merge_step (num_clusters : nat)
    (cache : gmap (list nat * list nat) Qc) (st : state)
  : option (gmap (list nat * list nat) Qc * state) :=
  st ← (if decide (length (tree st) = num_clusters) then _assign_clusters st
        else Some st);
  let clust_len := length (tree st) in
  '(cache, best) ←
     foldM (λ cb i,
              foldM (λ cb j, compare_pair (tree st) cb (i, i + j))
                    cb (xrange 1 (clust_len - i)))
           (cache, (maxint, None)) (xrange 0 clust_len);
  '(k, m) ← best.2;
  left_node ← tree st !! k;
  right_node ← tree st !! m;
  let tree1 := tree st ++ [Node left_node right_node best.1 None] in
  tree2 ← py_del tree1 m;
  tree3 ← py_del tree2 k;
  Some (cache, {| tree := tree3; datapoints := datapoints st |}).

(** [while len(tree) > 1], for at most [fuel] turns ([None] also when the
    turns are used up; every turn removes one node). *)
Fixpoint merge_loop (fuel : nat) (num_clusters : nat)
    (cache : gmap (list nat * list nat) Qc) (st : state) : option state :=
  if decide (1 < length (tree st)) then
    match fuel with
    | 0 => None
    | S fuel' =>
        '(cache, st) ← merge_step num_clusters cache st;
        merge_loop fuel' num_clusters cache st
    end
  else Some st.

(** [_cluster_data] *)
Definition _cluster_data (fuel : nat) (num_clusters : nat) (st : state)
  : option state :=
  merge_loop fuel num_clusters ∅ st.

(** [__init__] on samples whose labels are [datapoints]: one leaf per
    sample, then [_cluster_data]. *)
Definition HierarchicalCluster (num_clusters : nat) (datapoints : list (option nat))
  : option state :=
  let num_samples := length datapoints in
  _cluster_data num_samples num_clusters
    {| tree := (λ x, Leaf x None) <$> xrange 0 num_samples;
       datapoints := datapoints |}.

(** *** K = 1: the labels are never assigned *)

Lemma merge_step_datapoints num_clusters cache st cache' st' :
  length (tree st) ≠ num_clusters →
  merge_step num_clusters cache st = Some (cache', st') →
  datapoints st' = datapoints st.
Proof.
  intros Hne. unfold merge_step. rewrite decide_False by done. simpl.
  destruct (foldM _ _ _) as [[cache1 best]|]; simpl; [|done].
  destruct best.2 as [[k m]|]; simpl; [|done].
  destruct (tree st !! k) as [left_node|]; simpl; [|done].
  destruct (tree st !! m) as [right_node|]; simpl; [|done].
  destruct (py_del _ m) as [tree2|]; simpl; [|done].
  destruct (py_del tree2 k) as [tree3|]; simpl; [|done].
  by intros [= _ <-].
Qed.

(** C4, at [num_clusters = 1].  No turn of the loop assigns: inside the loop
    [len(tree) > 1], so [len(tree) == num_clusters] is false, and after the
    last merge the loop is left without another test. *)
Theorem single_cluster_never_assigned
    (fuel : nat) (st st' : state) :
  _cluster_data fuel 1 st = Some st' → datapoints st' = datapoints st.
Proof.
  unfold _cluster_data. generalize (∅ : gmap (list nat * list nat) Qc).
  revert st. induction fuel as [|fuel IH]; intros st cache; simpl.
  - destruct (decide (1 < length (tree st))); [done|]. by intros [= <-].
  - destruct (decide (1 < length (tree st))) as [Hlen|_]; [|by intros [= <-]].
    destruct (merge_step 1 cache st) as [[cache' st1]|] eqn:Hstep; simpl; [|done].
    intros Hloop. rewrite (IH _ _ Hloop).
    eapply merge_step_datapoints; [|exact Hstep]. lia.
Qed.

(** *** K = N: every sample is its own cluster *)

(** The leaves [__init__] starts from. *)
Definition leaves (n : nat) : list Tree := (λ x, Leaf x None) <$> xrange 0 n.

Lemma length_leaves n : length (leaves n) = n.
Proof. unfold leaves, xrange. rewrite length_fmap, length_seq. lia. Qed.

Lemma leaves_lookup n j : j < n → leaves n !! j = Some (Leaf j None).
Proof.
  intros Hj. unfold leaves, xrange. rewrite list_lookup_fmap.
  rewrite lookup_seq_lt by lia. done.
Qed.

Lemma sequence_assign_node_clust node id :
  sequence (assign_node_clust node id) = sequence node.
Proof.
  induction node as [value c|l IHl r IHr dist c]; simpl; [done|].
  by rewrite IHl, IHr.
Qed.

Lemma assign_tree_node_length st i st' :
  assign_tree_node st i = Some st' → length (tree st') = length (tree st).
Proof.
  unfold assign_tree_node.
  destruct (tree st !! i) as [node|]; simpl; [|done].
  destruct (foldM _ _ _) as [dp|]; simpl; [|done].
  intros [= <-]. simpl. by rewrite length_insert.
Qed.

Lemma _assign_clusters_length st st' :
  _assign_clusters st = Some st' → length (tree st') = length (tree st).
Proof.
  unfold _assign_clusters. generalize (xrange 0 (length (tree st))).
  intros l Hl.
  apply (foldM_invariant (λ s, length (tree s) = length (tree st))
           assign_tree_node l) with (s := st); [|done|done].
  intros s i s' _ Hs Hstep.
  by rewrite (assign_tree_node_length _ _ _ Hstep).
Qed.

(** On the leaves, the first [p] turns of [_assign_clusters] give the
    samples [0 .. p-1] the labels [0 .. p-1] and leave the rest alone. *)
Lemma assign_leaves_prefix (dp : list (option nat)) (n p : nat) :
  length dp = n → p ≤ n →
  ∃ st', foldM assign_tree_node {| tree := leaves n; datapoints := dp |}
               (xrange 0 p) = Some st' ∧
         length (tree st') = n ∧
         (∀ j, p ≤ j < n → tree st' !! j = Some (Leaf j None)) ∧
         datapoints st' = (Some <$> seq 0 p) ++ drop p dp.
Proof.
  intros Hdp. induction p as [|p IH]; intros Hp.
  - eexists. split; [done|]. simpl. split; [apply length_leaves|].
    split; [|done]. intros j Hj. apply leaves_lookup. lia.
  - destruct IH as (st1 & Hrun & Hlen & Hrest & Hlab); [lia|].
    unfold xrange in *. rewrite Nat.sub_0_r in *. rewrite seq_S, foldM_app, Hrun.
    simpl. unfold assign_tree_node. rewrite (Hrest p) by lia. simpl.
    unfold py_set. rewrite decide_True; cycle 1.
    { rewrite Hlab, length_app, length_fmap, length_seq, length_drop. lia. }
    simpl. eexists. split; [done|]. simpl.
    split; [by rewrite length_insert|]. split.
    + intros j Hj. rewrite list_lookup_insert_ne by lia. apply Hrest. lia.
    + rewrite Hlab. rewrite insert_app_r_alt
        by (rewrite length_fmap, length_seq; lia).
      rewrite length_fmap, length_seq, Nat.sub_diag.
      destruct (lookup_lt_is_Some_2 dp p) as [y Hy]; [lia|].
      rewrite (drop_S _ _ _ Hy). simpl.
      rewrite fmap_app. simpl. by rewrite <- app_assoc.
Qed.

Lemma assign_leaves (dp : list (option nat)) (n : nat) :
  length dp = n →
  ∃ st', _assign_clusters {| tree := leaves n; datapoints := dp |} = Some st' ∧
         length (tree st') = n ∧
         Forall (λ t, Forall (λ i, i < n) (sequence t)) (tree st') ∧
         datapoints st' = Some <$> seq 0 n.
Proof.
  intros Hdp. unfold _assign_clusters. simpl. rewrite length_leaves.
  destruct (assign_leaves_prefix dp n n Hdp) as (st' & Hrun & Hlen & _ & Hlab);
    [done|].
  exists st'. split; [done|]. split; [done|]. split.
  - revert Hrun.
    apply (foldM_invariant
             (λ s, Forall (λ t, Forall (λ i, i < n) (sequence t)) (tree s))).
    + intros s i s' _ Hs. unfold assign_tree_node.
      destruct (tree s !! i) as [node|] eqn:Hnode; simpl; [|done].
      destruct (foldM _ _ _) as [dp'|]; simpl; [|done].
      intros [= <-]. simpl. apply Forall_insert; [done|].
      rewrite sequence_assign_node_clust.
      rewrite Forall_lookup in Hs. by apply (Hs i).
    + simpl. apply Forall_forall. intros t Ht.
      unfold leaves in Ht. apply list_elem_of_fmap in Ht as (x & -> & Hx).
      simpl. apply Forall_singleton. unfold xrange in Hx.
      apply elem_of_seq in Hx. lia.
  - rewrite Hlab, drop_ge by lia. by rewrite app_nil_r.
Qed.

(** The best pair is one of the pairs compared. *)
Lemma compare_pair_best tree cb km cb' :
  compare_pair tree cb km = Some cb' → cb'.2.2 = cb.2.2 ∨ cb'.2.2 = Some km.
Proof.
  destruct cb as [cache best], km as [k m]. unfold compare_pair.
  destruct (tree !! k) as [tk|]; simpl; [|done].
  destruct (tree !! m) as [tm|]; simpl; [|done].
  destruct (cache !! _) as [dist|]; simpl.
  - case_decide; intros [= <-]; simpl; auto.
  - destruct (block _ _) as [b|]; simpl; [|done].
    case_decide; intros [= <-]; simpl; auto.
Qed.

Lemma best_pair_in_range tree n cache cb k m :
  foldM (compare_pair tree) (cache, (maxint, None)) (upper_pairs n) = Some cb →
  cb.2.2 = Some (k, m) → k < m ∧ m < n.
Proof.
  intros Hrun. revert k m.
  apply (foldM_invariant (λ cb, ∀ k m, cb.2.2 = Some (k, m) → k < m ∧ m < n)
           (compare_pair tree) (upper_pairs n)) with (s := (cache, (maxint, None)));
    [|done|done].
  intros s [k' m'] s' Hin Hs Hstep k m Hbest.
  destruct (compare_pair_best _ _ _ _ Hstep) as [Heq|Heq].
  - apply Hs. by rewrite <- Heq.
  - rewrite Hbest in Heq. injection Heq as -> ->.
    by apply elem_of_upper_pairs.
Qed.

(** What one turn of the loop does to the state. *)
Lemma merge_step_inv num_clusters cache st cache' st' :
  merge_step num_clusters cache st = Some (cache', st') →
  ∃ st1 k m left_node right_node dist,
    (if decide (length (tree st) = num_clusters)
     then _assign_clusters st = Some st1 else st1 = st) ∧
    k < m ∧ m < length (tree st1) ∧
    tree st1 !! k = Some left_node ∧ tree st1 !! m = Some right_node ∧
    tree st' = delete k (delete m (tree st1 ++ [Node left_node right_node dist None])) ∧
    datapoints st' = datapoints st1.
Proof.
  unfold merge_step.
  destruct (if decide (length (tree st) = num_clusters)
            then _assign_clusters st else Some st) as [st1|] eqn:Hst1;
    simpl; [|done].
  rewrite (foldM_upper_pairs (compare_pair (tree st1))).
  destruct (foldM _ _ _) as [[cache1 best]|] eqn:Hbest; simpl; [|done].
  destruct best.2 as [[k m]|] eqn:Hkm; simpl; [|done].
  destruct (best_pair_in_range _ _ _ _ k m Hbest Hkm) as [Hk Hm].
  destruct (tree st1 !! k) as [left_node|] eqn:Hl; simpl; [|done].
  destruct (tree st1 !! m) as [right_node|] eqn:Hr; simpl; [|done].
  unfold py_del.
  destruct (decide (m < _)); simpl; [|done].
  destruct (decide (k < _)); simpl; [|done].
  intros [= _ <-]. exists st1, k, m, left_node, right_node, best.1.
  split; [|done].
  destruct (decide (length (tree st) = num_clusters)); [done|congruence].
Qed.

(** Every turn takes two nodes off the list and puts one on. *)
Lemma merge_step_length num_clusters cache st cache' st' :
  merge_step num_clusters cache st = Some (cache', st') →
  S (length (tree st')) = length (tree st).
Proof.
  intros (st1 & k & m & l & r & d & Hst1 & Hk & Hm & _ & _ & -> & _)%merge_step_inv.
  assert (length (tree st1) = length (tree st)) as <-.
  { destruct (decide _); [by apply _assign_clusters_length | by subst]. }
  rewrite length_delete; cycle 1.
  { apply lookup_lt_is_Some_2. rewrite length_delete.
    - rewrite length_app. simpl. lia.
    - apply lookup_lt_is_Some_2. rewrite length_app. simpl. lia. }
  rewrite length_delete
    by (apply lookup_lt_is_Some_2; rewrite length_app; simpl; lia).
  rewrite length_app. simpl. lia.
Qed.

(** Once the list is shorter than [num_clusters], nothing assigns. *)
Lemma merge_loop_below fuel num_clusters cache st st' :
  length (tree st) < num_clusters →
  merge_loop fuel num_clusters cache st = Some st' →
  datapoints st' = datapoints st.
Proof.
  revert cache st. induction fuel as [|fuel IH]; intros cache st Hlt; simpl.
  - case_decide; [done|]. by intros [= <-].
  - case_decide; [|by intros [= <-]].
    destruct (merge_step _ cache st) as [[cache1 st1]|] eqn:Hstep; simpl; [|done].
    intros Hloop. transitivity (datapoints st1).
    + apply (IH cache1 st1); [|done]. apply merge_step_length in Hstep. lia.
    + eapply merge_step_datapoints; [|exact Hstep]. lia.
Qed.

Lemma merge_loop_assigns_first fuel cache (dp : list (option nat)) st :
  2 ≤ length dp →
  merge_loop fuel (length dp) cache
    {| tree := leaves (length dp); datapoints := dp |} = Some st →
  datapoints st = Some <$> seq 0 (length dp).
Proof.
  intros Hn.
  destruct fuel as [|fuel]; cbn [merge_loop tree]; rewrite length_leaves;
    rewrite decide_True by lia; [done|].
  destruct (merge_step _ _ _) as [[cache1 st1]|] eqn:Hstep; simpl; [|done].
  intros Hloop.
  assert (length (tree st1) < length dp) as Hlt.
  { apply merge_step_length in Hstep. cbn [tree] in Hstep.
    rewrite length_leaves in Hstep. lia. }
  rewrite (merge_loop_below _ _ _ _ _ Hlt Hloop).
  apply merge_step_inv in Hstep
    as (st0 & k & m & l & r & d & Hst0 & _ & _ & _ & _ & _ & ->).
  cbn [tree] in Hst0. rewrite length_leaves, decide_True in Hst0 by done.
  destruct (assign_leaves dp (length dp) eq_refl) as (st0' & Hrun & _ & _ & Hlab).
  congruence.
Qed.

(** The K = N half of C4, for [N >= 2]: the first turn of the loop finds
    [len(tree) == num_clusters] and labels sample [i] with [i], and no later
    turn assigns again, so a run that returns leaves every sample in a
    cluster of its own. *)
Theorem every_sample_its_own_cluster (dp : list (option nat)) (st : state) :
  2 ≤ length dp →
  HierarchicalCluster (length dp) dp = Some st →
  datapoints st = Some <$> seq 0 (length dp).
Proof.
  intros Hn. unfold HierarchicalCluster, _cluster_data.
  by apply merge_loop_assigns_first.
Qed.

(** A block holds entries of the distance matrix only. *)
Lemma block_entries fst_clust snd_clust b :
  block fst_clust snd_clust = Some b →
  Forall (Forall (λ x, ∃ i j, mget distance_matrix i j = Some x)) b.
Proof.
  unfold block.
  destruct (mapM _ fst_clust) as [rows|] eqn:Hrows; simpl; [|done].
  unfold take_columns. intros Hb.
  apply Forall_lookup. intros a brow Hbrow.
  rewrite (mapM_lookup _ _ _ a Hb) in Hbrow.
  destruct (rows !! a) as [row|] eqn:Hrow; simpl in Hbrow; [|done].
  rewrite (mapM_lookup _ _ _ a Hrows) in Hrow.
  destruct (fst_clust !! a) as [i|]; simpl in Hrow; [|done].
  apply Forall_lookup. intros c x Hx.
  rewrite (mapM_lookup _ _ _ c Hbrow) in Hx.
  destruct (snd_clust !! c) as [j|]; simpl in Hx; [|done].
  exists i, j. unfold mget. by rewrite Hrow.
Qed.

(** *** 2 <= K <= N: the labels are K groups *)

(** The active nodes cover the samples [0 .. n-1], each under one node
    and once. *)
Definition covers (n : nat) (t : list Tree) : Prop :=
  concat (sequence <$> t) ≡ₚ seq 0 n.

Lemma elem_of_concat {A} (x : A) (ls : list (list A)) :
  x ∈ concat ls ↔ ∃ i l, ls !! i = Some l ∧ x ∈ l.
Proof.
  induction ls as [|l0 ls IH]; simpl.
  - split; [by intros ?%elem_of_nil | by intros (i & l & ? & _)].
  - rewrite elem_of_app, IH. split.
    + intros [H0|(i & l & Hl & Hx)]; [by exists 0, l0 | by exists (S i), l].
    + intros ([|i] & l & Hl & Hx); simpl in Hl.
      * left. congruence.
      * right. by exists i, l.
Qed.

Lemma NoDup_concat_disjoint {A} (ls : list (list A)) i j a b x :
  NoDup (concat ls) → ls !! i = Some a → ls !! j = Some b →
  x ∈ a → x ∈ b → i = j.
Proof.
  revert i j. induction ls as [|l0 ls IH]; intros i j Hnd Hi Hj Ha Hb; [done|].
  simpl in Hnd. apply NoDup_app in Hnd as (_ & Hdisj & Hnd).
  destruct i as [|i], j as [|j]; simpl in Hi, Hj.
  - done.
  - injection Hi as ->. destruct (Hdisj x Ha). apply elem_of_concat. by exists j, b.
  - injection Hj as ->. destruct (Hdisj x Hb). apply elem_of_concat. by exists i, a.
  - f_equal. by apply IH.
Qed.

Lemma sequence_nonempty (node : Tree) : ∃ k, k ∈ sequence node.
Proof.
  induction node as [value c|l [k Hk] r _ dist c]; simpl.
  - exists value. by left.
  - exists k. apply elem_of_app. by left.
Qed.

Lemma covers_leaves n : covers n (leaves n).
Proof.
  unfold covers, leaves, xrange. rewrite Nat.sub_0_r.
  generalize (seq 0 n). intros l.
  induction l as [|x l IH]; simpl; [done|]. by constructor.
Qed.

Lemma covers_NoDup n t : covers n t → NoDup (concat (sequence <$> t)).
Proof. intros Hc. unfold covers in Hc. rewrite Hc. apply NoDup_seq. Qed.

Lemma covers_lt n t i node k :
  covers n t → t !! i = Some node → k ∈ sequence node → k < n.
Proof.
  intros Hc Hi Hk.
  assert (k ∈ concat (sequence <$> t)) as Hin.
  { apply elem_of_concat. exists i, (sequence node).
    by rewrite list_lookup_fmap, Hi. }
  unfold covers in Hc. rewrite Hc in Hin. apply elem_of_seq in Hin. lia.
Qed.

Lemma covers_sample n t k :
  covers n t → k < n → ∃ i node, t !! i = Some node ∧ k ∈ sequence node.
Proof.
  intros Hc Hk.
  assert (k ∈ concat (sequence <$> t)) as Hin.
  { unfold covers in Hc. rewrite Hc. apply elem_of_seq. lia. }
  apply elem_of_concat in Hin as (i & l & Hl & Hin).
  rewrite list_lookup_fmap in Hl.
  destruct (t !! i) as [node|] eqn:Hnode; simpl in Hl; [|done].
  injection Hl as <-. by exists i, node.
Qed.

(** A merge puts the samples of its two nodes under the new node. *)
Lemma covers_merge n t k m left_node right_node dist c :
  covers n t → k < m →
  t !! k = Some left_node → t !! m = Some right_node →
  covers n (delete k (delete m (t ++ [Node left_node right_node dist c]))).
Proof.
  unfold covers. intros Hc Hkm Hk Hm.
  set (node := Node left_node right_node dist c).
  assert ((t ++ [node]) !! m = Some right_node) as Hm'.
  { rewrite lookup_app_l; [done|]. by eapply lookup_lt_Some. }
  assert (delete m (t ++ [node]) !! k = Some left_node) as Hk'.
  { rewrite list_lookup_delete_lt by done.
    rewrite lookup_app_l; [done|]. by eapply lookup_lt_Some. }
  pose proof (delete_Permutation _ _ _ Hm') as Hp1.
  pose proof (delete_Permutation _ _ _ Hk') as Hp2.
  rewrite Hp2 in Hp1.
  assert (concat (sequence <$> (t ++ [node]))
          ≡ₚ concat (sequence <$> right_node :: left_node ::
                       delete k (delete m (t ++ [node])))) as Hp
    by (by rewrite <- Hp1).
  rewrite fmap_app, concat_app in Hp. simpl in Hp. rewrite app_nil_r in Hp.
  rewrite <- Hc. symmetry.
  apply (Permutation_app_inv_l (sequence left_node ++ sequence right_node)).
  rewrite (Permutation_app_comm _ (concat (sequence <$> t))), Hp.
  rewrite !app_assoc. apply Permutation_app_tail, Permutation_app_comm.
Qed.

(** [for index in sequence: datapoints[index].cluster_id = i] *)
Lemma set_cluster_ids (v : option nat) (l : list nat) (dp dp' : list (option nat)) :
  foldM (λ dp index, py_set dp index v) dp l = Some dp' →
  length dp' = length dp ∧
  ∀ k, dp' !! k = if decide (k ∈ l) then Some v else dp !! k.
Proof.
  revert dp. induction l as [|x l IH]; intros dp.
  - intros [= <-]. split; [done|]. intros k. rewrite decide_False; [done|].
    by intros ?%elem_of_nil.
  - rewrite foldM_cons. destruct (py_set dp x v) as [dp1|] eqn:Hset; simpl; [|done].
    unfold py_set in Hset. case_decide as Hlt; [|done]. injection Hset as <-.
    intros [Hlen Hdp']%IH. rewrite length_insert in Hlen. split; [done|].
    intros k. rewrite Hdp'. destruct (decide (k ∈ l)) as [Hin|Hnin].
    + rewrite decide_True; [done|]. by right.
    + destruct (decide (k = x)) as [->|Hne].
      * rewrite decide_True by (by left). by apply list_lookup_insert_eq.
      * rewrite decide_False; [by apply list_lookup_insert_ne|].
        by intros [?|?]%elem_of_cons.
Qed.

Lemma assign_tree_node_sequences st i st' :
  assign_tree_node st i = Some st' →
  sequence <$> tree st' = sequence <$> tree st ∧
  length (datapoints st') = length (datapoints st).
Proof.
  unfold assign_tree_node.
  destruct (tree st !! i) as [node|] eqn:Hnode; simpl; [|done].
  destruct (foldM _ _ _) as [dp|] eqn:Hdp; simpl; [|done].
  intros [= <-]. simpl. split.
  - rewrite list_fmap_insert, sequence_assign_node_clust.
    apply list_insert_id. by rewrite list_lookup_fmap, Hnode.
  - by apply set_cluster_ids in Hdp as [Hlen _].
Qed.

(** The first [p] turns of [_assign_clusters] label the samples under the
    first [p] nodes, each with the position of its node. *)
Lemma assign_prefix st p st' :
  NoDup (concat (sequence <$> tree st)) →
  foldM assign_tree_node st (xrange 0 p) = Some st' →
  sequence <$> tree st' = sequence <$> tree st ∧
  ∀ i node k, i < p → tree st !! i = Some node → k ∈ sequence node →
              datapoints st' !! k = Some (Some i).
Proof.
  intros Hnd. revert st'. induction p as [|p IH]; intros st'.
  - intros [= <-]. split; [done|]. intros; lia.
  - unfold xrange in *. rewrite Nat.sub_0_r in *. rewrite seq_S, foldM_app.
    destruct (foldM _ st (seq 0 p)) as [st1|]; simpl; [|done].
    destruct (IH st1 eq_refl) as [Hseq1 Hlab1].
    destruct (assign_tree_node st1 p) as [st2|] eqn:Hstep; simpl; [|done].
    intros [= <-].
    pose proof (assign_tree_node_sequences _ _ _ Hstep) as [Hseq2 _].
    split; [congruence|].
    unfold assign_tree_node in Hstep.
    destruct (tree st1 !! p) as [node_p|] eqn:Hnode_p; simpl in Hstep; [|done].
    destruct (foldM _ _ _) as [dp2|] eqn:Hdp2; simpl in Hstep; [|done].
    injection Hstep as <-. simpl.
    apply set_cluster_ids in Hdp2 as [_ Hdp2].
    rewrite sequence_assign_node_clust in Hdp2.
    assert ((sequence <$> tree st) !! p = Some (sequence node_p)) as Hp.
    { by rewrite <- Hseq1, list_lookup_fmap, Hnode_p. }
    intros i node k Hi Hnode Hk. rewrite Hdp2.
    assert ((sequence <$> tree st) !! i = Some (sequence node)) as Hi'
      by (by rewrite list_lookup_fmap, Hnode).
    destruct (decide (k ∈ sequence node_p)) as [Hin|Hnin].
    + by rewrite (NoDup_concat_disjoint _ _ _ _ _ _ Hnd Hi' Hp Hk Hin).
    + apply (Hlab1 i node); [|done..].
      destruct (decide (i = p)) as [->|]; [|lia].
      rewrite Hp in Hi'. injection Hi' as Heq. by rewrite Heq in Hnin.
Qed.

Lemma _assign_clusters_sequences st st' :
  _assign_clusters st = Some st' →
  sequence <$> tree st' = sequence <$> tree st ∧
  length (datapoints st') = length (datapoints st).
Proof.
  unfold _assign_clusters. generalize (xrange 0 (length (tree st))).
  intros l Hl.
  apply (foldM_invariant
           (λ s, sequence <$> tree s = sequence <$> tree st ∧
                 length (datapoints s) = length (datapoints st))
           assign_tree_node l) with (s := st); [|done|done].
  intros s i s' _ [Hs Hlen] Hstep.
  apply assign_tree_node_sequences in Hstep as [Hseq Hdp]. split; congruence.
Qed.

(** The labels [dp] of [n] samples form [K] groups: every sample has a
    label below [K], and every label below [K] is the label of a sample. *)
Definition grouped (n K : nat) (dp : list (option nat)) : Prop :=
  (∀ k, k < n → ∃ id, id < K ∧ dp !! k = Some (Some id)) ∧
  (∀ id, id < K → ∃ k, k < n ∧ dp !! k = Some (Some id)).

(** [_assign_clusters] turns the active nodes into groups: node [i] is
    the group [i]. *)
Lemma assign_groups n st st' :
  covers n (tree st) → _assign_clusters st = Some st' →
  grouped n (length (tree st)) (datapoints st').
Proof.
  intros Hc Hassign. unfold _assign_clusters in Hassign.
  apply assign_prefix in Hassign as [_ Hlab]; [|by eapply covers_NoDup].
  split.
  - intros k Hk. destruct (covers_sample n _ k Hc Hk) as (i & node & Hi & Hin).
    exists i. split; [by eapply lookup_lt_Some|]. by eapply Hlab; [eapply lookup_lt_Some|..].
  - intros id Hid. destruct (lookup_lt_is_Some_2 _ _ Hid) as [node Hnode].
    destruct (sequence_nonempty node) as [k Hk]. exists k.
    split; [by eapply covers_lt|]. by eapply Hlab.
Qed.

(** From [num_clusters] nodes or more the loop comes to the turn that
    finds [len(tree) == num_clusters]; what it assigns there stays. *)
Lemma merge_loop_groups n fuel num_clusters cache st st' :
  2 ≤ num_clusters → num_clusters ≤ length (tree st) → covers n (tree st) →
  merge_loop fuel num_clusters cache st = Some st' →
  grouped n num_clusters (datapoints st').
Proof.
  intros HK. revert cache st.
  induction fuel as [|fuel IH]; intros cache st Hlen Hc; simpl.
  - rewrite decide_True by lia. done.
  - rewrite decide_True by lia.
    destruct (merge_step _ cache st) as [[cache1 st1]|] eqn:Hstep; simpl; [|done].
    intros Hloop.
    pose proof (merge_step_length _ _ _ _ _ Hstep) as Hlen1.
    apply merge_step_inv in Hstep
      as (st0 & k & m & l & r & d & Hst0 & Hk & Hm & Hl & Hr & Htree & Hdp).
    destruct (decide (length (tree st) = num_clusters)) as [Heq|Hne].
    + assert (length (tree st1) < num_clusters) as Hlt by lia.
      rewrite (merge_loop_below _ _ _ _ _ Hlt Hloop), Hdp, <- Heq.
      by eapply assign_groups.
    + subst st0. apply (IH cache1 st1); [lia| |done].
      rewrite Htree. by apply covers_merge.
Qed.

(** With [2 <= num_clusters <= N], a run that returns has put the samples
    in exactly [num_clusters] groups: every sample carries a label below
    [num_clusters], and none of these labels is without a sample. *)
Theorem labels_form_num_clusters_groups
    (num_clusters : nat) (dp : list (option nat)) (st : state) :
  2 ≤ num_clusters → num_clusters ≤ length dp →
  HierarchicalCluster num_clusters dp = Some st →
  (∀ k, k < length dp →
        ∃ id, id < num_clusters ∧ datapoints st !! k = Some (Some id)) ∧
  (∀ id, id < num_clusters →
         ∃ k, k < length dp ∧ datapoints st !! k = Some (Some id)).
Proof.
  intros HK HN. unfold HierarchicalCluster, _cluster_data. fold (leaves (length dp)).
  apply merge_loop_groups; [done| |].
  - cbn [tree]. by rewrite length_leaves.
  - apply covers_leaves.
Qed.

(** No turn assigns when [num_clusters] is below 2 or above the number of
    nodes. *)
Lemma merge_loop_unassigned fuel num_clusters cache st st' :
  num_clusters < 2 ∨ length (tree st) < num_clusters →
  merge_loop fuel num_clusters cache st = Some st' →
  datapoints st' = datapoints st.
Proof.
  revert cache st. induction fuel as [|fuel IH]; intros cache st HK; simpl.
  - case_decide; [done|]. by intros [= <-].
  - case_decide; [|by intros [= <-]].
    destruct (merge_step _ cache st) as [[cache1 st1]|] eqn:Hstep; simpl; [|done].
    intros Hloop. transitivity (datapoints st1).
    + apply (IH cache1 st1); [|done]. apply merge_step_length in Hstep. lia.
    + eapply merge_step_datapoints; [|exact Hstep]. lia.
Qed.

(** With [num_clusters] 0, 1 or above the number of samples the test
    [len(tree) == num_clusters] never holds inside the loop: a run that
    returns has merged down to the root and written no label, so every
    sample keeps the [cluster_id] it came with. *)
Theorem num_clusters_out_of_range_never_assigned
    (num_clusters : nat) (dp : list (option nat)) (st : state) :
  num_clusters < 2 ∨ length dp < num_clusters →
  HierarchicalCluster num_clusters dp = Some st →
  datapoints st = dp.
Proof.
  intros HK. unfold HierarchicalCluster, _cluster_data. fold (leaves (length dp)).
  intros Hloop. apply merge_loop_unassigned in Hloop; [done|].
  cbn [tree]. by rewrite length_leaves.
Qed.

(** *** K = N: the run returns *)

Section termination.
(** The distance matrix is [n] by [n], and the linkage of a block of it is
    below [sys.maxint] (otherwise no pair is ever the best one, and
    [best[1]] raises IndexError). *)
Context (n : nat).
Hypothesis distance_matrix_shape : shape n n distance_matrix.
Hypothesis linkage_below_maxint :
  ∀ fst_clust snd_clust b,
    block fst_clust snd_clust = Some b → (linkage b < maxint)%Qc.

(** Every active node covers samples of the data only. *)
Definition tree_in_range (t : list Tree) : Prop :=
  Forall (λ node, Forall (λ i, i < n) (sequence node)) t.

(** Every cached distance is the linkage of a block. *)
Definition cache_below (cache : gmap (list nat * list nat) Qc) : Prop :=
  ∀ key dist, cache !! key = Some dist → (dist < maxint)%Qc.

Lemma block_is_Some fst_clust snd_clust :
  Forall (λ i, i < n) fst_clust → Forall (λ i, i < n) snd_clust →
  is_Some (block fst_clust snd_clust).
Proof.
  intros Hfst Hsnd. unfold block.
  destruct (mapM_is_Some_2 (λ i, distance_matrix !! i) fst_clust) as [rows Hrows].
  { eapply Forall_impl; [exact Hfst|]. intros i Hi. simpl.
    apply lookup_lt_is_Some_2. by rewrite (proj1 distance_matrix_shape). }
  rewrite Hrows. simpl.
  destruct (take_columns_Some (length rows) n rows snd_clust) as (T & -> & _);
    [|done|done].
  split; [done|]. apply Forall_lookup. intros i row Hrow.
  rewrite (mapM_lookup _ _ _ i Hrows) in Hrow.
  destruct (fst_clust !! i) as [k|]; simpl in Hrow; [|done].
  by apply (shape_row _ _ _ _ _ distance_matrix_shape Hrow).
Qed.

Lemma compare_pair_total tree cb k m :
  tree_in_range tree → k < length tree → m < length tree →
  cache_below cb.1 →
  ∃ cb', compare_pair tree cb (k, m) = Some cb' ∧ cache_below cb'.1 ∧
         (is_Some cb.2.2 ∨ cb.2.1 = maxint → is_Some cb'.2.2).
Proof.
  intros Htree Hk Hm Hcache. destruct cb as [cache best]. simpl in *.
  destruct (lookup_lt_is_Some_2 tree k Hk) as [tk Htk].
  destruct (lookup_lt_is_Some_2 tree m Hm) as [tm Htm].
  rewrite Htk, Htm. simpl.
  assert (∃ cache' dist,
    match cache !! (sequence tk, sequence tm) with
    | Some dist => Some (cache, dist)
    | None => b ← block (sequence tk) (sequence tm);
              Some (<[(sequence tk, sequence tm) := linkage b]> cache, linkage b)
    end = Some (cache', dist) ∧ cache_below cache' ∧ (dist < maxint)%Qc)
    as (cache' & dist & -> & Hcache' & Hdist).
  { destruct (cache !! _) as [dist|] eqn:Hkey.
    - exists cache, dist. split; [done|]. split; [done|]. by eapply Hcache.
    - destruct (block_is_Some (sequence tk) (sequence tm)) as [b Hb].
      + unfold tree_in_range in Htree. rewrite Forall_lookup in Htree.
        by apply (Htree k).
      + unfold tree_in_range in Htree. rewrite Forall_lookup in Htree.
        by apply (Htree m).
      + rewrite Hb. simpl. eexists _, _. split; [done|].
        split; [|by eapply linkage_below_maxint].
        intros key dist. destruct (decide (key = (sequence tk, sequence tm))) as [->|Hne].
        * rewrite lookup_insert_eq. intros [= <-]. by eapply linkage_below_maxint.
        * rewrite lookup_insert_ne by done. apply Hcache. }
  simpl. destruct (decide (dist < best.1)%Qc) as [Hlt|Hge].
  - eexists. split; [done|]. simpl. split; [done|]. by eauto.
  - eexists. split; [done|]. simpl. split; [done|].
    intros [Hsome|Heq]; [done|]. rewrite Heq in Hge. by destruct Hge.
Qed.

Lemma compare_pairs_total tree cache (l : list (nat * nat)) :
  tree_in_range tree →
  Forall (λ km, km.1 < length tree ∧ km.2 < length tree) l → l ≠ [] →
  cache_below cache →
  ∃ cb', foldM (compare_pair tree) (cache, (maxint, None)) l = Some cb' ∧
         cache_below cb'.1 ∧ is_Some cb'.2.2.
Proof.
  intros Htree Hl Hne Hcache. destruct l as [|[k m] l]; [done|].
  apply Forall_cons in Hl as [[Hk Hm] Hl]. simpl in Hk, Hm.
  destruct (compare_pair_total tree (cache, (maxint, None)) k m)
    as (cb1 & Hcb1 & Hcache1 & Hbest1); [done..|].
  rewrite foldM_cons, Hcb1. simpl.
  apply (foldM_total (λ cb, cache_below cb.1 ∧ is_Some cb.2.2)).
  - intros cb [k' m'] Hin [Hc Hb].
    rewrite Forall_forall in Hl. destruct (Hl _ Hin) as [Hk' Hm']. simpl in *.
    destruct (compare_pair_total tree cb k' m') as (cb' & -> & Hc' & Hb');
      [done..|].
    exists cb'. split; [done|]. split; [done|]. apply Hb'. by left.
  - split; [done|]. apply Hbest1. by right.
Qed.

(** One turn of the loop goes through, given the state [st1] after the
    test of [len(tree) == num_clusters]. *)
Lemma merge_step_total num_clusters cache st st1 :
  (if decide (length (tree st) = num_clusters) then _assign_clusters st
   else Some st) = Some st1 →
  tree_in_range (tree st1) → 2 ≤ length (tree st1) → cache_below cache →
  ∃ cache' st', merge_step num_clusters cache st = Some (cache', st') ∧
    cache_below cache' ∧ tree_in_range (tree st') ∧
    S (length (tree st')) = length (tree st1) ∧
    datapoints st' = datapoints st1.
Proof.
  intros Hst1 Htree Hlen Hcache.
  destruct (compare_pairs_total (tree st1) cache (upper_pairs (length (tree st1))))
    as ([cache1 best] & Hrun & Hcache1 & [[k m] Hbest]); [done| | |done|].
  { apply Forall_forall. intros [k m] [Hk Hm]%elem_of_upper_pairs. simpl. lia. }
  { intros Hnil. assert ((0, 1) ∈ upper_pairs (length (tree st1))) as Hin
      by (apply elem_of_upper_pairs; lia).
    rewrite Hnil in Hin. by apply elem_of_nil in Hin. }
  simpl in Hcache1, Hbest.
  destruct (best_pair_in_range _ _ _ _ k m Hrun Hbest) as [Hk Hm].
  destruct (lookup_lt_is_Some_2 (tree st1) k) as [left_node Hl]; [lia|].
  destruct (lookup_lt_is_Some_2 (tree st1) m) as [right_node Hr]; [done|].
  assert (merge_step num_clusters cache st
          = Some (cache1, {| tree := delete k (delete m
                     (tree st1 ++ [Node left_node right_node best.1 None]));
                   datapoints := datapoints st1 |})) as Hstep.
  { unfold merge_step. rewrite Hst1. simpl.
    rewrite (foldM_upper_pairs (compare_pair (tree st1))), Hrun. simpl.
    rewrite Hbest. simpl. rewrite Hl, Hr. simpl. unfold py_del.
    rewrite decide_True by (rewrite length_app; simpl; lia). simpl.
    rewrite decide_True; [done|].
    rewrite length_delete, length_app; simpl; [lia|].
    apply lookup_lt_is_Some_2. rewrite length_app. simpl. lia. }
  eexists _, _. split; [exact Hstep|]. split; [done|]. split.
  - simpl. do 2 apply Forall_delete. apply Forall_app. split; [done|].
    apply Forall_singleton. simpl. apply Forall_app.
    unfold tree_in_range in Htree. rewrite Forall_lookup in Htree.
    split; [by apply (Htree k) | by apply (Htree m)].
  - split; [|done]. simpl.
    rewrite length_delete; cycle 1.
    { apply lookup_lt_is_Some_2. rewrite length_delete.
      - rewrite length_app. simpl. lia.
      - apply lookup_lt_is_Some_2. rewrite length_app. simpl. lia. }
    rewrite length_delete
      by (apply lookup_lt_is_Some_2; rewrite length_app; simpl; lia).
    rewrite length_app. simpl. lia.
Qed.

(** Below [num_clusters] the loop merges down to one node, assigning
    nothing; [fuel] turns are enough when the list has at most [fuel + 1]
    nodes. *)
Lemma merge_loop_total fuel num_clusters cache st :
  tree_in_range (tree st) → 1 ≤ length (tree st) → length (tree st) ≤ S fuel →
  length (tree st) < num_clusters → cache_below cache →
  ∃ st', merge_loop fuel num_clusters cache st = Some st' ∧
         length (tree st') = 1 ∧ datapoints st' = datapoints st.
Proof.
  revert cache st.
  induction fuel as [|fuel IH]; intros cache st Htree H1 Hfuel Hlt Hcache; simpl.
  - rewrite decide_False by lia. exists st. split; [done|]. split; [lia|done].
  - destruct (decide (1 < length (tree st))) as [Hgt|Hle];
      [|exists st; split; [done|]; split; [lia|done]].
    destruct (merge_step_total num_clusters cache st st)
      as (cache1 & st1 & -> & Hc1 & Ht1 & Hl1 & Hd1);
      [by rewrite decide_False by lia | done | lia | done |].
    simpl.
    destruct (IH cache1 st1) as (st' & -> & Hlen & Hdp);
      [done | lia | lia | lia | done |].
    exists st'. split; [done|]. split; [done|]. congruence.
Qed.

(** The K = N half of C4, for [N >= 2], with the run itself: on an [N] by
    [N] distance matrix the call returns, the merge list is down to the
    root, and sample [i] carries the label [i]. *)
Theorem own_clusters_assigned_and_run_returns (dp : list (option nat)) :
  length dp = n → 2 ≤ n →
  ∃ st, HierarchicalCluster n dp = Some st ∧
        length (tree st) = 1 ∧ datapoints st = Some <$> seq 0 n.
Proof.
  intros Hdp Hn. unfold HierarchicalCluster, _cluster_data. rewrite Hdp.
  fold (leaves n).
  assert (∀ fuel, n ≤ S fuel →
    ∃ st, merge_loop (S fuel) n ∅ {| tree := leaves n; datapoints := dp |}
          = Some st ∧
          length (tree st) = 1 ∧ datapoints st = Some <$> seq 0 n) as Hrun.
  { intros fuel Hfuel. cbn [merge_loop tree].
    rewrite length_leaves, decide_True by lia.
    destruct (assign_leaves dp n Hdp) as (st0 & Hassign & Hlen0 & Hrange0 & Hlab0).
    destruct (merge_step_total n ∅ {| tree := leaves n; datapoints := dp |} st0)
      as (cache1 & st1 & -> & Hc1 & Ht1 & Hl1 & Hd1); [|done|lia| |].
    { cbn [tree]. by rewrite length_leaves, decide_True. }
    { intros key dist. by rewrite lookup_empty. }
    simpl.
    destruct (merge_loop_total fuel n cache1 st1) as (st' & -> & Hlen & Hdp');
      [done | lia | lia | lia | done |].
    exists st'. split; [done|]. split; [done|]. congruence. }
  destruct (Hrun (n - 1)) as (st & Hst & Hlen & Hlab); [lia|].
  replace (S (n - 1)) with n in Hst by lia. by exists st.
Qed.

(** *** Every K: the run returns the root *)

Lemma covers_in_range t : covers n t → tree_in_range t.
Proof.
  intros Hc. apply Forall_lookup. intros i node Hnode.
  apply Forall_forall. intros k Hk. by eapply covers_lt.
Qed.

Lemma set_cluster_ids_is_Some (v : option nat) (l : list nat)
    (dp : list (option nat)) :
  Forall (λ i, i < length dp) l →
  is_Some (foldM (λ dp index, py_set dp index v) dp l).
Proof.
  intros Hl.
  destruct (foldM_total (λ dp', length dp' = length dp)
              (λ dp index, py_set dp index v) l) with (s := dp)
    as (dp' & -> & _); [|done|by eexists].
  intros s j Hj Hs. rewrite Forall_forall in Hl. unfold py_set.
  rewrite decide_True by (rewrite Hs; by apply Hl). eexists. split; [done|].
  by rewrite length_insert.
Qed.

(** On nodes over the samples of the data [_assign_clusters] goes
    through. *)
Lemma _assign_clusters_is_Some st :
  tree_in_range (tree st) → length (datapoints st) = n →
  is_Some (_assign_clusters st).
Proof.
  intros Htree Hdp. unfold _assign_clusters.
  destruct (foldM_total
              (λ s, sequence <$> tree s = sequence <$> tree st ∧
                    length (datapoints s) = n)
              assign_tree_node (xrange 0 (length (tree st)))) with (s := st)
    as (st' & -> & _); [|done|by eexists].
  intros s i Hi [Hseq Hlen]. unfold xrange in Hi. apply elem_of_seq in Hi.
  assert (length (tree s) = length (tree st)) as Hlens
    by (by rewrite <- (length_fmap sequence (tree s)), Hseq, length_fmap).
  destruct (lookup_lt_is_Some_2 (tree s) i) as [node Hnode]; [lia|].
  destruct (assign_tree_node s i) as [s'|] eqn:Hstep.
  - exists s'. split; [done|].
    apply assign_tree_node_sequences in Hstep as [Hseq' Hlen']. split; congruence.
  - exfalso. unfold assign_tree_node in Hstep. rewrite Hnode in Hstep.
    simpl in Hstep.
    destruct (set_cluster_ids_is_Some (Some i)
                (sequence (assign_node_clust node i)) (datapoints s)) as [dp' Hdp'].
    + rewrite sequence_assign_node_clust, Hlen.
      assert ((sequence <$> tree st) !! i = Some (sequence node)) as Hlook
        by (by rewrite <- Hseq, list_lookup_fmap, Hnode).
      rewrite list_lookup_fmap in Hlook.
      destruct (tree st !! i) as [node0|] eqn:Hnode0; simpl in Hlook; [|done].
      injection Hlook as <-.
      unfold tree_in_range in Htree. rewrite Forall_lookup in Htree.
      by apply (Htree i).
    + by rewrite Hdp' in Hstep.
Qed.

(** The loop merges down to one node over all the samples; [fuel] turns
    are enough when the list has at most [fuel + 1] nodes. *)
Lemma merge_loop_returns fuel num_clusters cache st :
  covers n (tree st) → 1 ≤ length (tree st) → length (tree st) ≤ S fuel →
  length (datapoints st) = n → cache_below cache →
  ∃ st', merge_loop fuel num_clusters cache st = Some st' ∧
         length (tree st') = 1 ∧ covers n (tree st').
Proof.
  revert cache st.
  induction fuel as [|fuel IH]; intros cache st Hc H1 Hfuel Hdp Hcache; simpl.
  - rewrite decide_False by lia. exists st. split; [done|]. split; [lia|done].
  - destruct (decide (1 < length (tree st))) as [Hgt|Hle];
      [|exists st; split; [done|]; split; [lia|done]].
    assert (∃ st1,
      (if decide (length (tree st) = num_clusters) then _assign_clusters st
       else Some st) = Some st1 ∧
      sequence <$> tree st1 = sequence <$> tree st ∧
      length (datapoints st1) = n) as (st1 & Hst1 & Hseq1 & Hdp1).
    { case_decide; [|by exists st].
      destruct (_assign_clusters_is_Some st) as [st1 Hst1];
        [by apply covers_in_range | done |].
      exists st1. split; [done|].
      apply _assign_clusters_sequences in Hst1 as [? ?]. split; congruence. }
    assert (covers n (tree st1)) as Hc1 by (unfold covers; by rewrite Hseq1).
    assert (length (tree st1) = length (tree st)) as Hlen1
      by (by rewrite <- (length_fmap sequence (tree st1)), Hseq1, length_fmap).
    destruct (merge_step_total num_clusters cache st st1)
      as (cache2 & st2 & Hstep & Hc2 & _ & Hl2 & Hd2);
      [done | by apply covers_in_range | lia | done |].
    rewrite Hstep. simpl.
    apply merge_step_inv in Hstep
      as (st0 & k & m & l & r & d & Hst0 & Hk & Hm & Hl & Hr & Htree & _).
    assert (st0 = st1) as ->.
    { destruct (decide (length (tree st) = num_clusters)); congruence. }
    destruct (IH cache2 st2) as (st' & -> & Hlen & Hc');
      [|lia|lia|congruence|done|by exists st'].
    rewrite Htree. by apply covers_merge.
Qed.

(** Whatever [num_clusters] is, on an [N] by [N] distance matrix with
    [N >= 1] the call returns with the merge list down to one node, the
    root that [__init__] takes as [self.tree], and every sample is a leaf
    under the root, once. *)
Theorem run_returns_root_over_all_samples
    (num_clusters : nat) (dp : list (option nat)) :
  length dp = n → 1 ≤ n →
  ∃ st root, HierarchicalCluster num_clusters dp = Some st ∧
             tree st = [root] ∧ sequence root ≡ₚ seq 0 n.
Proof.
  intros Hdp Hn. unfold HierarchicalCluster, _cluster_data. rewrite Hdp.
  fold (leaves n).
  destruct (merge_loop_returns n num_clusters ∅
              {| tree := leaves n; datapoints := dp |})
    as (st & Hst & Hlen & Hc).
  - apply covers_leaves.
  - cbn [tree]. rewrite length_leaves. lia.
  - cbn [tree]. rewrite length_leaves. lia.
  - done.
  - intros key dist. by rewrite lookup_empty.
  - destruct (tree st) as [|root [|? ?]] eqn:Htree; simpl in Hlen; try lia.
    exists st, root. split; [done|]. split; [done|].
    unfold covers in Hc. simpl in Hc.
    by rewrite app_nil_r in Hc.
Qed.

End termination.

End clustering.

(** *** The claim at concrete inputs *)

(** [numpy.ndarray.mean], the ['average'] linkage. *)
Definition average (b : list (list Qc)) : Qc :=
  (foldl Qcplus 0 (concat b) / Qc_of_Z (Z.of_nat (length (concat b))))%Qc.

(** [sys.maxint] on a 64-bit build. *)
Definition maxint : Qc := Qc_of_Z (2 ^ 63 - 1).

(** Two samples at distance 1. *)
Definition two_samples : list (list Qc) := [[0; 1]; [1; 0]]%Qc.

(** C4, K = N: with two samples and [num_clusters = 2] the labels are
    assigned before the merge, one label per sample. *)
Example two_clusters_of_two_samples :
  datapoints <$> HierarchicalCluster average maxint two_samples 2 [None; None]
  = Some [Some 0; Some 1].
Proof. vm_compute. reflexivity. Qed.

(** C4, K = 1, fails on the code: with two samples and [num_clusters = 1]
    the run merges the two leaves into the root and returns, and no sample
    has been given a label. *)
Lemma single_cluster_never_assigned_witness :
  _cluster_data average maxint two_samples 2 1
    {| tree := [Leaf 0 None; Leaf 1 None]; datapoints := [None; None] |}
  = Some {| tree := [Node (Leaf 0 None) (Leaf 1 None) 1%Qc None];
            datapoints := [None; None] |} ∧
  datapoints {| tree := [Node (Leaf 0 None) (Leaf 1 None) 1%Qc None];
                datapoints := [None; None] |} = [None; None].
Proof.
  assert (_cluster_data average maxint two_samples 2 1
            {| tree := [Leaf 0 None; Leaf 1 None]; datapoints := [None; None] |}
          = Some {| tree := [Node (Leaf 0 None) (Leaf 1 None) 1%Qc None];
                    datapoints := [None; None] |}) as H
    by (vm_compute; reflexivity).
  split; [exact H|].
  exact (single_cluster_never_assigned average maxint two_samples 2 _ _ H).
Defined.

Example one_cluster_of_two_samples :
  datapoints <$> HierarchicalCluster average maxint two_samples 1 [None; None]
  = Some [None; None].
Proof. vm_compute. reflexivity. Qed.

(** *** K = N at concrete inputs *)

Lemma sum_le_length (l : list Qc) (a : Qc) (k : Z) :
  Forall (λ x, (0 ≤ x ≤ 1)%Qc) l → (0 ≤ a ≤ Qc_of_Z k)%Qc →
  (0 ≤ foldl Qcplus a l ≤ Qc_of_Z (k + Z.of_nat (length l)))%Qc.
Proof.
  revert a k. induction l as [|x l IH]; intros a k Hl Ha.
  - simpl. by rewrite Z.add_0_r.
  - apply Forall_cons in Hl as [[Hx0 Hx1] Hl]. simpl foldl.
    replace (k + Z.of_nat (length (x :: l)))%Z
      with ((k + 1) + Z.of_nat (length l))%Z by (simpl length; lia).
    apply IH; [done|]. destruct Ha as [Ha0 Hak]. split.
    + rewrite <- (Qcplus_0_l 0). by apply Qcplus_le_compat.
    + rewrite Z2Qc_inj_add. by apply Qcplus_le_compat.
Qed.

(** The mean of numbers between 0 and 1 is at most 1. *)
Lemma average_le_1 (b : list (list Qc)) :
  Forall (Forall (λ x, (0 ≤ x ≤ 1)%Qc)) b → (average b ≤ 1)%Qc.
Proof.
  intros Hb. unfold average.
  assert (Forall (λ x, (0 ≤ x ≤ 1)%Qc) (concat b)) as Hl
    by (by apply Forall_concat).
  destruct (sum_le_length (concat b) 0 0 Hl) as [Hs0 Hs1]; [by compute|].
  rewrite Z.add_0_l in Hs1.
  set (s := foldl Qcplus 0%Qc (concat b)) in *.
  set (t := Qc_of_Z (Z.of_nat (length (concat b)))) in *.
  destruct (decide (t = 0%Qc)) as [Ht|Ht].
  - rewrite Ht in *. unfold Qcdiv.
    assert (s = 0%Qc) as -> by (by apply Qcle_antisym). by compute.
  - assert (0 < t)%Qc as Hpos.
    { apply Qcle_lt_or_eq in Hs0 as [Hlt| <-].
      - by eapply Qclt_le_trans.
      - apply Qcle_lt_or_eq in Hs1 as [Hlt|Heq]; [done|]. by destruct Ht. }
    unfold Qcdiv. rewrite <- (Qcmult_inv_r t) by done.
    apply Qcmult_le_mono_nonneg_r; [|done].
    apply Qclt_le_weak. by apply Qcinv_pos.
Qed.

Lemma two_samples_shape : shape 2 2 two_samples.
Proof. split; [done|]. by repeat constructor. Qed.

Lemma two_samples_linkage fst_clust snd_clust b :
  block two_samples fst_clust snd_clust = Some b → (average b < maxint)%Qc.
Proof.
  intros Hb. apply Qcle_lt_trans with 1%Qc; [|by vm_compute].
  apply average_le_1. apply block_entries in Hb.
  eapply Forall_impl; [exact Hb|]. intros row Hrow.
  eapply Forall_impl; [exact Hrow|]. intros x (i & j & Hx).
  destruct i as [|[|i]], j as [|[|j]]; simpl in Hx; try done;
    injection Hx as <-; by compute.
Qed.

(** With two samples and [num_clusters = 2] the run returns and the labels
    are [0] and [1]. *)
Lemma own_clusters_assigned_and_run_returns_witness :
  ∃ st, HierarchicalCluster average maxint two_samples 2 [None; None] = Some st ∧
        length (tree st) = 1 ∧ datapoints st = Some <$> seq 0 2.
Proof.
  apply (own_clusters_assigned_and_run_returns average maxint two_samples 2
           two_samples_shape two_samples_linkage [None; None]); [done | lia].
Defined.

Lemma every_sample_its_own_cluster_witness :
  datapoints {| tree := [Node (Leaf 0 (Some 0)) (Leaf 1 (Some 1)) 1%Qc None];
                datapoints := [Some 0; Some 1] |}
  = Some <$> seq 0 (length [None; None : option nat]).
Proof.
  apply (every_sample_its_own_cluster average maxint two_samples
           [None; None]); [simpl; lia | vm_compute; reflexivity].
Defined.


(** *** Three samples *)

(** Samples 0 and 1 are close, sample 2 is far from both. *)
Definition three_samples : list (list Qc) :=
  [ [0%Qc; Q2Qc (1 # 5); 1%Qc]; [Q2Qc (1 # 5); 0%Qc; 1%Qc]; [1%Qc; 1%Qc; 0%Qc] ].

Lemma three_samples_shape : shape 3 3 three_samples.
Proof. split; [done|]. by repeat constructor. Qed.

Lemma three_samples_linkage fst_clust snd_clust b :
  block three_samples fst_clust snd_clust = Some b → (average b < maxint)%Qc.
Proof.
  intros Hb. apply Qcle_lt_trans with 1%Qc; [|by vm_compute].
  apply average_le_1. apply block_entries in Hb.
  eapply Forall_impl; [exact Hb|]. intros row Hrow.
  eapply Forall_impl; [exact Hrow|]. intros x (i & j & Hx).
  destruct i as [|[|[|i]]], j as [|[|[|j]]]; simpl in Hx; try done;
    injection Hx as <-; by compute.
Qed.

(** With [num_clusters = 2] the samples 0 and 1 are merged first; the two
    nodes left are the leaf of sample 2, group 0, and the merged node,
    group 1. *)
Lemma labels_form_num_clusters_groups_witness :
  datapoints <$> HierarchicalCluster average maxint three_samples 2
                   [None; None; None]
    = Some [Some 1; Some 1; Some 0] ∧
  (∀ k, k < 3 →
        ∃ id, id < 2 ∧ [Some 1; Some 1; Some 0] !! k = Some (Some id)) ∧
  (∀ id, id < 2 →
         ∃ k, k < 3 ∧ [Some 1; Some 1; Some 0] !! k = Some (Some id)).
Proof.
  assert (datapoints <$> HierarchicalCluster average maxint three_samples 2
                           [None; None; None]
          = Some [Some 1; Some 1; Some 0]) as Hrun by (vm_compute; reflexivity).
  split; [exact Hrun|].
  destruct (HierarchicalCluster average maxint three_samples 2
              [None; None; None]) as [st|] eqn:H; [|done].
  injection Hrun as Hdp. rewrite <- Hdp.
  apply (labels_form_num_clusters_groups average maxint three_samples 2
           [None; None; None] st); [lia | simpl; lia | exact H].
Defined.

(** With [num_clusters = 4] and three samples the run returns and the
    labels the samples came with are still there. *)
Lemma num_clusters_out_of_range_never_assigned_witness :
  ∃ st, HierarchicalCluster average maxint three_samples 4
          [Some 7; None; None] = Some st ∧
        datapoints st = [Some 7; None; None].
Proof.
  assert (is_Some (HierarchicalCluster average maxint three_samples 4
                     [Some 7; None; None])) as [st H]
    by (vm_compute; by eexists).
  exists st. split; [exact H|].
  apply (num_clusters_out_of_range_never_assigned average maxint three_samples
           4 [Some 7; None; None] st); [right; simpl; lia | exact H].
Defined.

Lemma run_returns_root_over_all_samples_witness :
  ∃ st root,
    HierarchicalCluster average maxint three_samples 1 [None; None; None]
      = Some st ∧
    tree st = [root] ∧ sequence root ≡ₚ seq 0 3.
Proof.
  apply (run_returns_root_over_all_samples average maxint three_samples 3
           three_samples_shape three_samples_linkage 1 [None; None; None]);
    [done | lia].
Defined.

End Hierarchical.

(** ** SOMCluster *)

Module SOM.

(** *** Exceptions *)

Inductive exception : Type :=
  | ValueError (message : string)
  | IndexError
  | KeyError
  | ZeroDivisionError.

(** A computation that returns a value or raises. *)
Definition result (A : Type) : Type := (exception + A)%type.

#[global] Instance result_ret : MRet result := λ A x, inr x.

#[global] Instance result_bind : MBind result := λ A B f m,
  match m with
  | inl e => inl e
  | inr x => f x
  end.

Definition raise {A : Type} (e : exception) : result A := inl e.

(** A lookup that raises [e] where Python does. *)
Definition or_raise {A : Type} (e : exception) (o : option A) : result A :=
  match o with
  | Some x => inr x
  | None => inl e
  end.

(** A [for] loop whose body may raise. *)
Fixpoint foldE {S A : Type} (f : S → A → result S) (s : S) (l : list A)
  : result S :=
  match l with
  | [] => mret s
  | x :: l' => s' ← f s x; foldE f s' l'
  end.

(** [a / b] on floats *)
Definition py_div (a b : Qc) : result Qc :=
  if decide (b = 0%Qc) then raise ZeroDivisionError else mret (a / b)%Qc.

(** [int(x)]: truncation towards zero. *)
Definition py_int (x : Qc) : Z := Z.quot (Qnum (this x)) (Z.pos (Qden (this x))).

(** [xrange(a, b)] on ints that are known not to be negative. *)
Definition xrangeZ (a b : Z) : list nat := Z.to_nat <$> seqZ a (b - a).

(** The message of the only exception [_train_data] raises itself. *)
Definition bmu_message : string :=
  "Distance from nodes to data matrix too large? Try lowering learn rate.".

(** *** Vectors and the node array *)

Definition vsub (a b : list Qc) : list Qc := zip_with Qcminus a b.
Definition vadd (a b : list Qc) : list Qc := zip_with Qcplus a b.
Definition vscale (c : Qc) (a : list Qc) : list Qc := map (Qcmult c) a.

(** [numpy.zeros((vdim, hdim, vec_len))] *)
Definition zeros3 (vdim hdim vec_len : nat) : list (list (list Qc)) :=
  zeros (replicate vec_len 0%Qc) vdim hdim.

(** [nodes += node_adjust] *)
Definition add3 (nodes node_adjust : list (list (list Qc))) : list (list (list Qc)) :=
  map2 vadd nodes node_adjust.

(** [node_adjust.fill(0)] *)
Definition fill0 (node_adjust : list (list (list Qc))) : list (list (list Qc)) :=
  map (map (map (λ _, 0%Qc))) node_adjust.

(** [_memo_chessboard_dists] *)
Definition _memo_chessboard_dists (hdim vdim : nat) : gmap (nat * nat * nat * nat) Z :=
  foldl (λ M i,
    foldl (λ M j,
      foldl (λ M k,
        foldl (λ M l,
                 <[(i, j, k, l) :=
                     Z.max (Z.abs (Z.of_nat i - Z.of_nat k))
                           (Z.abs (Z.of_nat j - Z.of_nat l))]> M)
              M (xrange 0 hdim))
        M (xrange 0 vdim))
      M (xrange 0 hdim))
    ∅ (xrange 0 vdim).

(** *** Training *)

Section training.
(** [exp_e x] stands for [e**x] and [log] for [math.log]; [maxint] is
    [sys.maxint]. *)
Context (distance : list Qc → list Qc → Qc) (exp_e log : Qc → Qc) (maxint : Qc).
Context (data_matrix : list (list Qc)) (num_samples vec_len : nat).
Context (chessdists : gmap (nat * nat * nat * nat) Z) (hdim vdim : nat).

(** The search for the best matching unit of sample [k]: the two loops
    over the grid, from [bmu = [maxint]]. *)
Definition find_bmu (nodes : list (list (list Qc))) (k : nat)
  : result (Qc * option (nat * nat)) :=
  foldE (λ bmu i,
    foldE (λ bmu j,
             w ← or_raise IndexError (mget nodes i j);
             sample ← or_raise IndexError (data_matrix !! k);
             let dist := distance w sample in
             mret (if decide (dist < bmu.1)%Qc then (dist, Some (i, j)) else bmu))
          bmu (xrange 0 hdim))
    (maxint, None) (xrange 0 vdim).

(** [node_adjust[i][j] += inf * new_learn * (data_matrix[k] - nodes[i][j])]
    for the node [(i, j)] in the neighbourhood of the unit [(y, x)]. *)
Definition adjust_node (r new_learn : Qc) (nodes : list (list (list Qc)))
    (k y x i j : nat) (node_adjust : list (list (list Qc)))
  : result (list (list (list Qc))) :=
  dist ← or_raise KeyError (chessdists !! (y, x, i, j));
  q ← py_div (- Qc_of_Z (dist ^ 2))%Qc r;
  let inf := exp_e q in
  sample ← or_raise IndexError (data_matrix !! k);
  w ← or_raise IndexError (mget nodes i j);
  a ← or_raise IndexError (mget node_adjust i j);
  or_raise IndexError
    (mset node_adjust i j (vadd a (vscale (inf * new_learn)%Qc (vsub sample w)))).

(** The body of [for k in xrange(self.num_samples)]. *)
Definition train_sample (new_radius new_learn r : Qc)
    (nodes : list (list (list Qc))) (node_adjust : list (list (list Qc))) (k : nat)
  : result (list (list (list Qc))) :=
  bmu ← find_bmu nodes k;
  '(y, x) ← match bmu.2 with
            | Some yx => mret yx
            | None => raise (ValueError bmu_message)
            end;
  let rad_int := py_int new_radius in
  let min_i := if decide (rad_int < Z.of_nat y)%Z
               then (Z.of_nat y - rad_int - 1)%Z else 0%Z in
  let min_j := if decide (rad_int < Z.of_nat x)%Z
               then (Z.of_nat x - rad_int - 1)%Z else 0%Z in
  let max_i := (Z.of_nat y + rad_int + 1)%Z in
  let max_j := (Z.of_nat x + rad_int + 1)%Z in
  let max_i := if decide (Z.of_nat vdim < max_i)%Z then Z.of_nat vdim else max_i in
  let max_j := if decide (Z.of_nat hdim < max_j)%Z then Z.of_nat hdim else max_j in
  foldE (λ node_adjust i,
    foldE (λ node_adjust j, adjust_node r new_learn nodes k y x i j node_adjust)
          node_adjust (xrangeZ min_j max_j))
    node_adjust (xrangeZ min_i max_i).

(** The body of [for t in xrange(1, num_epochs)]: the deltas of all
    samples are accumulated against the node weights of the start of the
    epoch, then added to the nodes, and the accumulator is cleared. *)
Definition train_epoch (t_const radius lr : Qc)
    (st : list (list (list Qc)) * list (list (list Qc))) (t : nat)
  : result (list (list (list Qc)) * list (list (list Qc))) :=
  let '(nodes, node_adjust) := st in
  q ← py_div (- Qc_of_Z (Z.of_nat t))%Qc t_const;
  let new_radius := (radius * exp_e q)%Qc in
  q ← py_div (- lr)%Qc t_const;
  let new_learn := (lr * exp_e q)%Qc in
  let r := (2 * Qc_of_Z (Z.of_nat t) * new_radius * new_radius)%Qc in
  node_adjust ←
    foldE (train_sample new_radius new_learn r nodes) node_adjust
          (xrange 0 num_samples);
  mret (add3 nodes node_adjust, fill0 node_adjust).

(** The epochs [_train_data] runs. *)
Definition epochs (num_epochs : nat) : list nat := xrange 1 num_epochs.

(** [_train_data] *)
Definition _train_data (nodes : list (list (list Qc))) (lr : Qc)
    (num_epochs : nat) (radius : Qc) : result (list (list (list Qc))) :=
  l ← (if decide (0 < radius)%Qc then mret (log radius)
       else raise (ValueError "math domain error"));
  t_const ← py_div (Qc_of_Z (Z.of_nat num_epochs)) l;
  let node_adjust := zeros3 vdim hdim vec_len in
  st ← foldE (train_epoch t_const radius lr) (nodes, node_adjust)
             (epochs num_epochs);
  mret st.1.

End training.

(** *** Facts about loops that may raise *)

Lemma foldE_app {S A} (f : S → A → result S) (s : S) (l1 l2 : list A) :
  foldE f s (l1 ++ l2) = s' ← foldE f s l1; foldE f s' l2.
Proof.
  revert s. induction l1 as [|x l1 IH]; intros s; simpl; [done|].
  destruct (f s x) as [e|s']; simpl; [done | apply IH].
Qed.

Lemma xrange_snoc (a b : nat) : a ≤ b → xrange a (S b) = xrange a b ++ [b].
Proof.
  intros Hab. unfold xrange. replace (S b - a) with (S (b - a)) by lia.
  rewrite seq_S. do 2 f_equal. lia.
Qed.

Lemma xrange_middle (a k b : nat) :
  a ≤ k → k < b → xrange a b = xrange a k ++ k :: xrange (S k) b.
Proof.
  intros Hak Hkb. unfold xrange.
  replace (b - a) with ((k - a) + S (b - S k)) by lia.
  rewrite seq_app. simpl. do 3 f_equal; lia.
Qed.

Section training_facts.
Context (distance : list Qc → list Qc → Qc) (exp_e log : Qc → Qc) (maxint : Qc).
Context (data_matrix : list (list Qc)) (num_samples vec_len : nat).
Context (chessdists : gmap (nat * nat * nat * nat) Z) (hdim vdim : nat).

Local Abbreviation train_sample :=
  (train_sample distance exp_e maxint data_matrix chessdists hdim vdim).
Local Abbreviation train_epoch :=
  (train_epoch distance exp_e maxint data_matrix num_samples chessdists hdim vdim).
Local Abbreviation _train_data :=
  (_train_data distance exp_e log maxint data_matrix num_samples vec_len
               chessdists hdim vdim).
Local Abbreviation find_bmu := (find_bmu distance maxint data_matrix hdim vdim).

(** The second half of C5 holds: an epoch adds to the nodes, once, the
    deltas that its samples accumulated against the node weights of its
    start, and leaves an accumulator of zeros. *)
Lemma train_epoch_batch t_const radius lr nodes node_adjust t nodes' node_adjust' :
  train_epoch t_const radius lr (nodes, node_adjust) t = inr (nodes', node_adjust') →
  ∃ new_radius new_learn r total,
    foldE (train_sample new_radius new_learn r nodes) node_adjust
          (xrange 0 num_samples) = inr total ∧
    nodes' = add3 nodes total ∧
    node_adjust' = fill0 total ∧
    Forall (Forall (Forall (λ v, v = 0%Qc))) node_adjust'.
Proof.
  unfold train_epoch.
  destruct (py_div (- Qc_of_Z (Z.of_nat t))%Qc t_const) as [e|q1]; simpl; [done|].
  destruct (py_div (- lr)%Qc t_const) as [e|q2]; simpl; [done|].
  destruct (foldE _ node_adjust _) as [e|total] eqn:Htotal; simpl; [done|].
  intros [= <- <-]. eexists _, _, _, total. split; [exact Htotal|].
  split; [done|]. split; [done|].
  unfold fill0. apply Forall_fmap, Forall_forall. intros row _.
  apply Forall_fmap, Forall_forall. intros v _.
  apply Forall_fmap, Forall_forall. by intros x _.
Qed.

(** C5, the number of epochs.  [for t in xrange(1, num_epochs)] runs
    [num_epochs - 1] epochs, not [num_epochs]: the epochs are
    [1 .. num_epochs - 1]; asked for one epoch, [_train_data] runs none
    and returns the nodes as it received them. *)
Theorem training_runs_one_epoch_short :
  (∀ num_epochs, length (epochs num_epochs) = num_epochs - 1 ∧
                 ∀ t, t ∈ epochs num_epochs ↔ 1 ≤ t < num_epochs) ∧
  (∀ nodes lr radius,
     _train_data nodes lr 1 radius =
     l ← (if decide (0 < radius)%Qc then mret (log radius)
          else raise (ValueError "math domain error"));
     _ ← py_div (Qc_of_Z 1) l;
     mret nodes).
Proof.
  split.
  - intros num_epochs. unfold epochs, xrange. split; [by rewrite length_seq|].
    intros t. rewrite elem_of_seq. lia.
  - intros nodes lr radius. unfold _train_data.
    destruct (decide (0 < radius)%Qc); simpl; [|done].
    by destruct (py_div _ (log radius)).
Qed.

Lemma train_sample_no_bmu new_radius new_learn r nodes node_adjust k d :
  find_bmu nodes k = inr (d, None) →
  train_sample new_radius new_learn r nodes node_adjust k
  = inl (ValueError bmu_message).
Proof. intros Hbmu. unfold SOM.train_sample. by rewrite Hbmu. Qed.

(** C8, amended.  If, in an epoch [t] that training reaches, the samples
    before [k] are processed and sample [k] has no unit at a distance
    below [maxint], then [_train_data] raises [ValueError] with the fixed
    message [bmu_message], whatever [k] and [t] are. *)
Theorem no_bmu_raises_fixed_message
    (nodes0 : list (list (list Qc))) (lr radius : Qc) (num_epochs : nat)
    (t_const q1 q2 : Qc) (t k : nat)
    (nodes node_adjust adjusted : list (list (list Qc))) (d : Qc) :
  (0 < radius)%Qc →
  py_div (Qc_of_Z (Z.of_nat num_epochs)) (log radius) = inr t_const →
  1 ≤ t < num_epochs →
  foldE (train_epoch t_const radius lr) (nodes0, zeros3 vdim hdim vec_len)
        (xrange 1 t) = inr (nodes, node_adjust) →
  py_div (- Qc_of_Z (Z.of_nat t))%Qc t_const = inr q1 →
  py_div (- lr)%Qc t_const = inr q2 →
  k < num_samples →
  foldE (train_sample (radius * exp_e q1)%Qc (lr * exp_e q2)%Qc
           (2 * Qc_of_Z (Z.of_nat t) * (radius * exp_e q1) * (radius * exp_e q1))%Qc
           nodes)
        node_adjust (xrange 0 k) = inr adjusted →
  find_bmu nodes k = inr (d, None) →
  _train_data nodes0 lr num_epochs radius = inl (ValueError bmu_message).
Proof.
  intros Hradius Hconst Ht Hbefore Hq1 Hq2 Hk Hsamples Hbmu.
  unfold _train_data. rewrite decide_True by done. simpl. rewrite Hconst. simpl.
  unfold epochs. rewrite (xrange_middle 1 t num_epochs) by lia.
  rewrite foldE_app, Hbefore. simpl.
  unfold train_epoch at 1. rewrite Hq1. simpl. rewrite Hq2. simpl.
  rewrite (xrange_middle 0 k num_samples) by lia.
  rewrite foldE_app, Hsamples. simpl.
  by rewrite (train_sample_no_bmu _ _ _ _ _ _ _ Hbmu).
Qed.

End training_facts.

(** *** The claims at concrete inputs

    A 2-by-2 grid of one-dimensional nodes, all of weight 0, the Manhattan
    distance, and rational stand-ins for [e**x] and [math.log]. *)

Definition manhattan (a b : list Qc) : Qc :=
  foldl Qcplus 0%Qc
        (zip_with (λ x y, if decide (x < y)%Qc then (y - x)%Qc else (x - y)%Qc) a b).

Definition example_exp (x : Qc) : Qc := (/ (1 - x))%Qc.
Definition example_log (x : Qc) : Qc := (1 - / x)%Qc.
Definition maxint : Qc := Qc_of_Z (2 ^ 63 - 1).

Definition example_nodes : list (list (list Qc)) :=
  [ [ [0%Qc]; [0%Qc] ]; [ [0%Qc]; [0%Qc] ] ].

(** [_train_data] as [__init__] calls it for this grid, with the default
    learning rate; the radius is [(hdim + vdim) / 3.]. *)
Definition example_train (data_matrix : list (list Qc)) (num_epochs : nat)
  : result (list (list (list Qc))) :=
  _train_data manhattan example_exp example_log maxint
              data_matrix (length data_matrix) 1
              (_memo_chessboard_dists 2 2) 2 2
              example_nodes (Q2Qc (1 # 1000)) num_epochs (Q2Qc (4 # 3)).

(** One sample, far beyond [maxint] from every node. *)
Definition far_sample : list (list Qc) := [ [Qc_of_Z (2 ^ 63)] ].

(** Two samples: the first on the nodes, the second far away. *)
Definition near_then_far : list (list Qc) := [ [0%Qc]; [Qc_of_Z (2 ^ 63)] ].

(** Asked for one epoch, training returns the nodes untouched although
    the sample is at distance 5 from them; asked for two, it trains once. *)
Example one_epoch_requested_none_run :
  example_train [ [Qc_of_Z 5] ] 1 = inr example_nodes ∧
  example_train [ [Qc_of_Z 5] ] 2 ≠ inr example_nodes ∧
  epochs 2 = [1] ∧ epochs 2000 = seq 1 1999.
Proof.
  split; [vm_compute; reflexivity|]. split; [|by split].
  vm_compute. by intros [= H].
Qed.

(** C8, as stated, fails.  Training raises with one and the same message
    whether the sample without a unit is sample 0 (first run) or sample 1
    (second run): the message cannot name the offending sample. *)
Lemma message_names_no_sample :
  find_bmu manhattan maxint far_sample 2 2 example_nodes 0 = inr (maxint, None) ∧
  example_train far_sample 2000 = inl (ValueError bmu_message) ∧
  find_bmu manhattan maxint near_then_far 2 2 example_nodes 0
    = inr (0%Qc, Some (0, 0)) ∧
  find_bmu manhattan maxint near_then_far 2 2 example_nodes 1
    = inr (maxint, None) ∧
  example_train near_then_far 2000 = inl (ValueError bmu_message) ∧
  ¬ ∃ offending_sample : string → nat,
      (∀ m, example_train far_sample 2000 = inl (ValueError m) →
            offending_sample m = 0) ∧
      (∀ m, example_train near_then_far 2000 = inl (ValueError m) →
            offending_sample m = 1).
Proof.
  assert (example_train far_sample 2000 = inl (ValueError bmu_message)) as H1
    by (vm_compute; reflexivity).
  assert (example_train near_then_far 2000 = inl (ValueError bmu_message)) as H2
    by (vm_compute; reflexivity).
  split; [vm_compute; reflexivity|]. split; [exact H1|].
  split; [vm_compute; reflexivity|]. split; [vm_compute; reflexivity|].
  split; [exact H2|].
  intros (offending_sample & Hfar & Hnear).
  specialize (Hfar _ H1). specialize (Hnear _ H2). congruence.
Qed.

(** The deltas that sample 0 of [near_then_far] leaves in the accumulator
    in epoch 1. *)
Definition example_adjusted : list (list (list Qc)) :=
  match
    foldE (train_sample manhattan example_exp maxint near_then_far
             (_memo_chessboard_dists 2 2) 2 2
             (Q2Qc (4 # 3) * example_exp (- Qc_of_Z 1 / (Qc_of_Z 2000 / example_log (Q2Qc (4 # 3)))))%Qc
             (Q2Qc (1 # 1000) * example_exp (- Q2Qc (1 # 1000) / (Qc_of_Z 2000 / example_log (Q2Qc (4 # 3)))))%Qc
             (2 * Qc_of_Z 1
                * (Q2Qc (4 # 3) * example_exp (- Qc_of_Z 1 / (Qc_of_Z 2000 / example_log (Q2Qc (4 # 3)))))
                * (Q2Qc (4 # 3) * example_exp (- Qc_of_Z 1 / (Qc_of_Z 2000 / example_log (Q2Qc (4 # 3))))))%Qc
             example_nodes)
          (zeros3 2 2 1) (xrange 0 1)
  with
  | inr adjusted => adjusted
  | inl _ => []
  end.

Lemma no_bmu_raises_fixed_message_witness :
  find_bmu manhattan maxint near_then_far 2 2 example_nodes 1
    = inr (maxint, None) ∧
  example_train near_then_far 2000 = inl (ValueError bmu_message).
Proof.
  split; [vm_compute; reflexivity|].
  apply (no_bmu_raises_fixed_message manhattan example_exp example_log maxint
           near_then_far 2 1 (_memo_chessboard_dists 2 2) 2 2
           example_nodes (Q2Qc (1 # 1000)) (Q2Qc (4 # 3)) 2000
           (Qc_of_Z 2000 / example_log (Q2Qc (4 # 3)))%Qc
           (- Qc_of_Z 1 / (Qc_of_Z 2000 / example_log (Q2Qc (4 # 3))))%Qc
           (- Q2Qc (1 # 1000) / (Qc_of_Z 2000 / example_log (Q2Qc (4 # 3))))%Qc
           1 1 example_nodes (zeros3 2 2 1) example_adjusted maxint);
    [ vm_compute; reflexivity | vm_compute; reflexivity | lia
    | reflexivity | vm_compute; reflexivity | vm_compute; reflexivity | lia
    | vm_compute; reflexivity | vm_compute; reflexivity ].
Defined.

(** *** Assigning the clusters *)

(** Python's order on the tuples [(dist, i, j)]. *)
Definition tuple_lt (a b : Qc * nat * nat) : Prop :=
  (a.1.1 < b.1.1)%Qc ∨
  (a.1.1 = b.1.1 ∧ (a.1.2 < b.1.2 ∨ (a.1.2 = b.1.2 ∧ a.2 < b.2))).

#[global] Instance tuple_lt_dec (a b : Qc * nat * nat) : Decision (tuple_lt a b).
Proof. unfold tuple_lt. apply _. Defined.

(** [min(l)] on a list of such tuples; [None] is the ValueError on [[]]. *)
Definition py_min_tuple (l : list (Qc * nat * nat)) : option (Qc * nat * nat) :=
  match l with
  | [] => None
  | x :: rest => Some (foldl (λ m y, if decide (tuple_lt y m) then y else m) x rest)
  end.

(** The grid in the order of [for i in xrange(vdim) for j in xrange(hdim)]. *)
Definition grid (hdim vdim : nat) : list (nat * nat) :=
  i ← xrange 0 vdim; j ← xrange 0 hdim; [(i, j)].

(** [clusters.setdefault(key, []).append(i)] on a dict, kept as its
    contents and the list of its keys in the order of their insertion. *)
Definition setdefault_append (d : gmap (nat * nat) (list nat) * list (nat * nat))
    (key : nat * nat) (i : nat) : gmap (nat * nat) (list nat) * list (nat * nat) :=
  match d.1 !! key with
  | Some l => (<[key := l ++ [i]]> d.1, d.2)
  | None => (<[key := [i]]> d.1, d.2 ++ [key])
  end.

Section assignment.
(** [keys_order inserted] is the order in which Python iterates over a
    dict whose keys were inserted in the order [inserted]. *)
Context (distance : list Qc → list Qc → Qc).
Context (keys_order : list (nat * nat) → list (nat * nat)).
Context (nodes : list (list (list Qc))) (data_matrix : list (list Qc)).
Context (num_samples hdim vdim : nat).

(** The list [matches]: for each sample, the least [(dist, i, j)]. *)
Definition matches : option (list (Qc * nat * nat)) :=
  mapM (λ k,
          tuples ← mapM (λ ij, w ← mget nodes ij.1 ij.2;
                               sample ← data_matrix !! k;
                               Some (distance w sample, ij.1, ij.2))
                        (grid hdim vdim);
          py_min_tuple tuples)
       (xrange 0 num_samples).

(** The first loop: the dict [clusters] of sample indices by node. *)
Definition build_clusters (matches : list (Qc * nat * nat))
    (datapoints : list (option nat))
  : option (gmap (nat * nat) (list nat) * list (nat * nat)) :=
  foldM (λ d i,
           m ← matches !! i;
           let key := (m.1.2, m.2) in
           _ ← datapoints !! i;
           Some (setdefault_append d key i))
        (∅, []) (xrange 0 (length matches)).

(** The second loop, over [enumerate(clusters)]. *)
Definition label_clusters (clusters : gmap (nat * nat) (list nat))
    (order : list (nat * nat)) (datapoints : list (option nat))
  : option (list (option nat)) :=
  foldM (λ dp clust,
           samples ← clusters !! clust.2;
           foldM (λ dp sample, py_set dp sample (Some clust.1)) dp samples)
        datapoints (imap (λ id key, (id, key)) order).

(** [_assign_clusters]; [None] stands for any exception. *)
Definition _assign_clusters (datapoints : list (option nat))
  : option (list (option nat)) :=
  matches ← matches;
  d ← build_clusters matches datapoints;
  label_clusters d.1 (keys_order d.2) datapoints.

End assignment.

(** *** The iteration order of a small dict in CPython 2.7 (64-bit)

    The hash of a tuple of two small non-negative ints ([tuplehash] of
    tupleobject.c; the hash of such an int is the int), in 64-bit signed
    arithmetic. *)
Definition wrap64 (x : Z) : Z := ((x + 2 ^ 63) mod 2 ^ 64 - 2 ^ 63)%Z.

Definition tuplehash (ij : nat * nat) : Z :=
  let x := 0x345678%Z in
  let mult := 1000003%Z in
  let x := wrap64 (Z.lxor x (Z.of_nat ij.1) * mult) in
  let mult := wrap64 (mult + (82520 + 1 + 1)) in
  let x := wrap64 (Z.lxor x (Z.of_nat ij.2) * mult) in
  let x := wrap64 (x + 97531) in
  if decide (x = -1)%Z then (-2)%Z else x.

(** A dict of at most five keys has a table of eight slots; a key whose
    slot [hash & 7] is free goes there, and the dict is iterated slot by
    slot.  For keys with distinct slots this is the iteration order. *)
Definition slot (ij : nat * nat) : Z := Z.land (tuplehash ij) 7.

Definition cpython27_keys (inserted : list (nat * nat)) : list (nat * nat) :=
  @merge_sort (nat * nat) (λ a b, slot a ≤ slot b)%Z
              (λ a b, decide (slot a ≤ slot b)%Z) inserted.

(** *** Facts about the assignment *)

Lemma tuple_lt_irrefl (a : Qc * nat * nat) : ¬ tuple_lt a a.
Proof.
  intros [H|[_ [H|[_ H]]]]; [|lia|lia]. by apply Qclt_not_eq in H.
Qed.

Lemma tuple_lt_trans (a b c : Qc * nat * nat) :
  tuple_lt a b → tuple_lt b c → tuple_lt a c.
Proof.
  unfold tuple_lt. intros [Hab|[Hab Hab']] [Hbc|[Hbc Hbc']].
  - left. by eapply Qclt_trans.
  - left. by rewrite <- Hbc.
  - left. by rewrite Hab.
  - right. split; [congruence|]. lia.
Qed.

Lemma fold_min_least (seen rest : list (Qc * nat * nat)) (acc : Qc * nat * nat) :
  acc ∈ seen → (∀ y, y ∈ seen → ¬ tuple_lt y acc) →
  let r := foldl (λ m y, if decide (tuple_lt y m) then y else m) acc rest in
  r ∈ seen ++ rest ∧ ∀ y, y ∈ seen ++ rest → ¬ tuple_lt y r.
Proof.
  revert seen acc. induction rest as [|x rest IH]; intros seen acc Hacc Hleast; simpl.
  - rewrite app_nil_r. by split.
  - replace (seen ++ x :: rest) with ((seen ++ [x]) ++ rest)
      by (by rewrite <- app_assoc).
    destruct (decide (tuple_lt x acc)) as [Hlt|Hge]; apply IH.
    + apply elem_of_app. right. by left.
    + intros y Hy Hyx. apply elem_of_app in Hy as [Hy|Hy].
      * apply (Hleast y Hy). by eapply tuple_lt_trans.
      * apply list_elem_of_singleton in Hy as ->. by apply tuple_lt_irrefl in Hyx.
    + apply elem_of_app. by left.
    + intros y Hy. apply elem_of_app in Hy as [Hy|Hy]; [by apply Hleast|].
      by apply list_elem_of_singleton in Hy as ->.
Qed.

Lemma py_min_tuple_least (l : list (Qc * nat * nat)) (m : Qc * nat * nat) :
  py_min_tuple l = Some m → m ∈ l ∧ ∀ y, y ∈ l → ¬ tuple_lt y m.
Proof.
  destruct l as [|x rest]; [done|]. simpl. intros [= <-].
  apply (fold_min_least [x] rest x); [by left|].
  intros y Hy. apply list_elem_of_singleton in Hy as ->. apply tuple_lt_irrefl.
Qed.

(** Writing one label to the samples of a list. *)
Lemma label_samples (l : list nat) (dp : list (option nat)) (v : option nat) dp' :
  foldM (λ dp sample, py_set dp sample v) dp l = Some dp' →
  length dp' = length dp ∧
  ∀ k, dp' !! k = if decide (k ∈ l) then Some v else dp !! k.
Proof.
  revert dp. induction l as [|s l IH]; intros dp.
  - intros [= <-]. split; [done|]. intros k.
    rewrite decide_False; [done|]. apply not_elem_of_nil.
  - rewrite foldM_cons.
    destruct (py_set dp s v) as [dp1|] eqn:Hset; simpl; [|done].
    unfold py_set in Hset. destruct (decide (s < length dp)) as [Hs|]; [|done].
    injection Hset as <-.
    intros Hrest. destruct (IH _ Hrest) as [Hlen Hk].
    rewrite length_insert in Hlen. split; [done|]. intros k. rewrite Hk.
    destruct (decide (k ∈ l)) as [Hin|Hnin].
    + rewrite decide_True; [done|]. by right.
    + destruct (decide (k = s)) as [->|Hne].
      * rewrite decide_True by (by left). by apply list_lookup_insert_eq.
      * rewrite decide_False.
        -- by apply list_lookup_insert_ne.
        -- intros Hin. apply elem_of_cons in Hin as [?|?]; done.
Qed.

(** The node of sample [k] in [matches]. *)
Definition keyof (ms : list (Qc * nat * nat)) (k : nat) : option (nat * nat) :=
  (λ m, (m.1.2, m.2)) <$> ms !! k.

(** The distinct elements of a list in the order of their first
    appearance. *)
Definition first_appearances (keys : list (nat * nat)) : list (nat * nat) :=
  foldl (λ acc key, if decide (key ∈ acc) then acc else acc ++ [key]) [] keys.

(** The dict [clusters] after the first [p] samples. *)
Definition clusters_inv (ms : list (Qc * nat * nat)) (p : nat)
    (d : gmap (nat * nat) (list nat) * list (nat * nat)) : Prop :=
  NoDup d.2 ∧
  d.2 = first_appearances ((λ m, (m.1.2, m.2)) <$> take p ms) ∧
  (∀ key, is_Some (d.1 !! key) → key ∈ d.2) ∧
  (∀ key, key ∈ d.2 ↔ ∃ k, k < p ∧ keyof ms k = Some key) ∧
  (∀ key, key ∈ d.2 →
     ∃ l, d.1 !! key = Some l ∧ ∀ k, k ∈ l ↔ (k < p ∧ keyof ms k = Some key)).

Lemma setdefault_append_inv ms p d m :
  clusters_inv ms p d → ms !! p = Some m →
  clusters_inv ms (S p) (setdefault_append d (m.1.2, m.2) p).
Proof.
  destruct d as [c ins]. intros (Hnd & Hfirst & Hdom & Hins & Hlists) Hm.
  simpl in *. set (key := (m.1.2, m.2)).
  assert (keyof ms p = Some key) as Hkey by (unfold keyof; by rewrite Hm).
  assert (first_appearances ((λ m, (m.1.2, m.2)) <$> take (S p) ms)
          = if decide (key ∈ ins) then ins else ins ++ [key]) as Hfirst'.
  { rewrite (take_S_r _ _ _ Hm), fmap_app. unfold first_appearances.
    change ((λ m, (m.1.2, m.2)) <$> [m]) with [key].
    rewrite foldl_snoc. fold (first_appearances ((λ m, (m.1.2, m.2)) <$> take p ms)).
    by rewrite <- Hfirst. }
  unfold setdefault_append, clusters_inv. cbn [fst snd]. fold key.
  destruct (c !! key) as [l|] eqn:Hl; cbn [fst snd].
  - assert (key ∈ ins) as Hin by (apply Hdom; by rewrite Hl).
    rewrite decide_True in Hfirst' by done.
    split; [done|]. split; [done|]. split; [|split].
    + intros key' [l' Hl']. destruct (decide (key' = key)) as [->|Hne]; [done|].
      rewrite lookup_insert_ne in Hl' by done. apply Hdom. by rewrite Hl'.
    + intros key'. rewrite Hins. split.
      * intros (k & Hk & Hkk). exists k. split; [lia|done].
      * intros (k & Hk & Hkk). destruct (decide (k = p)) as [->|Hne].
        -- assert (key' = key) as -> by congruence. by apply Hins.
        -- exists k. split; [lia|done].
    + intros key' Hkey'. destruct (decide (key' = key)) as [->|Hne].
      * exists (l ++ [p]). rewrite lookup_insert_eq. split; [done|].
        destruct (Hlists key Hin) as (l0 & Hl0 & Hmem).
        assert (l0 = l) as -> by congruence.
        intros k. rewrite elem_of_app, Hmem, list_elem_of_singleton. split.
        -- intros [[Hk Hkk]| ->]; [split; [lia|done] | split; [lia|done]].
        -- intros [Hk Hkk]. destruct (decide (k = p)) as [->|Hnp]; [by right|].
           left. split; [lia|done].
      * destruct (Hlists key' Hkey') as (l' & Hl' & Hmem).
        exists l'. rewrite lookup_insert_ne by done. split; [done|].
        intros k. rewrite Hmem. split.
        -- intros [Hk Hkk]. split; [lia|done].
        -- intros [Hk Hkk]. split; [|done].
           destruct (decide (k = p)) as [->|Hnp]; [congruence | lia].
  - assert (key ∉ ins) as Hnin.
    { intros Hin. destruct (Hlists key Hin) as (l & Hl' & _). congruence. }
    rewrite decide_False in Hfirst' by done.
    split; [|split; [done|split; [|split]]].
    + apply NoDup_app. split; [done|]. split; [|apply NoDup_singleton].
      intros x Hx Hx'. apply list_elem_of_singleton in Hx' as ->. done.
    + intros key' [l' Hl']. apply elem_of_app.
      destruct (decide (key' = key)) as [->|Hne]; [right; by left|].
      rewrite lookup_insert_ne in Hl' by done. left. apply Hdom. by rewrite Hl'.
    + intros key'. rewrite elem_of_app, list_elem_of_singleton, Hins. split.
      * intros [(k & Hk & Hkk)| ->]; [exists k; split; [lia|done]|].
        exists p. split; [lia|done].
      * intros (k & Hk & Hkk). destruct (decide (k = p)) as [->|Hne].
        -- right. congruence.
        -- left. exists k. split; [lia|done].
    + intros key' Hkey'. apply elem_of_app in Hkey' as [Hkey'|Hkey'].
      * assert (key' ≠ key) as Hne by (intros ->; done).
        destruct (Hlists key' Hkey') as (l' & Hl' & Hmem).
        exists l'. rewrite lookup_insert_ne by done. split; [done|].
        intros k. rewrite Hmem. split.
        -- intros [Hk Hkk]. split; [lia|done].
        -- intros [Hk Hkk]. split; [|done].
           destruct (decide (k = p)) as [->|Hnp]; [congruence | lia].
      * apply list_elem_of_singleton in Hkey' as ->.
        exists [p]. rewrite lookup_insert_eq. split; [done|].
        intros k. rewrite list_elem_of_singleton. split.
        -- intros ->. split; [lia|done].
        -- intros [Hk Hkk]. destruct (decide (k = p)) as [->|Hnp]; [done|].
           exfalso. apply Hnin, Hins. exists k. split; [lia|done].
Qed.

Lemma build_clusters_prefix ms (datapoints : list (option nat)) p d :
  p ≤ length ms →
  foldM (λ d i, m ← ms !! i;
                let key := (m.1.2, m.2) in
                _ ← datapoints !! i;
                Some (setdefault_append d key i))
        (∅, []) (xrange 0 p) = Some d →
  clusters_inv ms p d.
Proof.
  revert d. induction p as [|p IH]; intros d Hp.
  - intros [= <-]. split; [constructor|]. split; [done|]. split.
    { intros key [l Hl]. cbn [fst] in Hl. by rewrite lookup_empty in Hl. }
    split.
    + intros key. split; [intros H; by apply elem_of_nil in H|].
      intros (k & Hk & _). lia.
    + intros key H. by apply elem_of_nil in H.
  - rewrite xrange_snoc, foldM_app by lia.
    destruct (foldM _ _ (xrange 0 p)) as [d0|] eqn:Hd0; simpl; [|done].
    destruct (ms !! p) as [m|] eqn:Hm; simpl; [|done].
    destruct (datapoints !! p); simpl; [|done].
    intros [= <-]. apply setdefault_append_inv; [|done]. apply IH; [lia|done].
Qed.

Lemma build_clusters_inv ms datapoints d :
  build_clusters ms datapoints = Some d → clusters_inv ms (length ms) d.
Proof. by apply build_clusters_prefix. Qed.

(** The second loop writes to each sample the rank of its node in the
    order of iteration. *)
Lemma label_clusters_from (c : gmap (nat * nat) (list nat))
    (key_of : nat → option (nat * nat)) (n : nat)
    (order : list (nat * nat)) (off : nat) (dp dp' : list (option nat)) :
  NoDup order →
  (∀ key, key ∈ order →
     ∃ l, c !! key = Some l ∧ ∀ k, k ∈ l ↔ (k < n ∧ key_of k = Some key)) →
  foldM (λ dp clust,
           samples ← c !! clust.2;
           foldM (λ dp sample, py_set dp sample (Some clust.1)) dp samples)
        dp (imap (λ id key, (off + id, key)) order) = Some dp' →
  length dp' = length dp ∧
  ∀ k key, k < n → key_of k = Some key →
    (∀ id, order !! id = Some key → dp' !! k = Some (Some (off + id))) ∧
    (key ∉ order → dp' !! k = dp !! k).
Proof.
  revert off dp. induction order as [|key0 order IH]; intros off dp Hnd Hc.
  - intros [= <-]. split; [done|]. intros k key Hk Hkey. by split.
  - rewrite imap_cons, foldM_cons. cbn [fst snd].
    apply NoDup_cons in Hnd as [Hnin Hnd].
    destruct (Hc key0) as (l0 & Hl0 & Hmem0); [by left|]. rewrite Hl0. simpl.
    destruct (foldM _ dp l0) as [dp1|] eqn:Hdp1; simpl; [|done].
    apply label_samples in Hdp1 as [Hlen1 Hdp1].
    rewrite (imap_ext _ (λ id key, (S off + id, key))); last first.
    { intros i x _. simpl. f_equal. lia. }
    intros Hrest. apply IH in Hrest as [Hlen' Hdp']; [|done|].
    2: { intros key Hkey. apply Hc. by right. }
    split; [congruence|].
    intros k key Hk Hkey. destruct (Hdp' k key Hk Hkey) as [Hin' Hout']. split.
    + intros [|id] Hid; simpl in Hid.
      * injection Hid as <-. rewrite Hout' by done. rewrite Hdp1.
        rewrite decide_True by (by apply Hmem0). by rewrite Nat.add_0_r.
      * rewrite (Hin' id Hid). do 2 f_equal. lia.
    + intros Hnot. rewrite Hout'; last first.
      { intros Hin. apply Hnot. by right. }
      rewrite Hdp1. rewrite decide_False; [done|].
      intros Hkin. apply Hmem0 in Hkin as [_ Hk0].
      apply Hnot. assert (key = key0) as -> by congruence. by left.
Qed.

Section assignment_facts.
Context (distance : list Qc → list Qc → Qc).
Context (keys_order : list (nat * nat) → list (nat * nat)).
Context (nodes : list (list (list Qc))) (data_matrix : list (list Qc)).
Context (num_samples hdim vdim : nat).

(** A dict is iterated key by key, each key once. *)
Hypothesis keys_order_perm : ∀ ks, NoDup ks → keys_order ks ≡ₚ ks.

Local Abbreviation matches := (matches distance nodes data_matrix num_samples hdim vdim).
Local Abbreviation _assign_clusters :=
  (_assign_clusters distance keys_order nodes data_matrix num_samples hdim vdim).

(** Entry [k] of [matches] is the node nearest to sample [k], the first
    such node in the order of the scan. *)
Lemma matches_nearest ms k :
  matches = Some ms → k < num_samples →
  ∃ d i j sample w,
    ms !! k = Some (d, i, j) ∧
    data_matrix !! k = Some sample ∧ mget nodes i j = Some w ∧
    d = distance w sample ∧ (i, j) ∈ grid hdim vdim ∧
    ∀ i' j' w', (i', j') ∈ grid hdim vdim → mget nodes i' j' = Some w' →
                ¬ tuple_lt (distance w' sample, i', j') (d, i, j).
Proof.
  intros Hms Hk. pose proof (mapM_lookup _ _ _ k Hms) as Hmk.
  unfold xrange in Hmk. rewrite lookup_seq_lt in Hmk by lia. simpl in Hmk.
  destruct (mapM _ (grid hdim vdim)) as [tuples|] eqn:Htuples; simpl in Hmk.
  2: { apply lookup_ge_None in Hmk. apply length_mapM in Hms.
       unfold xrange in Hms. rewrite length_seq in Hms. lia. }
  destruct (ms !! k) as [m|] eqn:Hm.
  2: { apply lookup_ge_None in Hm. apply length_mapM in Hms.
       unfold xrange in Hms. rewrite length_seq in Hms. lia. }
  symmetry in Hmk. apply py_min_tuple_least in Hmk as [Hin Hleast].
  apply list_elem_of_lookup in Hin as [pos Hpos].
  rewrite (mapM_lookup _ _ _ pos Htuples) in Hpos.
  destruct (grid hdim vdim !! pos) as [[i j]|] eqn:Hij; simpl in Hpos; [|done].
  destruct (mget nodes i j) as [w|] eqn:Hw; simpl in Hpos; [|done].
  destruct (data_matrix !! k) as [sample|] eqn:Hsample; simpl in Hpos; [|done].
  injection Hpos as <-.
  exists (distance w sample), i, j, sample, w.
  split; [done|]. split; [done|]. split; [done|]. split; [done|].
  split; [by eapply list_elem_of_lookup_2|].
  intros i' j' w' Hin' Hw'. apply Hleast.
  apply list_elem_of_lookup in Hin' as [pos' Hpos'].
  apply list_elem_of_lookup. exists pos'.
  rewrite (mapM_lookup _ _ _ pos' Htuples), Hpos'. simpl. by rewrite Hw'.
Qed.

(** C6, amended.  Every sample is assigned to its nearest node, the
    first one in the scan among the nearest; the nodes that received a
    sample, listed in the order of their first appearance, are iterated in
    the order the dict gives them, and a sample's [cluster_id] is the
    rank of its node in that order. *)
Theorem labels_rank_nodes_in_dict_order (datapoints dp' : list (option nat)) :
  _assign_clusters datapoints = Some dp' →
  ∃ ms,
    matches = Some ms ∧
    let inserted := first_appearances ((λ m, (m.1.2, m.2)) <$> ms) in
    let order := keys_order inserted in
    order ≡ₚ inserted ∧ NoDup order ∧
    ∀ k, k < num_samples →
      ∃ d i j sample w id,
        ms !! k = Some (d, i, j) ∧
        data_matrix !! k = Some sample ∧ mget nodes i j = Some w ∧
        d = distance w sample ∧
        (∀ i' j' w', (i', j') ∈ grid hdim vdim → mget nodes i' j' = Some w' →
                     ¬ tuple_lt (distance w' sample, i', j') (d, i, j)) ∧
        order !! id = Some (i, j) ∧
        dp' !! k = Some (Some id).
Proof.
  unfold SOM._assign_clusters.
  destruct matches as [ms|] eqn:Hms; simpl; [|done].
  destruct (build_clusters ms datapoints) as [[c ins]|] eqn:Hbuild; simpl; [|done].
  intros Hlabel. exists ms. split; [done|].
  pose proof (build_clusters_inv _ _ _ Hbuild) as (Hnd & Hfirst & _ & Hins & Hlists).
  cbn [fst snd] in *. rewrite take_ge in Hfirst by done. rewrite <- Hfirst.
  pose proof (keys_order_perm ins Hnd) as Hperm.
  assert (NoDup (keys_order ins)) as Hnd' by (by rewrite Hperm).
  split; [done|]. split; [done|].
  assert (length ms = num_samples) as Hlen.
  { apply length_mapM in Hms. unfold xrange in Hms. rewrite length_seq in Hms. lia. }
  unfold label_clusters in Hlabel.
  rewrite (imap_ext _ (λ id key, (0 + id, key))) in Hlabel by done.
  apply (label_clusters_from c (keyof ms) num_samples) in Hlabel as [_ Hdp'];
    [|done|].
  2: { intros key Hkey. rewrite Hperm in Hkey.
       destruct (Hlists key Hkey) as (l & Hl & Hmem). exists l. split; [done|].
       intros k. rewrite Hmem. by rewrite Hlen. }
  intros k Hk.
  destruct (matches_nearest ms k Hms Hk)
    as (d & i & j & sample & w & Hm & Hsample & Hw & Hd & _ & Hleast).
  assert (keyof ms k = Some (i, j)) as Hkey by (unfold keyof; by rewrite Hm).
  assert ((i, j) ∈ keys_order ins) as Hin.
  { rewrite Hperm. apply Hins. exists k. split; [lia|done]. }
  apply list_elem_of_lookup in Hin as [id Hid].
  exists d, i, j, sample, w, id.
  split; [done|]. split; [done|]. split; [done|]. split; [done|].
  split; [done|]. split; [done|].
  destruct (Hdp' k (i, j) Hk Hkey) as [Hrank _]. by rewrite (Hrank id Hid).
Qed.

End assignment_facts.

(** With a dict that is iterated in the order of insertion (Python 3.7
    and later, not the Python 2 of this code) the rank is the rank of
    first appearance. *)
Corollary labels_by_first_appearance_if_insertion_ordered
    (distance : list Qc → list Qc → Qc)
    (nodes : list (list (list Qc))) (data_matrix : list (list Qc))
    (num_samples hdim vdim : nat) (datapoints dp' : list (option nat)) :
  _assign_clusters distance id nodes data_matrix num_samples hdim vdim datapoints
    = Some dp' →
  ∃ ms,
    matches distance nodes data_matrix num_samples hdim vdim = Some ms ∧
    ∀ k, k < num_samples →
      ∃ m id, ms !! k = Some m ∧
              first_appearances ((λ m, (m.1.2, m.2)) <$> ms) !! id
                = Some (m.1.2, m.2) ∧
              dp' !! k = Some (Some id).
Proof.
  unfold _assign_clusters.
  destruct (matches distance nodes data_matrix num_samples hdim vdim)
    as [ms|] eqn:Hms; simpl; [|done].
  destruct (build_clusters ms datapoints) as [[c ins]|] eqn:Hbuild; simpl; [|done].
  intros Hlabel. exists ms. split; [done|].
  pose proof (build_clusters_inv _ _ _ Hbuild) as (Hnd & Hfirst & _ & Hins & Hlists).
  cbn [fst snd] in *. rewrite take_ge in Hfirst by done. rewrite <- Hfirst.
  assert (length ms = num_samples) as Hlen.
  { apply length_mapM in Hms. unfold xrange in Hms. rewrite length_seq in Hms. lia. }
  unfold label_clusters in Hlabel.
  rewrite (imap_ext _ (λ id key, (0 + id, key))) in Hlabel by done.
  apply (label_clusters_from c (keyof ms) num_samples) in Hlabel as [_ Hdp'];
    [|done|].
  2: { intros key Hkey. destruct (Hlists key Hkey) as (l & Hl & Hmem).
       exists l. split; [done|]. intros k. rewrite Hmem. by rewrite Hlen. }
  intros k Hk.
  destruct (matches_nearest _ _ _ _ _ _ ms k Hms Hk)
    as (d & i & j & sample & w & Hm & _).
  assert (keyof ms k = Some (i, j)) as Hkey by (unfold keyof; by rewrite Hm).
  assert ((i, j) ∈ ins) as Hin.
  { apply Hins. exists k. split; [lia|done]. }
  apply list_elem_of_lookup in Hin as [id Hid].
  exists (d, i, j), id. split; [done|]. split; [done|].
  destruct (Hdp' k (i, j) Hk Hkey) as [Hrank _]. by rewrite (Hrank id Hid).
Qed.

(** Two of the four nodes are close to the data: [(0, 0)] at 0 and
    [(0, 1)] at 10.  The samples 1, 9, 0 fall to the nodes [(0, 0)],
    [(0, 1)], [(0, 0)]. *)
Definition example_grid_nodes : list (list (list Qc)) :=
  [ [ [Qc_of_Z 0]; [Qc_of_Z 10] ]; [ [Qc_of_Z 100]; [Qc_of_Z 100] ] ].

Definition example_data : list (list Qc) :=
  [ [Qc_of_Z 1]; [Qc_of_Z 9]; [Qc_of_Z 0] ].

(** C6, as stated, fails.  The node [(0, 0)] appears first and [(0, 1)]
    second, but the dict holds [(0, 1)] in slot 0 and [(0, 0)] in slot 3
    and is iterated in that order: the samples are labelled 1, 0, 1 and
    not 0, 1, 0. *)
Lemma first_appearance_order_refuted :
  matches manhattan example_grid_nodes example_data 3 2 2
    = Some [(1%Qc, 0, 0); (1%Qc, 0, 1); (0%Qc, 0, 0)] ∧
  first_appearances [(0, 0); (0, 1); (0, 0)] = [(0, 0); (0, 1)] ∧
  tuplehash (0, 0) = 3713080549408328131%Z ∧
  tuplehash (0, 1) = 3713080549409410656%Z ∧
  slot (0, 0) = 3%Z ∧ slot (0, 1) = 0%Z ∧
  cpython27_keys [(0, 0); (0, 1)] = [(0, 1); (0, 0)] ∧
  _assign_clusters manhattan cpython27_keys example_grid_nodes example_data 3 2 2
                   [None; None; None]
    = Some [Some 1; Some 0; Some 1] ∧
  _assign_clusters manhattan cpython27_keys example_grid_nodes example_data 3 2 2
                   [None; None; None]
    ≠ Some [Some 0; Some 1; Some 0].
Proof.
  assert (_assign_clusters manhattan cpython27_keys example_grid_nodes
            example_data 3 2 2 [None; None; None]
          = Some [Some 1; Some 0; Some 1]) as H by (vm_compute; reflexivity).
  do 7 (split; [vm_compute; reflexivity|]).
  split; [exact H|]. rewrite H. by intros [= ?].
Qed.

Lemma labels_rank_nodes_in_dict_order_witness :
  (∀ ks, NoDup ks → cpython27_keys ks ≡ₚ ks) ∧
  _assign_clusters manhattan cpython27_keys example_grid_nodes example_data 3 2 2
                   [None; None; None]
    = Some [Some 1; Some 0; Some 1] ∧
  ∃ ms,
    matches manhattan example_grid_nodes example_data 3 2 2 = Some ms ∧
    let inserted := first_appearances ((λ m, (m.1.2, m.2)) <$> ms) in
    let order := cpython27_keys inserted in
    order ≡ₚ inserted ∧ NoDup order ∧
    ∀ k, k < 3 →
      ∃ d i j sample w id,
        ms !! k = Some (d, i, j) ∧
        example_data !! k = Some sample ∧
        mget example_grid_nodes i j = Some w ∧
        d = manhattan w sample ∧
        (∀ i' j' w', (i', j') ∈ grid 2 2 →
                     mget example_grid_nodes i' j' = Some w' →
                     ¬ tuple_lt (manhattan w' sample, i', j') (d, i, j)) ∧
        order !! id = Some (i, j) ∧
        [Some 1; Some 0; Some 1] !! k = Some (Some id).
Proof.
  assert (∀ ks, NoDup ks → cpython27_keys ks ≡ₚ ks) as Hperm.
  { intros ks _. apply merge_sort_Permutation. }
  assert (_assign_clusters manhattan cpython27_keys example_grid_nodes
            example_data 3 2 2 [None; None; None]
          = Some [Some 1; Some 0; Some 1]) as H by (vm_compute; reflexivity).
  split; [exact Hperm|]. split; [exact H|].
  exact (labels_rank_nodes_in_dict_order manhattan cpython27_keys
           example_grid_nodes example_data 3 2 2 Hperm
           [None; None; None] [Some 1; Some 0; Some 1] H).
Defined.


(** *** The table of chessboard distances *)

Lemma foldl_bind {S B C} (f : S → C → S) (g : B → list C) (l : list B) (s : S) :
  foldl f s (l ≫= g) = foldl (λ s x, foldl f s (g x)) s l.
Proof.
  revert s. induction l as [|x l IH]; intros s; simpl; [done|].
  by rewrite foldl_app, IH.
Qed.

Lemma foldl_ext {S B} (f g : S → B → S) (l : list B) (s : S) :
  (∀ s x, f s x = g s x) → foldl f s l = foldl g s l.
Proof.
  intros Hfg. revert s. induction l as [|x l IH]; intros s; simpl; [done|].
  by rewrite Hfg, IH.
Qed.

Lemma foldl_insert_lookup {V} (f : nat * nat * nat * nat → V)
    (keys : list (nat * nat * nat * nat)) (M : gmap (nat * nat * nat * nat) V)
    (key : nat * nat * nat * nat) :
  foldl (λ M x, <[x := f x]> M) M keys !! key
  = if decide (key ∈ keys) then Some (f key) else M !! key.
Proof.
  revert M. induction keys as [|x keys IH]; intros M; cbn [foldl].
  - by rewrite decide_False by apply not_elem_of_nil.
  - rewrite IH. destruct (decide (key ∈ keys)) as [Hin|Hnotin].
    + by rewrite decide_True by by right.
    + destruct (decide (key = x)) as [->|Hne].
      * rewrite lookup_insert_eq. by rewrite decide_True by by left.
      * rewrite lookup_insert_ne by done. rewrite decide_False; [done|].
        by intros [?|?]%elem_of_cons.
Qed.

(** The chessboard distance of two grid positions. *)
Definition chessboard (key : nat * nat * nat * nat) : Z :=
  let '(i, j, k, l) := key in
  Z.max (Z.abs (Z.of_nat i - Z.of_nat k)) (Z.abs (Z.of_nat j - Z.of_nat l)).

Lemma chessboard_table_lookup (hdim vdim i j k l : nat) :
  _memo_chessboard_dists hdim vdim !! (i, j, k, l)
  = if decide (i < vdim ∧ j < hdim ∧ k < vdim ∧ l < hdim)
    then Some (chessboard (i, j, k, l)) else None.
Proof.
  unfold _memo_chessboard_dists.
  pose proof (foldl_insert_lookup chessboard
    (i ← xrange 0 vdim; j ← xrange 0 hdim; k ← xrange 0 vdim;
     l ← xrange 0 hdim; [(i, j, k, l)]) ∅ (i, j, k, l)) as Hfold.
  rewrite foldl_bind in Hfold.
  erewrite (foldl_ext _ _ (xrange 0 vdim)) in Hfold; cycle 1.
  { intros M a. rewrite foldl_bind.
    erewrite (foldl_ext _ _ (xrange 0 hdim)); [reflexivity|].
    intros M' b. rewrite foldl_bind.
    erewrite (foldl_ext _ _ (xrange 0 vdim)); [reflexivity|].
    intros M'' c. rewrite foldl_bind. reflexivity. }
  simpl in Hfold. rewrite Hfold, lookup_empty.
  apply decide_ext. unfold xrange.
  rewrite list_elem_of_bind. setoid_rewrite list_elem_of_bind.
  setoid_rewrite list_elem_of_bind. setoid_rewrite list_elem_of_bind.
  setoid_rewrite list_elem_of_singleton. setoid_rewrite elem_of_seq. split.
  - intros (a & (b & (c & (d & [= -> -> -> ->] & Hd) & Hc) & Hb) & Ha). lia.
  - intros (Hi & Hj & Hk & Hl). exists i. split; [|lia].
    exists j. split; [|lia]. exists k. split; [|lia]. exists l.
    split; [done|lia].
Qed.

Lemma chessboard_table_is_Some (hdim vdim i j k l : nat) :
  i < vdim → j < hdim → k < vdim → l < hdim →
  is_Some (_memo_chessboard_dists hdim vdim !! (i, j, k, l)).
Proof.
  intros. rewrite chessboard_table_lookup, decide_True by done. by eexists.
Qed.

(** [_memo_chessboard_dists] holds exactly the pairs of positions of the
    [vdim]-by-[hdim] grid, each with the chessboard distance of the pair,
    and it is symmetric, as its FIXME says. *)
Theorem chessboard_table_complete_and_symmetric (hdim vdim : nat) :
  (∀ i j k l,
     _memo_chessboard_dists hdim vdim !! (i, j, k, l)
     = if decide (i < vdim ∧ j < hdim ∧ k < vdim ∧ l < hdim)
       then Some (Z.max (Z.abs (Z.of_nat i - Z.of_nat k))
                        (Z.abs (Z.of_nat j - Z.of_nat l)))
       else None) ∧
  (∀ i j k l,
     _memo_chessboard_dists hdim vdim !! (i, j, k, l)
     = _memo_chessboard_dists hdim vdim !! (k, l, i, j)).
Proof.
  split.
  - intros i j k l. by rewrite chessboard_table_lookup.
  - intros i j k l. rewrite !chessboard_table_lookup. unfold chessboard.
    destruct (decide (i < vdim ∧ j < hdim ∧ k < vdim ∧ l < hdim)) as [H|H].
    + rewrite decide_True by tauto. f_equal. lia.
    + rewrite decide_False by tauto. done.
Qed.


(** *** Training never misses the table *)

Lemma foldE_never {S A} (e : exception) (f : S → A → result S)
    (l : list A) (s : S) :
  (∀ s x, x ∈ l → f s x ≠ inl e) → foldE f s l ≠ inl e.
Proof.
  revert s. induction l as [|x l IH]; intros s Hf; simpl; [done|].
  destruct (f s x) as [e'|s'] eqn:Hfx; simpl.
  - rewrite <- Hfx. apply Hf. by left.
  - apply IH. intros s'' y Hy. apply Hf. by right.
Qed.

Lemma foldE_invariant {S A} (P : S → Prop) (f : S → A → result S) (l : list A) :
  (∀ s x s', x ∈ l → P s → f s x = inr s' → P s') →
  ∀ s s', P s → foldE f s l = inr s' → P s'.
Proof.
  induction l as [|x l IH]; intros Hstep s s' Hs; simpl.
  - by intros [= <-].
  - destruct (f s x) as [e|s1] eqn:Hf; simpl; [done|].
    apply IH.
    + intros ? y ? Hy. apply Hstep. by right.
    + eapply Hstep; [by left | exact Hs | exact Hf].
Qed.

Lemma or_raise_never {A} (e e' : exception) (o : option A) :
  e' ≠ e → or_raise e' o ≠ (inl e : result A).
Proof. intros Hne. destruct o; simpl; [done|]. congruence. Qed.

Section table_lookups.
Context (distance : list Qc → list Qc → Qc) (exp_e log : Qc → Qc) (maxint : Qc).
Context (data_matrix : list (list Qc)) (num_samples vec_len : nat).
Context (hdim vdim : nat).

Local Abbreviation chessdists := (_memo_chessboard_dists hdim vdim).
Local Abbreviation find_bmu := (find_bmu distance maxint data_matrix hdim vdim).
Local Abbreviation adjust_node := (adjust_node exp_e data_matrix chessdists).
Local Abbreviation train_sample :=
  (train_sample distance exp_e maxint data_matrix chessdists hdim vdim).
Local Abbreviation train_epoch :=
  (train_epoch distance exp_e maxint data_matrix num_samples chessdists hdim vdim).

(** The best matching unit is a position of the grid. *)
Lemma find_bmu_in_grid nodes k bmu y x :
  find_bmu nodes k = inr bmu → bmu.2 = Some (y, x) → y < vdim ∧ x < hdim.
Proof.
  unfold SOM.find_bmu. intros Hbmu. revert y x. revert Hbmu.
  apply (foldE_invariant
           (λ bmu : Qc * option (nat * nat),
              ∀ y x, bmu.2 = Some (y, x) → y < vdim ∧ x < hdim)); [|done].
  intros s i s' Hi Hs. unfold xrange in Hi. apply elem_of_seq in Hi.
  apply (foldE_invariant
           (λ bmu : Qc * option (nat * nat),
              ∀ y x, bmu.2 = Some (y, x) → y < vdim ∧ x < hdim)); [|done].
  intros s1 j s1' Hj Hs1. unfold xrange in Hj. apply elem_of_seq in Hj.
  destruct (mget nodes i j) as [w|]; simpl; [|done].
  destruct (data_matrix !! k) as [sample|]; simpl; [|done].
  intros [= <-]. destruct (decide _); [|done].
  simpl. intros y x [= <- <-]. lia.
Qed.

Lemma find_bmu_never nodes k : find_bmu nodes k ≠ inl KeyError.
Proof.
  unfold SOM.find_bmu. apply foldE_never. intros s i _.
  apply foldE_never. intros s1 j _.
  destruct (mget nodes i j) as [w|]; simpl; [|done].
  by destruct (data_matrix !! k) as [sample|].
Qed.

Lemma adjust_node_never r new_learn nodes k y x i j node_adjust :
  y < vdim → x < hdim → i < vdim → j < hdim →
  adjust_node r new_learn nodes k y x i j node_adjust ≠ inl KeyError.
Proof.
  intros Hy Hx Hi Hj. unfold SOM.adjust_node.
  destruct (chessboard_table_is_Some hdim vdim y x i j)
    as [dist ->]; [done..|]. simpl.
  unfold py_div. destruct (decide (r = 0%Qc)); simpl; [done|].
  destruct (data_matrix !! k) as [sample|]; simpl; [|done].
  destruct (mget nodes i j) as [w|]; simpl; [|done].
  destruct (mget node_adjust i j) as [a|]; simpl; [|done].
  by apply or_raise_never.
Qed.

Lemma elem_of_xrangeZ (a b : Z) (i : nat) :
  i ∈ xrangeZ a b → ∃ z, i = Z.to_nat z ∧ (a ≤ z < b)%Z.
Proof.
  unfold xrangeZ. intros (z & -> & Hz)%list_elem_of_fmap.
  apply elem_of_seqZ in Hz. exists z. split; [done|lia].
Qed.

Lemma train_sample_never new_radius new_learn r nodes node_adjust k :
  train_sample new_radius new_learn r nodes node_adjust k ≠ inl KeyError.
Proof.
  unfold SOM.train_sample.
  destruct (find_bmu nodes k) as [e|bmu] eqn:Hbmu; simpl.
  { intros [= ->]. exact (find_bmu_never _ _ Hbmu). }
  destruct bmu.2 as [[y x]|] eqn:Hyx; simpl; [|done].
  destruct (find_bmu_in_grid _ _ _ _ _ Hbmu Hyx) as [Hy Hx].
  apply foldE_never. intros s i Hi. apply foldE_never. intros s1 j Hj.
  apply elem_of_xrangeZ in Hi as (zi & -> & Hzi).
  apply elem_of_xrangeZ in Hj as (zj & -> & Hzj).
  apply adjust_node_never; [done|done| |].
  - destruct (decide (Z.of_nat vdim < _)%Z) in Hzi; lia.
  - destruct (decide (Z.of_nat hdim < _)%Z) in Hzj; lia.
Qed.

Lemma train_epoch_never t_const radius lr st t :
  train_epoch t_const radius lr st t ≠ inl KeyError.
Proof.
  destruct st as [nodes node_adjust]. unfold SOM.train_epoch.
  destruct (py_div (- Qc_of_Z (Z.of_nat t))%Qc t_const) as [e|q1] eqn:Hq1; simpl.
  { unfold py_div in Hq1. destruct (decide _); [|done]. by injection Hq1 as <-. }
  destruct (py_div (- lr)%Qc t_const) as [e|q2] eqn:Hq2; simpl.
  { unfold py_div in Hq2. destruct (decide _); [|done]. by injection Hq2 as <-. }
  destruct (foldE _ node_adjust _) as [e|total] eqn:Htotal; simpl; [|done].
  intros [= ->]. revert Htotal. apply foldE_never. intros s k _.
  apply train_sample_never.
Qed.

(** [_train_data] never raises KeyError on the table that
    [_memo_chessboard_dists] built for its grid: the best matching unit is
    a position of the grid and its neighbourhood is clipped to the grid,
    so every [chessdists[(y,x,i,j)]] finds its key. *)
Theorem training_never_raises_KeyError
    (nodes : list (list (list Qc))) (lr : Qc) (num_epochs : nat) (radius : Qc) :
  _train_data distance exp_e log maxint data_matrix num_samples vec_len
              (_memo_chessboard_dists hdim vdim) hdim vdim
              nodes lr num_epochs radius ≠ inl KeyError.
Proof.
  unfold _train_data.
  destruct (decide (0 < radius)%Qc); simpl; [|done].
  destruct (py_div _ (log radius)) as [e|t_const] eqn:Hconst; simpl.
  { unfold py_div in Hconst. destruct (decide _); [|done].
    by injection Hconst as <-. }
  destruct (foldE _ _ (epochs num_epochs)) as [e|st] eqn:Hst; simpl; [|done].
  intros [= ->]. revert Hst. apply foldE_never. intros s t _.
  apply train_epoch_never.
Qed.

End table_lookups.


(** *** [__init__] *)

(** The message of the ValueError [__init__] raises itself. *)
Definition dims_message : string := "Passed node array dimensions less than 2!".

(** [max(l)] on a list of numbers; [None] is the ValueError on [[]]. *)
Definition py_max (l : list Qc) : option Qc :=
  match l with
  | [] => None
  | x :: rest => Some (foldl (λ m y, if decide (m < y)%Qc then y else m) x rest)
  end.

(** [data_matrix.min(0)] and [data_matrix.max(0)]: the least and the
    greatest entry of every column. *)
Definition column_mins (data_matrix : list (list Qc)) (vec_len : nat)
  : option (list Qc) :=
  mapM (λ i, col ← mapM (λ row : list Qc, row !! i) data_matrix; PAM.py_min col)
       (xrange 0 vec_len).

Definition column_maxs (data_matrix : list (list Qc)) (vec_len : nat)
  : option (list Qc) :=
  mapM (λ i, col ← mapM (λ row : list Qc, row !! i) data_matrix; py_max col)
       (xrange 0 vec_len).

(** [_gen_initial_nodes]; [ran t] is what the call number [t] of
    [random.random()] returns, the calls being made for [k], then [j],
    then [i]. *)
Definition _gen_initial_nodes (ran : nat → Qc) (data_matrix : list (list Qc))
    (hdim vdim vec_len : nat) : option (list (list (list Qc))) :=
  mins ← column_mins data_matrix vec_len;
  maxs ← column_maxs data_matrix vec_len;
  mapM (λ k,
    mapM (λ j,
      mapM (λ i,
              hi ← maxs !! i; lo ← mins !! i;
              Some (ran ((k * hdim + j) * vec_len + i)%nat * (hi - lo) + lo)%Qc)
           (xrange 0 vec_len))
      (xrange 0 hdim))
    (xrange 0 vdim).

(** [SOMCluster.__init__]; [hdim] and [vdim] are [None] where the caller
    leaves them out.  The result is the labels of [datapoints];
    [IndexError] also stands for whatever [_gen_initial_nodes] and
    [_assign_clusters] raise. *)
Definition SOMCluster (ran : nat → Qc)
    (keys_order : list (nat * nat) → list (nat * nat))
    (distance : list Qc → list Qc → Qc) (exp_e log : Qc → Qc) (maxint : Qc)
    (datapoints : list (option nat)) (data_matrix : list (list Qc))
    (num_clusters : nat) (hdim vdim : option nat)
    (learn_rate : Qc) (num_epochs : nat) : result (list (option nat)) :=
  '(num_samples, vec_len) ←
     or_raise IndexError (Base.BaseCluster datapoints data_matrix);
  let hdim := default num_clusters hdim in
  let vdim := default 2 vdim in
  if decide (hdim < 2 ∨ vdim < 2) then raise (ValueError dims_message)
  else
    nodes ← or_raise IndexError
                (_gen_initial_nodes ran data_matrix hdim vdim vec_len);
    let chessdists := _memo_chessboard_dists hdim vdim in
    nodes ← _train_data distance exp_e log maxint data_matrix num_samples vec_len
                        chessdists hdim vdim nodes learn_rate num_epochs
                        (Qc_of_Z (Z.of_nat (hdim + vdim)) / Q2Qc 3)%Qc;
    or_raise IndexError
      (_assign_clusters distance keys_order nodes data_matrix num_samples
                        hdim vdim datapoints).

(** The check of the grid: on data that is not empty, a grid with a
    dimension below 2 is refused with the ValueError of [__init__] before
    any node is drawn; with the default grid, [num_clusters] by 2, this
    is the case of [num_clusters < 2].  On an empty data matrix
    [BaseCluster.__init__] has raised IndexError before. *)
Theorem grid_dimension_below_two_is_refused
    (ran : nat → Qc) (keys_order : list (nat * nat) → list (nat * nat))
    (distance : list Qc → list Qc → Qc) (exp_e log : Qc → Qc) (maxint : Qc)
    (datapoints : list (option nat)) (data_matrix : list (list Qc))
    (num_clusters : nat) (hdim vdim : option nat)
    (learn_rate : Qc) (num_epochs : nat) :
  (data_matrix = [] →
     SOMCluster ran keys_order distance exp_e log maxint datapoints data_matrix
                num_clusters hdim vdim learn_rate num_epochs
     = inl IndexError) ∧
  (data_matrix ≠ [] →
     default num_clusters hdim < 2 ∨ default 2 vdim < 2 →
     SOMCluster ran keys_order distance exp_e log maxint datapoints data_matrix
                num_clusters hdim vdim learn_rate num_epochs
     = inl (ValueError dims_message)) ∧
  (data_matrix ≠ [] → num_clusters < 2 →
     SOMCluster ran keys_order distance exp_e log maxint datapoints data_matrix
                num_clusters None None learn_rate num_epochs
     = inl (ValueError dims_message)).
Proof.
  assert (∀ hdim vdim, data_matrix ≠ [] →
     default num_clusters hdim < 2 ∨ default 2 vdim < 2 →
     SOMCluster ran keys_order distance exp_e log maxint datapoints data_matrix
                num_clusters hdim vdim learn_rate num_epochs
     = inl (ValueError dims_message)) as Hdims.
  { intros h v Hne Hlt. unfold SOMCluster, Base.BaseCluster.
    destruct data_matrix as [|row rest]; [done|]. simpl.
    by rewrite decide_True. }
  split; [|split].
  - intros ->. done.
  - apply Hdims.
  - intros Hne Hk. apply Hdims; [done|]. simpl. by left.
Qed.

Lemma grid_dimension_below_two_is_refused_witness :
  SOMCluster (λ _, 0%Qc) id manhattan example_exp example_log maxint
             [None] [] 1 None None (Q2Qc (1 # 1000)) 2000
  = inl IndexError ∧
  SOMCluster (λ _, 0%Qc) id manhattan example_exp example_log maxint
             [None] [[0%Qc]] 1 None None (Q2Qc (1 # 1000)) 2000
  = inl (ValueError dims_message).
Proof.
  split.
  - apply (grid_dimension_below_two_is_refused (λ _, 0%Qc) id manhattan
             example_exp example_log maxint [None] [] 1 None None
             (Q2Qc (1 # 1000)) 2000). done.
  - apply (grid_dimension_below_two_is_refused (λ _, 0%Qc) id manhattan
             example_exp example_log maxint [None] [[0%Qc]] 1 None None
             (Q2Qc (1 # 1000)) 2000); [done|lia].
Defined.


(** *** How many clusters come out *)

Lemma length_bind_const {A B} (f : A → list B) (c : nat) (l : list A) :
  (∀ x, length (f x) = c) → length (l ≫= f) = length l * c.
Proof.
  intros Hf. induction l as [|x l IH]; [done|].
  rewrite bind_cons, length_app, Hf, IH. simpl. lia.
Qed.

Lemma length_grid (hdim vdim : nat) : length (grid hdim vdim) = vdim * hdim.
Proof.
  unfold grid, xrange.
  rewrite (length_bind_const _ hdim).
  - rewrite length_seq. lia.
  - intros i. rewrite (length_bind_const _ 1) by done. rewrite length_seq. lia.
Qed.

Section cluster_count.
Context (distance : list Qc → list Qc → Qc).
Context (keys_order : list (nat * nat) → list (nat * nat)).
Context (nodes : list (list (list Qc))) (data_matrix : list (list Qc)).
Context (num_samples hdim vdim : nat).

(** A dict is iterated key by key, each key once. *)
Hypothesis keys_order_perm : ∀ ks, NoDup ks → keys_order ks ≡ₚ ks.

(** When [_assign_clusters] returns, the labels are the numbers below the
    number of nodes that are nearest to some sample: every sample has such
    a label and every such number labels a sample.  That number is at
    most [vdim * hdim], twice [num_clusters] on the default grid, so more
    than [num_clusters] clusters can come out, as the class warns. *)
Theorem labels_number_the_matched_nodes (datapoints dp' : list (option nat)) :
  _assign_clusters distance keys_order nodes data_matrix num_samples hdim vdim
                   datapoints = Some dp' →
  ∃ count,
    count ≤ vdim * hdim ∧ count ≤ num_samples ∧
    (∀ k, k < num_samples → ∃ id, dp' !! k = Some (Some id) ∧ id < count) ∧
    (∀ id, id < count → ∃ k, k < num_samples ∧ dp' !! k = Some (Some id)).
Proof.
  unfold _assign_clusters.
  destruct (matches distance nodes data_matrix num_samples hdim vdim)
    as [ms|] eqn:Hms; simpl; [|done].
  destruct (build_clusters ms datapoints) as [[c ins]|] eqn:Hbuild; simpl; [|done].
  intros Hlabel.
  pose proof (build_clusters_inv _ _ _ Hbuild) as (Hnd & Hfirst & _ & Hins & Hlists).
  cbn [fst snd] in *.
  pose proof (keys_order_perm ins Hnd) as Hperm.
  assert (NoDup (keys_order ins)) as Hnd' by (by rewrite Hperm).
  assert (length ms = num_samples) as Hlen.
  { apply length_mapM in Hms. unfold xrange in Hms. rewrite length_seq in Hms. lia. }
  unfold label_clusters in Hlabel.
  rewrite (imap_ext _ (λ id key, (0 + id, key))) in Hlabel by done.
  apply (label_clusters_from c (keyof ms) num_samples) in Hlabel as [_ Hdp'];
    [|done|].
  2: { intros key Hkey. rewrite Hperm in Hkey.
       destruct (Hlists key Hkey) as (l & Hl & Hmem). exists l. split; [done|].
       intros k. rewrite Hmem. by rewrite Hlen. }
  assert (∀ k, k < num_samples → ∃ key, keyof ms k = Some key ∧
                                        key ∈ grid hdim vdim ∧ key ∈ ins) as Hkeys.
  { intros k Hk.
    destruct (matches_nearest _ _ _ _ _ _ ms k Hms Hk)
      as (d & i & j & sample & w & Hm & _ & _ & _ & Hgrid & _).
    exists (i, j). assert (keyof ms k = Some (i, j)) as Hkey
      by (unfold keyof; by rewrite Hm).
    split; [done|]. split; [done|]. apply Hins. exists k. split; [lia|done]. }
  exists (length ins). split; [|split; [|split]].
  - rewrite <- length_grid. apply submseteq_length, NoDup_submseteq; [done|].
    intros key (k & Hk & Hkey)%Hins. rewrite Hlen in Hk.
    destruct (Hkeys k Hk) as (key' & Hkey' & Hgrid & _). congruence.
  - rewrite <- (length_seq num_samples 0).
    rewrite <- (length_fmap (keyof ms) (seq 0 num_samples)).
    rewrite <- (length_fmap Some ins).
    apply submseteq_length, NoDup_submseteq.
    { apply NoDup_fmap_2; [|done]. by intros ? ? [= ->]. }
    intros okey (key & -> & (k & Hk & Hkey)%Hins)%list_elem_of_fmap.
    apply list_elem_of_fmap. exists k. split; [done|].
    apply elem_of_seq. lia.
  - intros k Hk. destruct (Hkeys k Hk) as (key & Hkey & _ & Hin).
    rewrite <- Hperm in Hin. apply list_elem_of_lookup in Hin as [id Hid].
    exists id. destruct (Hdp' k key Hk Hkey) as [Hrank _].
    split; [by apply Hrank|].
    apply lookup_lt_Some in Hid. by rewrite Hperm in Hid.
  - intros id Hid. rewrite <- Hperm in Hid.
    destruct (lookup_lt_is_Some_2 _ _ Hid) as [key Hkey].
    assert (key ∈ ins) as Hin
      by (rewrite <- Hperm; by eapply list_elem_of_lookup_2).
    apply Hins in Hin as (k & Hk & Hkeyof). rewrite Hlen in Hk.
    exists k. split; [done|].
    destruct (Hdp' k key Hk Hkeyof) as [Hrank _]. by apply Hrank.
Qed.

End cluster_count.

Lemma labels_number_the_matched_nodes_witness :
  (∀ ks, NoDup ks → cpython27_keys ks ≡ₚ ks) ∧
  _assign_clusters manhattan cpython27_keys example_grid_nodes example_data 3 2 2
                   [None; None; None]
    = Some [Some 1; Some 0; Some 1] ∧
  ∃ count,
    count ≤ 2 * 2 ∧ count ≤ 3 ∧
    (∀ k, k < 3 →
       ∃ id, [Some 1; Some 0; Some 1] !! k = Some (Some id) ∧ id < count) ∧
    (∀ id, id < count →
       ∃ k, k < 3 ∧ [Some 1; Some 0; Some 1] !! k = Some (Some id)).
Proof.
  assert (∀ ks, NoDup ks → cpython27_keys ks ≡ₚ ks) as Hperm.
  { intros ks _. apply merge_sort_Permutation. }
  assert (_assign_clusters manhattan cpython27_keys example_grid_nodes
            example_data 3 2 2 [None; None; None]
          = Some [Some 1; Some 0; Some 1]) as H by (vm_compute; reflexivity).
  split; [exact Hperm|]. split; [exact H|].
  exact (labels_number_the_matched_nodes manhattan cpython27_keys
           example_grid_nodes example_data 3 2 2 Hperm
           [None; None; None] [Some 1; Some 0; Some 1] H).
Defined.

End SOM.

(** ** KMeansCluster *)

Module KMeans.
Import Builtins.

(** [a.mean()] on a one-dimensional array that is not empty. *)
Definition mean (a : list Qc) : Qc :=
  (foldl Qcplus 0 a / Qc_of_Z (Z.of_nat (length a)))%Qc.

Section kmeans.
(** [keys_order] is the order in which [for cluster_id in cluster_ids]
    meets the keys of the dict. *)
Context (distance : list Qc → list Qc → Qc).
Context (keys_order : gmap nat (list nat) → list nat).
Context (data_matrix : list (list Qc)) (num_samples num_clusters vec_len : nat).

(** [min([ (distance(centroids[j], data_matrix[i]), j)
           for j in xrange(num_clusters) ])[1]] *)
Definition nearest_centroid (centroids : list (list Qc)) (i : nat) : option nat :=
  pairs ← mapM (λ j, c ← centroids !! j;
                     row ← data_matrix !! i;
                     Some (distance c row, j))
               (xrange 0 num_clusters);
  m ← py_min_pair pairs;
  Some m.2.

(** The body of the loop that assigns the samples:
    [cluster_ids.setdefault(..., []).append(i)]. *)
Definition assign_sample (centroids : list (list Qc))
    (cluster_ids : gmap nat (list nat)) (i : nat) : option (gmap nat (list nat)) :=
  key ← nearest_centroid centroids i;
  Some (<[key := default [] (cluster_ids !! key) ++ [i]]> cluster_ids).

(** The body of [for j in xrange(vec_len)] for the centroid [i], whose
    samples are the rows of [cluster_data_matrix]. *)
Definition move_coordinate (cluster_data_matrix : list (list Qc)) (i : nat)
    (st : list (list Qc) * bool) (j : nat) : option (list (list Qc) * bool) :=
  let '(centroids, moved_flag) := st in
  col ← mapM (λ row, row !! j) cluster_data_matrix;
  let val := mean col in
  c ← mget centroids i j;
  if decide (c = val) then Some (centroids, moved_flag)
  else centroids ← mset centroids i j val; Some (centroids, true).

(** The body of [for i in xrange(num_clusters)]. *)
Definition move_centroid (cluster_ids : gmap nat (list nat))
    (st : list (list Qc) * bool) (i : nat) : option (list (list Qc) * bool) :=
  match cluster_ids !! i with
  | Some members =>
      cluster_data_matrix ← mapM (λ k, data_matrix !! k) members;
      foldM (move_coordinate cluster_data_matrix i) st (xrange 0 vec_len)
  | None => Some st
  end.

(** One turn of [while moved_flag]: the centroids it leaves, whether one
    was moved, and the clusters it formed. *)
Definition kmeans_pass (centroids : list (list Qc))
  : option (list (list Qc) * bool * gmap nat (list nat)) :=
  cluster_ids ← foldM (assign_sample centroids) ∅ (xrange 0 num_samples);
  '(centroids, moved_flag) ←
     foldM (move_centroid cluster_ids) (centroids, false) (xrange 0 num_clusters);
  Some (centroids, moved_flag, cluster_ids).

(** [while moved_flag], for at most [fuel] turns; [None] also when the
    turns are used up. *)
Fixpoint kmeans_loop (fuel : nat) (centroids : list (list Qc))
  : option (list (list Qc) * gmap nat (list nat)) :=
  match fuel with
  | 0 => None
  | S fuel' =>
      match kmeans_pass centroids with
      | Some (centroids, moved_flag, cluster_ids) =>
          if moved_flag : bool then kmeans_loop fuel' centroids
          else Some (centroids, cluster_ids)
      | None => None
      end
  end.

(** The loops that write the labels. *)
Definition label_clusters (cluster_ids : gmap nat (list nat))
    (datapoints : list (option nat)) : option (list (option nat)) :=
  foldM (λ dp cluster_id,
           members ← cluster_ids !! cluster_id;
           foldM (λ dp idx, py_set dp idx (Some cluster_id)) dp members)
        datapoints (keys_order cluster_ids).

(** [_cluster_data]; the result is the centroids as the loop leaves them
    and the labels of [datapoints]. *)
Definition _cluster_data (fuel : nat) (datapoints : list (option nat))
    (centroids : list (list Qc))
  : option (list (list Qc) * list (option nat)) :=
  '(centroids, cluster_ids) ← kmeans_loop fuel centroids;
  datapoints ← label_clusters cluster_ids datapoints;
  Some (centroids, datapoints).

End kmeans.

(** *** The clusters of a turn *)

Section kmeans_facts.
Context (distance : list Qc → list Qc → Qc).
Context (keys_order : gmap nat (list nat) → list nat).
Context (data_matrix : list (list Qc)) (num_samples num_clusters vec_len : nat).

Local Abbreviation nearest_centroid :=
  (nearest_centroid distance data_matrix num_clusters).
Local Abbreviation assign_sample :=
  (assign_sample distance data_matrix num_clusters).
Local Abbreviation move_centroid := (move_centroid data_matrix vec_len).
Local Abbreviation kmeans_pass :=
  (kmeans_pass distance data_matrix num_samples num_clusters vec_len).
Local Abbreviation kmeans_loop :=
  (kmeans_loop distance data_matrix num_samples num_clusters vec_len).

(** The nearest centroid of a sample is a cluster number below
    [num_clusters]; no centroid is at a smaller distance from the sample,
    and among the centroids at that distance it has the least number. *)
Lemma nearest_centroid_spec centroids i c :
  nearest_centroid centroids i = Some c →
  c < num_clusters ∧
  ∃ row w, data_matrix !! i = Some row ∧ centroids !! c = Some w ∧
    ∀ j wj, j < num_clusters → centroids !! j = Some wj →
      (distance w row ≤ distance wj row)%Qc ∧
      (distance w row = distance wj row → c ≤ j).
Proof.
  unfold KMeans.nearest_centroid.
  destruct (mapM _ (xrange 0 num_clusters)) as [pairs|] eqn:Hpairs;
    simpl; [|done].
  destruct (py_min_pair pairs) as [m|] eqn:Hm; simpl; [|done].
  intros [= <-]. apply py_min_pair_spec in Hm as [Hin Hmin].
  assert (∀ j, j < num_clusters →
            pairs !! j = (w ← centroids !! j; row ← data_matrix !! i;
                          Some (distance w row, j))) as Hget.
  { intros j Hj. rewrite (mapM_lookup _ _ _ j Hpairs). unfold xrange.
    rewrite lookup_seq_lt by lia. done. }
  assert (length pairs = num_clusters) as Hlen.
  { apply mapM_Some_1, Forall2_length in Hpairs.
    unfold xrange in Hpairs. rewrite length_seq in Hpairs. lia. }
  apply list_elem_of_lookup in Hin as [k Hk].
  assert (k < num_clusters) as Hklt
    by (rewrite <- Hlen; by eapply lookup_lt_Some).
  rewrite (Hget k Hklt) in Hk.
  destruct (centroids !! k) as [w|] eqn:Hw; simpl in Hk; [|done].
  destruct (data_matrix !! i) as [row|] eqn:Hrow; simpl in Hk; [|done].
  injection Hk as <-. simpl in *. split; [done|].
  exists row, w. split; [done|]. split; [done|].
  intros j wj Hj Hwj. apply (Hmin (distance wj row, j)).
  apply list_elem_of_lookup. exists j. rewrite (Hget j Hj), Hwj. simpl.
  by rewrite ?Hrow.
Qed.

(** The samples below [p] whose nearest centroid is [c], in index order. *)
Definition members (centroids : list (list Qc)) (c p : nat) : list nat :=
  filter (λ i, nearest_centroid centroids i = Some c) (xrange 0 p).

Lemma members_S centroids c p :
  members centroids c (S p)
  = members centroids c p
    ++ (if decide (nearest_centroid centroids p = Some c) then [p] else []).
Proof.
  unfold members, xrange. rewrite !Nat.sub_0_r, seq_S, filter_app.
  by f_equal.
Qed.

(** After the assignment loop the dict holds, under every cluster number
    that is nearest to some sample, the samples it is nearest to. *)
Lemma assign_samples centroids p cluster_ids :
  foldM (assign_sample centroids) ∅ (xrange 0 p) = Some cluster_ids →
  (∀ i, i < p → is_Some (nearest_centroid centroids i)) ∧
  ∀ c, cluster_ids !! c
       = if decide (members centroids c p = []) then None
         else Some (members centroids c p).
Proof.
  revert cluster_ids. induction p as [|p IH]; intros ids.
  - intros [= <-]. split; [lia|]. intros c. by rewrite lookup_empty.
  - unfold xrange in *. rewrite Nat.sub_0_r in *. rewrite seq_S, foldM_app.
    destruct (foldM _ ∅ (seq 0 p)) as [ids1|]; simpl; [|done].
    destruct (IH ids1 eq_refl) as [Hnear Hids1].
    unfold KMeans.assign_sample.
    destruct (nearest_centroid centroids p) as [key|] eqn:Hkey; simpl; [|done].
    intros [= <-]. split.
    { intros i Hi. destruct (decide (i = p)) as [->|Hne]; [by eexists|].
      apply Hnear. lia. }
    intros c. rewrite members_S, Hkey.
    destruct (decide (c = key)) as [->|Hne].
    + rewrite lookup_insert_eq. rewrite (decide_True (P := Some key = Some key)) by done.
      rewrite decide_False by (intros Hnil; by apply app_eq_nil in Hnil as [_ ?]).
      f_equal. f_equal. rewrite Hids1. by destruct (decide _) as [->|].
    + rewrite lookup_insert_ne by done.
      rewrite (decide_False (P := Some key = Some c)) by congruence.
      rewrite app_nil_r. apply Hids1.
Qed.

(** *** The last turn moves nothing *)

Lemma move_coordinates_unmoved rows i (l : list nat)
    (c : list (list Qc)) (m : bool) (c' : list (list Qc)) :
  foldM (move_coordinate rows i) (c, m) l = Some (c', false) →
  m = false ∧ c' = c ∧
  ∀ j, j ∈ l → ∃ col, mapM (λ row : list Qc, row !! j) rows = Some col ∧
                      mget c i j = Some (mean col).
Proof.
  revert c m. induction l as [|j l IH]; intros c m.
  - intros [= <- <-]. split; [done|]. split; [done|].
    intros j Hj. by apply elem_of_nil in Hj.
  - rewrite foldM_cons.
    destruct (move_coordinate rows i (c, m) j) as [[c1 m1]|] eqn:Hstep;
      simpl; [|done].
    intros Hrest. destruct (IH _ _ Hrest) as (-> & -> & Hall).
    unfold move_coordinate in Hstep.
    destruct (mapM _ rows) as [col|] eqn:Hcol; simpl in Hstep; [|done].
    destruct (mget c i j) as [v|] eqn:Hv; simpl in Hstep; [|done].
    destruct (decide (v = mean col)) as [->|Hne].
    + injection Hstep as <- <-. split; [done|]. split; [done|].
      intros j' [->|Hj']%elem_of_cons; [by exists col|]. by apply Hall.
    + destruct (mset c i j (mean col)); simpl in Hstep; [|done].
      by injection Hstep.
Qed.

Lemma move_centroids_unmoved cluster_ids (l : list nat)
    (c : list (list Qc)) (m : bool) (c' : list (list Qc)) :
  foldM (move_centroid cluster_ids) (c, m) l = Some (c', false) →
  m = false ∧ c' = c ∧
  ∀ i cluster, i ∈ l → cluster_ids !! i = Some cluster →
    ∃ rows, mapM (λ k, data_matrix !! k) cluster = Some rows ∧
      ∀ j, j < vec_len →
        ∃ col, mapM (λ row : list Qc, row !! j) rows = Some col ∧
               mget c i j = Some (mean col).
Proof.
  revert c m. induction l as [|i l IH]; intros c m.
  - intros [= <- <-]. split; [done|]. split; [done|].
    intros i cluster Hi. by apply elem_of_nil in Hi.
  - rewrite foldM_cons.
    destruct (move_centroid cluster_ids (c, m) i) as [[c1 m1]|] eqn:Hstep;
      simpl; [|done].
    intros Hrest. destruct (IH _ _ Hrest) as (-> & -> & Hall).
    unfold KMeans.move_centroid in Hstep.
    destruct (cluster_ids !! i) as [cluster|] eqn:Hcluster.
    + destruct (mapM _ cluster) as [rows|] eqn:Hrows; simpl in Hstep; [|done].
      apply move_coordinates_unmoved in Hstep as (-> & -> & Hcols).
      split; [done|]. split; [done|].
      intros i' cluster' [->|Hi']%elem_of_cons Hcluster'; [|by eapply Hall].
      rewrite Hcluster in Hcluster'. injection Hcluster' as <-.
      exists rows. split; [done|]. intros j Hj. apply Hcols.
      unfold xrange. apply elem_of_seq. lia.
    + injection Hstep as <- <-. split; [done|]. split; [done|].
      intros i' cluster' [->|Hi']%elem_of_cons Hcluster'; [congruence|].
      by eapply Hall.
Qed.

(** When [while moved_flag] ends, the turn just made formed its clusters
    from the centroids it leaves. *)
Lemma kmeans_loop_last fuel centroids0 centroids cluster_ids :
  kmeans_loop fuel centroids0 = Some (centroids, cluster_ids) →
  kmeans_pass centroids = Some (centroids, false, cluster_ids).
Proof.
  revert centroids0. induction fuel as [|fuel IH]; intros c0; simpl; [done|].
  destruct (kmeans_pass c0) as [[[c1 moved] ids1]|] eqn:Hpass; [|done].
  destruct moved; [apply IH|]. intros [= <- <-].
  pose proof Hpass as Hpass'. unfold KMeans.kmeans_pass in Hpass'.
  destruct (foldM _ ∅ _) as [ids|]; simpl in Hpass'; [|done].
  destruct (foldM _ (c0, false) _) as [[c2 m2]|] eqn:Hmove;
    simpl in Hpass'; [|done].
  injection Hpass' as Hc Hm Hids. subst.
  apply move_centroids_unmoved in Hmove as (_ & -> & _). done.
Qed.

(** *** The labels *)

Lemma label_members (v : option nat) (cluster : list nat)
    (dp dp' : list (option nat)) :
  foldM (λ dp idx, py_set dp idx v) dp cluster = Some dp' →
  length dp' = length dp ∧
  ∀ i, dp' !! i = if decide (i ∈ cluster) then Some v else dp !! i.
Proof.
  revert dp. induction cluster as [|idx cluster IH]; intros dp.
  - intros [= <-]. split; [done|]. intros i.
    by rewrite decide_False by apply not_elem_of_nil.
  - rewrite foldM_cons.
    destruct (py_set dp idx v) as [dp1|] eqn:Hset; simpl; [|done].
    unfold py_set in Hset.
    destruct (decide (idx < length dp)) as [Hlt|]; [|done].
    injection Hset as <-.
    intros Hrest. destruct (IH _ Hrest) as [Hlen Hget].
    split; [by rewrite Hlen, length_insert|]. intros i. rewrite Hget.
    destruct (decide (i ∈ cluster)) as [Hin|Hnotin].
    + by rewrite decide_True by by right.
    + destruct (decide (i = idx)) as [->|Hne].
      * rewrite decide_True by by left. by rewrite list_lookup_insert_eq.
      * rewrite list_lookup_insert_ne by done.
        rewrite decide_False; [done|].
        by intros [?|?]%elem_of_cons.
Qed.

Lemma label_keys (cluster_ids : gmap nat (list nat)) (ks : list nat)
    (dp dp' : list (option nat)) :
  (∀ k1 k2 l1 l2 i, cluster_ids !! k1 = Some l1 → cluster_ids !! k2 = Some l2 →
                    i ∈ l1 → i ∈ l2 → k1 = k2) →
  foldM (λ dp cluster_id,
           cluster ← cluster_ids !! cluster_id;
           foldM (λ dp idx, py_set dp idx (Some cluster_id)) dp cluster)
        dp ks = Some dp' →
  length dp' = length dp ∧
  ∀ i, (∀ k l, k ∈ ks → cluster_ids !! k = Some l → i ∈ l →
          dp' !! i = Some (Some k)) ∧
       ((∀ k l, k ∈ ks → cluster_ids !! k = Some l → i ∉ l) →
          dp' !! i = dp !! i).
Proof.
  intros Hdisjoint. revert dp. induction ks as [|k ks IH]; intros dp.
  - intros [= <-]. split; [done|]. intros i. split; [|done].
    intros k l Hk. by apply elem_of_nil in Hk.
  - rewrite foldM_cons.
    destruct (cluster_ids !! k) as [cluster|] eqn:Hcluster; simpl; [|done].
    destruct (foldM _ dp cluster) as [dp1|] eqn:Hdp1; simpl; [|done].
    apply label_members in Hdp1 as [Hlen1 Hget1].
    intros Hrest. destruct (IH _ Hrest) as [Hlen Hget].
    split; [congruence|]. intros i. destruct (Hget i) as [Hin Hout]. split.
    + intros k' l Hk' Hl Hi.
      destruct (decide (k' ∈ ks)) as [Hks|Hks]; [by eapply Hin|].
      apply elem_of_cons in Hk' as [->|?]; [|done].
      rewrite Hcluster in Hl. injection Hl as <-.
      rewrite Hout, Hget1; [by rewrite decide_True|].
      intros k2 l2 Hk2 Hl2 Hi2.
      apply Hks. by rewrite (Hdisjoint k k2 cluster l2 i).
    + intros Hnone. rewrite Hout, Hget1.
      * rewrite decide_False; [done|]. apply (Hnone k); [by left|done].
      * intros k2 l2 Hk2. apply Hnone. by right.
Qed.

(** *** What one turn does to the centroids *)

(** Coordinate [j] of the mean of the samples of [cluster]. *)
Definition cluster_mean (cluster : list nat) (j : nat) : option Qc :=
  rows ← mapM (λ k, data_matrix !! k) cluster;
  col ← mapM (λ row : list Qc, row !! j) rows;
  Some (mean col).

Lemma move_coordinates_effect rows i (l : list nat)
    (c : list (list Qc)) (m : bool) (c' : list (list Qc)) (m' : bool) :
  foldM (move_coordinate rows i) (c, m) l = Some (c', m') →
  ∀ a b, mget c' a b
         = if decide (a = i ∧ b ∈ l)
           then col ← mapM (λ row : list Qc, row !! b) rows; Some (mean col)
           else mget c a b.
Proof.
  revert c m. induction l as [|j l IH]; intros c m.
  - intros [= <- <-] a b. rewrite decide_False; [done|].
    intros [_ Hb]. by apply elem_of_nil in Hb.
  - rewrite foldM_cons.
    destruct (move_coordinate rows i (c, m) j) as [[c1 m1]|] eqn:Hstep;
      simpl; [|done].
    intros Hrest a b. rewrite (IH _ _ Hrest).
    unfold move_coordinate in Hstep.
    destruct (mapM _ rows) as [col|] eqn:Hcol; simpl in Hstep; [|done].
    destruct (mget c i j) as [v|] eqn:Hv; simpl in Hstep; [|done].
    assert (∀ a b, mget c1 a b = if decide (a = i ∧ b = j)
                                 then Some (mean col) else mget c a b) as Hc1.
    { intros a' b'. destruct (decide (v = mean col)) as [->|Hne].
      - injection Hstep as <- <-.
        destruct (decide _) as [[-> ->]|]; done.
      - destruct (mset c i j (mean col)) as [c2|] eqn:Hset;
          simpl in Hstep; [|done].
        injection Hstep as <- <-. by apply mget_mset. }
    destruct (decide (a = i ∧ b ∈ l)) as [[-> Hb]|Hn].
    + by rewrite decide_True by (split; [done|by right]).
    + rewrite Hc1. destruct (decide (a = i ∧ b = j)) as [[-> ->]|Hn'].
      * rewrite decide_True by (split; [done|by left]). by rewrite Hcol.
      * rewrite decide_False; [done|].
        intros [-> [->|Hb]%elem_of_cons]; [by apply Hn'|by apply Hn].
Qed.

Lemma move_centroids_effect cluster_ids (l : list nat)
    (c : list (list Qc)) (m : bool) (c' : list (list Qc)) (m' : bool) :
  foldM (move_centroid cluster_ids) (c, m) l = Some (c', m') →
  ∀ a b, b < vec_len →
    mget c' a b
    = match cluster_ids !! a with
      | Some cluster => if decide (a ∈ l) then cluster_mean cluster b
                        else mget c a b
      | None => mget c a b
      end.
Proof.
  revert c m. induction l as [|i l IH]; intros c m.
  - intros [= <- <-] a b Hb. destruct (cluster_ids !! a); [|done].
    by rewrite decide_False by apply not_elem_of_nil.
  - rewrite foldM_cons.
    destruct (move_centroid cluster_ids (c, m) i) as [[c1 m1]|] eqn:Hstep;
      simpl; [|done].
    intros Hrest a b Hb. rewrite (IH _ _ Hrest a b Hb).
    unfold KMeans.move_centroid in Hstep.
    destruct (cluster_ids !! i) as [cluster|] eqn:Hcluster.
    + destruct (mapM _ cluster) as [rows|] eqn:Hrows; simpl in Hstep; [|done].
      pose proof (move_coordinates_effect _ _ _ _ _ _ _ Hstep a b) as Hc1.
      destruct (cluster_ids !! a) as [cluster'|] eqn:Hcluster'.
      * destruct (decide (a ∈ l)) as [Hin|Hnotin].
        -- by rewrite decide_True by by right.
        -- rewrite Hc1. destruct (decide (a = i)) as [->|Hne].
           ++ rewrite (decide_True (P := i ∈ i :: l)) by by left.
              rewrite (decide_True (P := i = i ∧ b ∈ xrange 0 vec_len))
                by (split; [done|]; unfold xrange; apply elem_of_seq; lia).
              rewrite Hcluster in Hcluster'. injection Hcluster' as <-.
              unfold cluster_mean. by rewrite Hrows.
           ++ rewrite (decide_False (P := a = i ∧ b ∈ xrange 0 vec_len))
                by (by intros [? _]).
              rewrite decide_False; [done|]. by intros [?|?]%elem_of_cons.
      * rewrite Hc1. rewrite decide_False; [done|].
        intros [-> _]. congruence.
    + injection Hstep as <- <-.
      destruct (cluster_ids !! a) as [cluster'|] eqn:Hcluster'; [|done].
      destruct (decide (a ∈ l)) as [Hin|Hnotin].
      * by rewrite decide_True by by right.
      * rewrite decide_False; [done|].
        intros [->|?]%elem_of_cons; [congruence|done].
Qed.

(** One turn of the loop, when it goes through: a centroid that is
    nearest to some sample moves to the mean of the samples it is nearest
    to, a centroid that is nearest to none stays where it is and forms no
    cluster, and a turn that reports no move has moved nothing. *)
Theorem turn_moves_centroids_to_cluster_means
    (centroids centroids' : list (list Qc)) (moved_flag : bool)
    (cluster_ids : gmap nat (list nat)) :
  kmeans_pass centroids = Some (centroids', moved_flag, cluster_ids) →
  (∀ k, cluster_ids !! k
        = if decide (members centroids k num_samples = []) then None
          else Some (members centroids k num_samples)) ∧
  (∀ k j, k < num_clusters → j < vec_len →
     mget centroids' k j
     = if decide (members centroids k num_samples = [])
       then mget centroids k j
       else cluster_mean (members centroids k num_samples) j) ∧
  (moved_flag = false → centroids' = centroids).
Proof.
  unfold KMeans.kmeans_pass.
  destruct (foldM _ ∅ _) as [ids|] eqn:Hassign; simpl; [|done].
  destruct (foldM _ (centroids, false) _) as [[c' m']|] eqn:Hmove;
    simpl; [|done].
  intros [= <- <- <-]. apply assign_samples in Hassign as [_ Hids].
  split; [done|]. split.
  - intros k j Hk Hj.
    rewrite (move_centroids_effect _ _ _ _ _ _ Hmove k j Hj), Hids.
    destruct (decide _); [done|].
    rewrite decide_True; [done|]. unfold xrange. apply elem_of_seq. lia.
  - intros ->. by apply move_centroids_unmoved in Hmove as (_ & -> & _).
Qed.

(** *** What [_cluster_data] returns *)

(** A dict is iterated over its keys. *)
Hypothesis keys_order_keys : ∀ m k, k ∈ keys_order m ↔ is_Some (m !! k).

(** When [_cluster_data] returns, the centroids are a fixed point of the
    iteration.  Every sample is labelled with the number of a centroid
    nearest to it (no centroid is at a smaller distance, and among those at
    that distance it has the least number), and every centroid that has
    samples is, coordinate by coordinate, the mean of the samples that
    carry its label. *)
Theorem kmeans_returns_fixed_point
    (fuel : nat) (datapoints : list (option nat))
    (centroids0 centroids : list (list Qc)) (labels : list (option nat)) :
  _cluster_data distance keys_order data_matrix num_samples num_clusters vec_len
                fuel datapoints centroids0 = Some (centroids, labels) →
  length labels = length datapoints ∧
  (∀ i, i < num_samples →
     ∃ k row w, labels !! i = Some (Some k) ∧ k < num_clusters ∧
       data_matrix !! i = Some row ∧ centroids !! k = Some w ∧
       ∀ j wj, j < num_clusters → centroids !! j = Some wj →
         (distance w row ≤ distance wj row)%Qc ∧
         (distance w row = distance wj row → k ≤ j)) ∧
  (∀ k,
     let cluster :=
       filter (λ i, labels !! i = Some (Some k)) (xrange 0 num_samples) in
     cluster ≠ [] →
     ∃ rows, mapM (λ i, data_matrix !! i) cluster = Some rows ∧
       ∀ j, j < vec_len →
         ∃ col, mapM (λ row : list Qc, row !! j) rows = Some col ∧
                mget centroids k j = Some (mean col)).
Proof.
  unfold _cluster_data.
  destruct (kmeans_loop fuel centroids0) as [[c ids]|] eqn:Hloop; simpl; [|done].
  destruct (label_clusters keys_order ids datapoints) as [dp|] eqn:Hlabels;
    simpl; [|done].
  intros [= <- <-]. apply kmeans_loop_last in Hloop.
  unfold KMeans.kmeans_pass in Hloop.
  destruct (foldM _ ∅ _) as [ids'|] eqn:Hassign; simpl in Hloop; [|done].
  destruct (foldM _ (c, false) _) as [[c' m']|] eqn:Hmove;
    simpl in Hloop; [|done].
  injection Hloop as Hc Hm Hids. subst.
  apply assign_samples in Hassign as [Hnear Hids].
  apply move_centroids_unmoved in Hmove as (_ & _ & Hmeans).
  assert (∀ k l, ids !! k = Some l → l = members c k num_samples) as Hmem.
  { intros k l. rewrite Hids. destruct (decide _); [done|]. by intros [= <-]. }
  assert (∀ i k, i ∈ members c k num_samples
                 ↔ i < num_samples ∧ nearest_centroid c i = Some k) as Hin.
  { intros i k. unfold members. rewrite list_elem_of_filter. unfold xrange.
    rewrite elem_of_seq. split; [intros [? ?]|intros [? ?]]; split; (done || lia). }
  unfold label_clusters in Hlabels.
  apply label_keys in Hlabels as [Hlen Hlabels]; cycle 1.
  { intros k1 k2 l1 l2 i Hl1 Hl2. rewrite (Hmem _ _ Hl1), (Hmem _ _ Hl2).
    rewrite !Hin. intros [_ H1] [_ H2]. congruence. }
  assert (∀ i, i < num_samples →
            ∃ k, nearest_centroid c i = Some k ∧ dp !! i = Some (Some k)) as Hlab.
  { intros i Hi. destruct (Hnear i Hi) as [k Hk]. exists k. split; [done|].
    assert (i ∈ members c k num_samples) as Hik by by apply Hin.
    assert (ids !! k = Some (members c k num_samples)) as Hidk.
    { rewrite Hids. rewrite decide_False; [done|].
      intros Hnil. rewrite Hnil in Hik. by apply elem_of_nil in Hik. }
    destruct (Hlabels i) as [Hset _]. eapply Hset; [|exact Hidk|done].
    apply keys_order_keys. by eexists. }
  split; [done|]. split.
  - intros i Hi. destruct (Hlab i Hi) as (k & Hk & Hdp).
    destruct (nearest_centroid_spec _ _ _ Hk) as (Hklt & row & w & Hrow & Hw & Hmin).
    by exists k, row, w.
  - intros k. cbv zeta.
    assert (filter (λ i, dp !! i = Some (Some k)) (xrange 0 num_samples)
            = members c k num_samples) as ->.
    { unfold members. apply PAM.filter_ext_in.
      intros i Hi. unfold xrange in Hi. apply elem_of_seq in Hi.
      destruct (Hlab i) as (k' & Hk' & Hdp); [lia|]. rewrite Hk', Hdp.
      split; congruence. }
    intros Hne.
    assert (ids !! k = Some (members c k num_samples)) as Hidk.
    { rewrite Hids. by rewrite decide_False. }
    destruct (members c k num_samples) as [|i0 rest] eqn:Hmembers; [done|].
    assert (i0 ∈ members c k num_samples) as Hi0
      by (rewrite Hmembers; by left).
    apply Hin in Hi0 as [_ Hk]. apply nearest_centroid_spec in Hk as [Hklt _].
    apply (Hmeans k); [|done]. unfold xrange. apply elem_of_seq. lia.
Qed.

End kmeans_facts.

(** *** The theorem at a concrete run

    Three one-dimensional samples, two centroids, the Manhattan distance,
    and a dict iterated in the order of its sorted keys. *)

Definition example_keys (m : gmap nat (list nat)) : list nat := (map_to_list m).*1.

Lemma example_keys_keys (m : gmap nat (list nat)) (k : nat) :
  k ∈ example_keys m ↔ is_Some (m !! k).
Proof.
  unfold example_keys. rewrite list_elem_of_fmap. split.
  - intros ([k' l] & -> & Hin). apply elem_of_map_to_list in Hin. by eexists.
  - intros [l Hl]. exists (k, l). split; [done|]. by apply elem_of_map_to_list.
Qed.

Definition example_data : list (list Qc) := [[0%Qc]; [1%Qc]; [Q2Qc 10]].

Lemma kmeans_returns_fixed_point_witness :
  let centroids := [[Q2Qc (1 # 2)]; [Q2Qc 10]] in
  let labels := [Some 0; Some 0; Some 1] in
  length labels = length [None; None; None : option nat] ∧
  (∀ i, i < 3 →
     ∃ k row w, labels !! i = Some (Some k) ∧ k < 2 ∧
       example_data !! i = Some row ∧ centroids !! k = Some w ∧
       ∀ j wj, j < 2 → centroids !! j = Some wj →
         (SOM.manhattan w row ≤ SOM.manhattan wj row)%Qc ∧
         (SOM.manhattan w row = SOM.manhattan wj row → k ≤ j)) ∧
  (∀ k,
     let cluster := filter (λ i, labels !! i = Some (Some k)) (xrange 0 3) in
     cluster ≠ [] →
     ∃ rows, mapM (λ i, example_data !! i) cluster = Some rows ∧
       ∀ j, j < 1 →
         ∃ col, mapM (λ row : list Qc, row !! j) rows = Some col ∧
                mget centroids k j = Some (mean col)).
Proof.
  intros centroids labels.
  apply (kmeans_returns_fixed_point SOM.manhattan example_keys example_data
           3 2 1 example_keys_keys 5 [None; None; None] [[0%Qc]; [Q2Qc 2]]
           centroids labels).
  vm_compute. reflexivity.
Defined.

Lemma turn_moves_centroids_to_cluster_means_witness :
  let centroids := [[0%Qc]; [Q2Qc 2]] in
  ∃ centroids' moved_flag cluster_ids,
    kmeans_pass SOM.manhattan example_data 3 2 1 centroids
      = Some (centroids', moved_flag, cluster_ids) ∧
    (∀ k, cluster_ids !! k
          = if decide (members SOM.manhattan example_data 2 centroids k 3 = [])
            then None
            else Some (members SOM.manhattan example_data 2 centroids k 3)) ∧
    (∀ k j, k < 2 → j < 1 →
       mget centroids' k j
       = if decide (members SOM.manhattan example_data 2 centroids k 3 = [])
         then mget centroids k j
         else cluster_mean example_data
                (members SOM.manhattan example_data 2 centroids k 3) j) ∧
    (moved_flag = false → centroids' = centroids).
Proof.
  intros centroids.
  destruct (kmeans_pass SOM.manhattan example_data 3 2 1 centroids)
    as [[[centroids' moved_flag] cluster_ids]|] eqn:Hpass;
    [|by vm_compute in Hpass].
  exists centroids', moved_flag, cluster_ids. split; [done|].
  exact (turn_moves_centroids_to_cluster_means SOM.manhattan example_data
           3 2 1 centroids centroids' moved_flag cluster_ids Hpass).
Defined.

End KMeans.
